(** * Rate-limited request queue and bounded-concurrency batch runner

A shallow embedding of the two utilities of the deep-research
pipeline that carry design content:

- [RequestQueue] of [src/services/firecrawl/utils.ts]: a queue that
  paces outbound requests under a requests-per-minute ceiling and
  retries requests rejected with HTTP 429;
- [executeParallel] of [src/services/firecrawl/utils.ts], its client
  wrapper of the Firecrawl client, and [executeParallelTasks] of
  [src/services/openai/utils.ts]: batch runners with a concurrency
  cap, a per-task timeout and an abort-or-collect failure policy;

and of what stands around them: [makeRequest] of the Firecrawl client
with [handleApiError] of [src/utils/errors.ts], [combineStreamChunks]
of [src/services/openai/utils.ts] and [extractTopDomains] of
[src/services/firecrawl/extraction.ts].

Promises are modelled by their observable behaviour: when they
settle (milliseconds after they were started) and with what.  Time is
the value of [Date.now()], an integer number of milliseconds. *)

From Stdlib Require Import String.
From Stdlib Require Import DecimalString.
From Stdlib Require Import ZArith List Bool Lia Arith PeanoNat Permutation Sorted.
Import ListNotations.
Open Scope Z_scope.

(** ** Thrown values ([src/utils/errors.ts]) *)

Module Errors.

(** What a rejected promise carries.  [FirecrawlError] and [OpenAIError]
  are the two [ApiError] subclasses; [PlainError] is any other
  [Error] instance; [NonError] is a thrown value that is not an
  [Error], kept by its [String(...)] rendering. *)
Inductive Thrown : Type :=
| FirecrawlError (message : string) (statusCode : Z)
| OpenAIError (message : string) (statusCode : Z)
| PlainError (message : string)
| NonError (rendering : string).

(** [error instanceof Error] *)
Definition instanceofError (e : Thrown) : bool :=
  match e with
  | NonError _ => false
  | _ => true
  end.

(** [error instanceof Error ? error : new Error(String(error))] *)
Definition asError (e : Thrown) : Thrown :=
  match e with
  | NonError s => PlainError s
  | _ => e
  end.

(** [error instanceof FirecrawlError && error.statusCode === 429] *)
Definition isRateLimit (e : Thrown) : bool :=
  match e with
  | FirecrawlError _ sc => sc =? 429
  | _ => false
  end.

End Errors.
Import Errors.

(** ** Timers of the host *)

Module Timers.

Definition TIMEOUT_MAX : Z := 2147483647.

(** The delay a [setTimeout(cb, ms)] really uses: the host replaces a
  delay below 1 or above [TIMEOUT_MAX] by 1. *)
Definition timerDelay (ms : Z) : Z :=
  if (ms <? 1) || (TIMEOUT_MAX <? ms) then 1 else ms.

(** The same for a delay that may be [NaN] ([None]). *)
Definition timerDelayOpt (ms : option Z) : Z :=
  match ms with
  | Some d => timerDelay d
  | None => 1
  end.

End Timers.
Import Timers.

(** ** Settled promises *)

(** A settled promise: fulfilled with a value, or rejected with what was
    thrown. *)
Inductive Outcome (T : Type) : Type :=
| Resolved (v : T)
| Rejected (e : Thrown).
Arguments Resolved {T} v.
Arguments Rejected {T} e.

(** ** The rate-limited request queue *)

Module RateLimiter.

(** [RateLimitOptions]: every field optional ([None] is [undefined]). *)
Record RateLimitOptions : Type := mkRateLimitOptions {
  optMaxRequestsPerMinute : option Z;
  optRetryCount : option Z;
  optRetryDelayMs : option Z
}.

(** [Required<RateLimitOptions>] *)
Record Options : Type := mkOptions {
  maxRequestsPerMinute : Z;
  retryCount : Z;
  retryDelayMs : Z
}.

(** [x || d] on a number: [undefined] and [0] are falsy. *)
Definition orDefault (x : option Z) (d : Z) : Z :=
  match x with
  | Some v => if v =? 0 then d else v
  | None => d
  end.

(** The constructor of [RequestQueue]. *)
Definition RequestQueue_options (options : RateLimitOptions) : Options :=
  {| maxRequestsPerMinute := orDefault (optMaxRequestsPerMinute options) 60;
     retryCount := orDefault (optRetryCount options) 3;
     retryDelayMs := orDefault (optRetryDelayMs options) 1000 |}.

(** The clock never goes back. *)
Fixpoint clockFrom (last : Z) (times : list Z) : Prop :=
  match times with
  | [] => True
  | t :: times' => last <= t /\ clockFrom t times'
  end.

(** The admissions of the 60 seconds that end at [t]. *)
Definition inWindow (t : Z) (timestamp : Z) : bool :=
  (t - 60000 <? timestamp) && (timestamp <=? t).

Definition windowCount (t : Z) (log : list Z) : nat :=
  length (filter (inWindow t) log).

Section Queue.

Context {T : Type}.

(** One invocation of a request function: it settles [latency]
    milliseconds after the call, with [outcome]. *)
Record Attempt : Type := mkAttempt {
  latency : nat;
  outcome : Outcome T
}.

(** A request function may be called several times; [requestFn k] is
    what its call number [k] (from 0) does. *)
Definition RequestFn : Type := nat -> Attempt.

(** An entry of [this.queue]: the closure around [requestFn], with
    the position at which it was submitted. *)
Record Pending : Type := mkPending {
  pid : nat;
  requestFn : RequestFn
}.

Record QueueState : Type := mkQueueState {
  queue : list Pending;
  processing : bool;
  requestTimestamps : list Z
}.

(** A new queue. *)
Definition emptyQueue : QueueState :=
  {| queue := []; processing := false; requestTimestamps := [] |}.

Variable options : Options.

(** *** [executeWithRetry] *)

Record RetryRun : Type := mkRetryRun {
  result : Outcome T;
  invocations : nat;      (* calls of the request function *)
  elapsed : Z             (* milliseconds from the first call to settlement *)
}.

(** [calls] counts the calls of [fn] made before this one; the source
    starts with [attempt = 1]. *)
Fixpoint executeWithRetry (fuel : nat) (fn : RequestFn) (calls : nat)
         (attempt : Z) : option RetryRun :=
  match fuel with
  | O => None
  | S fuel' =>
      let a := fn calls in
      match outcome a with
      | Resolved v =>
          Some {| result := Resolved v; invocations := 1;
                  elapsed := Z.of_nat (latency a) |}
      | Rejected error =>
          if negb (isRateLimit error) || (retryCount options <? attempt)
          then Some {| result := Rejected error; invocations := 1;
                       elapsed := Z.of_nat (latency a) |}
          else
            let delay := retryDelayMs options * attempt in
            match executeWithRetry fuel' fn (S calls) (attempt + 1) with
            | None => None
            | Some r =>
                Some {| result := result r;
                        invocations := S (invocations r);
                        elapsed := Z.of_nat (latency a) + timerDelay delay
                                   + elapsed r |}
            end
      end
  end.

(** *** [processQueue], up to its first suspension *)

Inductive Action : Type :=
| Idle                               (* queue empty: nothing scheduled *)
| Deferred (waitTime : option Z)     (* ceiling reached: timer of waitTime + 100 *)
| Granted (next : Pending).          (* next request started and awaited *)

Definition purge (now : Z) (timestamps : list Z) : list Z :=
  let oneMinuteAgo := now - 60000 in
  filter (fun timestamp => oneMinuteAgo <? timestamp) timestamps.

(** The entries of the queue are closures, so that [queue.shift()] on a
    queue that is not empty is never falsy: the final [else] of the
    source is not reached. *)
Definition processQueue (now : Z) (s : QueueState) : QueueState * Action :=
  match queue s with
  | [] =>
      ({| queue := []; processing := false;
          requestTimestamps := requestTimestamps s |}, Idle)
  | nextRequest :: rest =>
      let timestamps := purge now (requestTimestamps s) in
      if maxRequestsPerMinute options <=? Z.of_nat (length timestamps)
      then
        (* requestTimestamps[0] is undefined on an empty list, and the
           subtraction then gives NaN *)
        let waitTime :=
          match timestamps with
          | oldestTimestamp :: _ => Some (60000 - (now - oldestTimestamp))
          | [] => None
          end in
        ({| queue := queue s; processing := true;
            requestTimestamps := timestamps |}, Deferred waitTime)
      else
        ({| queue := rest; processing := true;
            requestTimestamps := timestamps ++ [now] |}, Granted nextRequest)
  end.

(** *** [enqueue] *)

(** The synchronous part of [enqueue]: push, and start [processQueue]
    when the queue is not being processed. *)
Definition enqueue (now : Z) (s : QueueState) (p : Pending)
  : QueueState * option Action :=
  let s1 := {| queue := queue s ++ [p]; processing := processing s;
               requestTimestamps := requestTimestamps s |} in
  if processing s1 then (s1, None)
  else let (s2, a) := processQueue now s1 in (s2, Some a).

(** *** The chain of [processQueue] calls

Every [processQueue] ends by scheduling the next one: after the timer of
[waitTime + 100] when the ceiling was reached, or with [setImmediate]
once the awaited request has settled.  A scheduled callback runs at its
due time or later; [lag k] is how late callback number [k] runs. *)

Variable lag : nat -> nat.

Record Admission : Type := mkAdmission {
  request : Pending;
  admittedAt : Z;         (* the timestamp pushed on requestTimestamps *)
  run : RetryRun
}.

Definition settledAt (a : Admission) : Z := admittedAt a + elapsed (run a).

Definition plus100 (waitTime : option Z) : option Z :=
  match waitTime with
  | Some w => Some (w + 100)
  | None => None
  end.

(** [now] is the time at which [processQueue] returned [a]; the log
    collects the admissions in the order in which they happen. *)
Fixpoint eventLoop (fuel k : nat) (now : Z) (s : QueueState) (a : Action)
         (log : list Admission) : option (QueueState * list Admission) :=
  match fuel with
  | O => None
  | S fuel' =>
      match a with
      | Idle => Some (s, log)
      | Deferred waitTime =>
          let now' := now + timerDelayOpt (plus100 waitTime) + Z.of_nat (lag k) in
          let (s', a') := processQueue now' s in
          eventLoop fuel' (S k) now' s' a' log
      | Granted nextRequest =>
          match executeWithRetry fuel' (requestFn nextRequest) 0 1 with
          | None => None
          | Some r =>
              let now' := now + elapsed r + Z.of_nat (lag k) in
              let (s', a') := processQueue now' s in
              eventLoop fuel' (S k) now' s' a'
                (log ++ [{| request := nextRequest; admittedAt := now; run := r |}])
          end
      end
  end.

(** Request functions submitted one after the other, numbered from [i]. *)
Fixpoint submissions (i : nat) (fns : list RequestFn) : list Pending :=
  match fns with
  | [] => []
  | fn :: fns' => {| pid := i; requestFn := fn |} :: submissions (S i) fns'
  end.

(** Calls of [enqueue] made in one synchronous run of the caller: no
    callback of the event loop runs in between. *)
Fixpoint enqueueAll (now : Z) (s : QueueState) (started : option Action)
         (ps : list Pending) : QueueState * option Action :=
  match ps with
  | [] => (s, started)
  | p :: ps' =>
      let (s', a) := enqueue now s p in
      enqueueAll now s' (match started with Some _ => started | None => a end) ps'
  end.

(** A burst of requests submitted to a new queue at time [now], and the
    queue then left to drain. *)
Definition burst (fuel : nat) (now : Z) (fns : list RequestFn)
  : option (QueueState * list Admission) :=
  let (s, started) := enqueueAll now emptyQueue None (submissions 0 fns) in
  match started with
  | Some a => eventLoop fuel 0 now s a []
  | None => Some (s, [])
  end.

(** *** Arbitrary interleavings

For the ceiling nothing has to be known about what drives the queue: an
event is a call of [enqueue] or a run of [processQueue], at some time. *)

Inductive Event : Type :=
| Enqueue (p : Pending)
| Wake.

Definition admissionAt (now : Z) (a : option Action) : list Z :=
  match a with
  | Some (Granted _) => [now]
  | _ => []
  end.

Definition step (now : Z) (ev : Event) (s : QueueState)
  : QueueState * option Action :=
  match ev with
  | Enqueue p => enqueue now s p
  | Wake => let (s', a) := processQueue now s in (s', Some a)
  end.

(** The admission timestamps of a run of events, oldest first. *)
Fixpoint runEvents (evs : list (Z * Event)) (s : QueueState) (log : list Z)
  : QueueState * list Z :=
  match evs with
  | [] => (s, log)
  | (now, ev) :: evs' =>
      let (s', a) := step now ev s in
      runEvents evs' s' (log ++ admissionAt now a)
  end.

(** *** Vocabulary of the properties *)

(** What the window of a queue holds after events up to time [last]: the
    admissions of the last 60 seconds, and never more than the ceiling in
    any 60 seconds. *)
Definition windowInv (last : Z) (s : QueueState) (log : list Z) : Prop :=
  (forall now, last <= now -> purge now (requestTimestamps s) = purge now log)
  /\ (forall t, Z.of_nat (windowCount t log) <= maxRequestsPerMinute options).

(** Calls that remain possible from attempt number [attempt] on. *)
Definition callsLeft (attempt : Z) : nat :=
  S (Z.to_nat (retryCount options + 1 - attempt)).

(** The request that an action has started. *)
Definition inflight (a : Action) : list Pending :=
  match a with
  | Granted p => [p]
  | _ => []
  end.

(** The timestamp that an action has pushed. *)
Definition pendingStamp (now : Z) (a : Action) : list Z :=
  match a with
  | Granted _ => [now]
  | _ => []
  end.

(** Steps that the chain of [processQueue] calls still takes. *)
Definition stepsLeft (s : QueueState) (a : Action) : nat :=
  match a with
  | Idle => 0
  | Deferred _ => 2 * length (queue s)
  | Granted _ => 2 * length (queue s) + 1
  end.

(** Every admission of the log comes after the settlement of the one
    before it; the first one is not before [from]. *)
Fixpoint sequential (from : Z) (log : list Admission) : Prop :=
  match log with
  | [] => True
  | a :: log' =>
      from <= admittedAt a /\ 0 <= elapsed (run a)
      /\ sequential (settledAt a) log'
  end.

(** When the window was purged last, for a queue whose [processQueue]
    has just ended with action [a] at time [now]: just now, unless the
    queue was found empty, which leaves the window as it was at the last
    admission. *)
Definition purgedFor (a : Action) (now : Z) (hist : list Z) (purgedAt : Z)
  : Prop :=
  match a with
  | Idle => last hist purgedAt = purgedAt
  | Deferred _ => purgedAt = now
  | Granted _ => purgedAt = now /\ last hist purgedAt = purgedAt
  end.

(** The window at time [now], against the admission timestamps [hist]
    pushed so far: it holds no more than the ceiling, and it is [hist] as
    purged at [purgedAt], not before the last admission. *)
Definition windowOf (now : Z) (s : QueueState) (a : Action) (hist : list Z)
  : Prop :=
  Z.of_nat (length (requestTimestamps s)) <= maxRequestsPerMinute options
  /\ exists purgedAt,
       purgedAt <= now
       /\ Forall (fun t => t <= purgedAt) hist
       /\ requestTimestamps s = purge purgedAt hist
       /\ purgedFor a now hist purgedAt.

(** The run of an admitted request is that of [executeWithRetry]. *)
Definition ranToSettlement (a : Admission) : Prop :=
  exists fuel,
    executeWithRetry fuel (requestFn (request a)) 0 1 = Some (run a).

(** A deferral is for the oldest timestamp of a full window. *)
Definition deferredFor (now : Z) (s : QueueState) (a : Action) : Prop :=
  match a with
  | Deferred waitTime =>
      exists oldest others,
        requestTimestamps s = oldest :: others
        /\ waitTime = Some (60000 - (now - oldest))
        /\ now - 60000 < oldest
        /\ queue s <> []
  | _ => True
  end.

(** Fuel that lets a burst of the given requests drain. *)
Definition burstFuel (fns : list RequestFn) : nat :=
  2 * length fns + 1 + callsLeft 1.

End Queue.

(** Admission decoupled from completion: with callbacks that run on time
    and a ceiling that the burst does not reach, every admission is
    scheduled as soon as the one before is made, so that all of them
    carry the time of the burst. *)
Definition admissionDecoupled {T : Type} (options : Options) : Prop :=
  forall (fns : list (@RequestFn T)) fuel now s log,
    Z.of_nat (length fns) <= maxRequestsPerMinute options ->
    burst options (fun _ => 0%nat) fuel now fns = Some (s, log) ->
    forall a, In a log -> admittedAt a = now.

End RateLimiter.

(** ** The batch runners *)

Module BatchRunner.

Section Runner.

(** The result type [T] of a task is any type of the caller; [null] is a
    value whatever [T] is, so a task fulfils with an [option T], [None]
    standing for [null]. *)
Context {T : Type}.

(** A task is called once: it returns a promise that settles [latency]
    milliseconds after the call, or never, or it throws before it has
    returned a promise.  The same type stands for the promises that
    [Promise.all] waits for, where [Throws] is a promise that is already
    rejected when it is created. *)
Inductive Task : Type :=
| Settles (latency : nat) (o : Outcome (option T))
| Never
| Throws (e : Thrown).

(** When a task fails, if it does, and with what.  Instants are counted
    so that what happens in the call comes before what happens later in
    the same millisecond: 0 is the call itself, [S at_] is [at_]
    milliseconds after it. *)
Definition rejection (t : Task) : option (nat * Thrown) :=
  match t with
  | Settles at_ (Rejected e) => Some (S at_, e)
  | Throws e => Some (0%nat, e)
  | _ => None
  end.

(** [tasks.slice(start, end)] *)
Definition sliceIndex (n k : Z) : Z :=
  if k <? 0 then Z.max (n + k) 0 else Z.min k n.

Definition slice {A : Type} (l : list A) (start end_ : Z) : list A :=
  let n := Z.of_nat (length l) in
  let from := sliceIndex n start in
  let to := sliceIndex n end_ in
  firstn (Z.to_nat (to - from)) (skipn (Z.to_nat from) l).

(** The callback given to [batch.map]:
    [async (task) => { try { return await task() } catch (error) { if
    (abortOnError) throw error; errors.push(...); return null } }].  It
    gives the promise that [Promise.all] waits for, and what it pushes
    on [errors], and at which instant.  When [task()] throws, the [catch]
    block runs in the call of the callback. *)
Definition guarded (abortOnError : bool) (task : Task)
  : Task * list (nat * Thrown) :=
  match task with
  | Settles at_ (Rejected error) =>
      if abortOnError then (task, [])
      else (Settles at_ (Resolved None), [(S at_, asError error)])
  | Throws error =>
      if abortOnError then (task, [])
      else (Settles 0 (Resolved None), [(0%nat, asError error)])
  | _ => (task, [])
  end.

(** [Promise.all]: rejected as soon as one promise is, with its reason;
    fulfilled with all the values, in the order of the promises, once all
    are fulfilled.  Of two rejections of the same instant the one of the
    promise created first comes first. *)
Fixpoint firstRejection (ps : list Task) : option (nat * Thrown) :=
  match ps with
  | [] => None
  | p :: ps' =>
      match rejection p, firstRejection ps' with
      | Some (at_, e), Some (at', e') =>
          if (at_ <=? at')%nat then Some (at_, e) else Some (at', e')
      | Some r, None => Some r
      | None, later => later
      end
  end.

Fixpoint allFulfilled (ps : list Task) : option (list (option T)) :=
  match ps with
  | [] => Some []
  | Settles _ (Resolved v) :: ps' =>
      match allFulfilled ps' with
      | Some vs => Some (v :: vs)
      | None => None
      end
  | _ :: _ => None
  end.

Inductive Awaited : Type :=
| Fulfilled (values : list (option T))
| Thrown_ (error : Thrown)
| Waiting.                      (* the await never returns *)

Definition promiseAll (ps : list Task) : Awaited :=
  match firstRejection ps with
  | Some (_, e) => Thrown_ e
  | None =>
      match allFulfilled ps with
      | Some vs => Fulfilled vs
      | None => Waiting
      end
  end.

(** The pushes on [errors] happen as the tasks fail: sorted by instant,
    and by position in the batch within one instant ([l] holds the
    pushes of the tasks after that of [p]). *)
Fixpoint insertPush (p : nat * Thrown) (l : list (nat * Thrown))
  : list (nat * Thrown) :=
  match l with
  | [] => [p]
  | q :: l' =>
      if (fst q <? fst p)%nat then q :: insertPush p l' else p :: q :: l'
  end.

Fixpoint pushOrder (l : list (nat * Thrown)) : list (nat * Thrown) :=
  match l with
  | [] => []
  | p :: l' => insertPush p (pushOrder l')
  end.

(** [batchResults.filter((result) => result !== null) as T[]] *)
Fixpoint notNull (values : list (option T)) : list T :=
  match values with
  | [] => []
  | Some v :: values' => v :: notNull values'
  | None :: values' => notNull values'
  end.

(** How a call ends. *)
Inductive Completion : Type :=
| Returned (results : list T) (errors : list Thrown)
| Threw (error : Thrown)
| Hung.

(** One turn of the [for] loop: the [try] block around a batch. *)
Definition runBatch (abortOnError : bool) (batch : list Task)
  : Awaited * list Thrown :=
  let gs := map (guarded abortOnError) batch in
  (promiseAll (map fst gs), map snd (pushOrder (concat (map snd gs)))).

(** *** [executeParallel] ([src/services/firecrawl/utils.ts])

[errors] is local to the call: the model returns it next to [results]
for what the final log line says. *)
Fixpoint executeParallel_loop (fuel : nat) (tasks : list Task)
         (maxConcurrent : Z) (abortOnError : bool)
         (i : Z) (results : list T) (errors : list Thrown)
  : option Completion :=
  match fuel with
  | O => None
  | S fuel' =>
      if i <? Z.of_nat (length tasks) then
        let batch := slice tasks i (i + maxConcurrent) in
        let (awaited, pushed) := runBatch abortOnError batch in
        match awaited with
        | Fulfilled batchResults =>
            executeParallel_loop fuel' tasks maxConcurrent abortOnError
              (i + maxConcurrent) (results ++ notNull batchResults)
              (errors ++ pushed)
        | Thrown_ error =>
            if abortOnError then Some (Threw error)
            else executeParallel_loop fuel' tasks maxConcurrent abortOnError
                   (i + maxConcurrent) results (errors ++ pushed)
        | Waiting => Some Hung
        end
      else Some (Returned results errors)
  end.

Definition executeParallel (fuel : nat) (tasks : list Task)
           (maxConcurrent : option Z) (abortOnError : option bool)
  : option Completion :=
  let maxConcurrent := match maxConcurrent with Some m => m | None => 5 end in
  let abortOnError := match abortOnError with Some b => b | None => false end in
  executeParallel_loop fuel tasks maxConcurrent abortOnError 0 [] [].

(** *** Racing a task against a timer

[Promise.race([task(), timer])] settles as the first of the two does.
When both settle in the same millisecond the one created first wins:
[taskFirst] says whether the task was called before the timer was set.
When [task()] throws, so does the expression. *)
Definition race (taskFirst : bool) (timeoutMs : Z) (message : string)
           (task : Task) : Task :=
  let due := Z.to_nat (timerDelay timeoutMs) in
  let timedOut := Settles due (Rejected (PlainError message)) in
  match task with
  | Settles at_ o =>
      if (if taskFirst then (at_ <=? due)%nat else (at_ <? due)%nat)
      then task else timedOut
  | Never => timedOut
  | Throws _ => task
  end.

(** *** [executeParallelTasks] ([src/services/openai/utils.ts]) *)

Record ParallelOptions : Type := mkParallelOptions {
  maxConcurrent : option Z;
  abortOnError : option bool;
  timeoutMs : option Z
}.

(** How the host writes a number in a template literal: the digits of
    an integer that a double holds exactly, an exponent from 10^21 on.
    Nothing below depends on which string it is. *)
Variable numberToString : Z -> string.

(** [`Task timed out after ${timeoutMs}ms`] *)
Definition timedOutAfter (timeoutMs : Z) : string :=
  ("Task timed out after " ++ numberToString timeoutMs ++ "ms")%string.

(** The first task of a batch that throws when [batch.map] calls it. *)
Fixpoint firstThrown (calls : list Task) : option Thrown :=
  match calls with
  | [] => None
  | Throws e :: _ => Some e
  | _ :: calls' => firstThrown calls'
  end.

(** The [try] block of [executeParallelTasks].  [batch.map] calls the
    tasks one after the other, outside any promise: a task that throws
    ends the block there, before a handler is attached to the promises
    of the tasks called before it, and the tasks after it are not
    called. *)
Definition runBatchTasks (abortOnError : bool) (batchPromises : list Task)
  : Awaited * list Thrown :=
  match firstThrown batchPromises with
  | Some error => (Thrown_ error, [])
  | None => runBatch abortOnError batchPromises
  end.

Fixpoint executeParallelTasks_loop (fuel : nat) (tasks : list Task)
         (maxConcurrent : Z) (abortOnError : bool) (timeoutMs : Z)
         (i : Z) (results : list T) (errors : list Thrown)
  : option Completion :=
  match fuel with
  | O => None
  | S fuel' =>
      if i <? Z.of_nat (length tasks) then
        let batch := slice tasks i (i + maxConcurrent) in
        let batchPromises :=
          map (race true timeoutMs (timedOutAfter timeoutMs)) batch in
        let (awaited, pushed) := runBatchTasks abortOnError batchPromises in
        match awaited with
        | Fulfilled batchResults =>
            executeParallelTasks_loop fuel' tasks maxConcurrent abortOnError
              timeoutMs (i + maxConcurrent) (results ++ notNull batchResults)
              (errors ++ pushed)
        | Thrown_ error =>
            if abortOnError then Some (Threw error)
            else executeParallelTasks_loop fuel' tasks maxConcurrent
                   abortOnError timeoutMs (i + maxConcurrent) results
                   (errors ++ pushed)
        | Waiting => Some Hung
        end
      else Some (Returned results errors)
  end.

Definition executeParallelTasks (fuel : nat) (tasks : list Task)
           (options : ParallelOptions) : option Completion :=
  let maxConcurrent :=
    match maxConcurrent options with Some m => m | None => 3 end in
  let abortOnError :=
    match abortOnError options with Some b => b | None => false end in
  let timeoutMs :=
    match timeoutMs options with Some t => t | None => 60000 end in
  executeParallelTasks_loop fuel tasks maxConcurrent abortOnError timeoutMs
    0 [] [].

(** *** [executeParallel] of the Firecrawl client

[defaults] is the client's [defaultParallelOptions]; the timer is set
before the task is called. *)

(** An [async] function does not throw: what its body throws rejects
    the promise that it returns. *)
Definition asyncFunction (body : Task) : Task :=
  match body with
  | Throws e => Settles 0 (Rejected e)
  | _ => body
  end.

Record RequiredParallelOptions : Type := mkRequiredParallelOptions {
  defaultMaxConcurrent : Z;
  defaultAbortOnError : bool;
  defaultTimeoutMs : Z
}.

(** [x || d] on a number *)
Definition orElse (x : option Z) (d : Z) : Z :=
  match x with
  | Some v => if v =? 0 then d else v
  | None => d
  end.

Definition clientDefaults (config : option ParallelOptions)
  : RequiredParallelOptions :=
  {| defaultMaxConcurrent :=
       orElse (match config with Some c => maxConcurrent c | None => None end) 5;
     defaultAbortOnError :=
       match config with
       | Some c => match abortOnError c with Some b => b | None => false end
       | None => false
       end;
     defaultTimeoutMs :=
       orElse (match config with Some c => timeoutMs c | None => None end) 30000 |}.

Definition clientExecuteParallel (defaults : RequiredParallelOptions)
           (fuel : nat) (tasks : list Task) (options : option ParallelOptions)
  : option Completion :=
  let options :=
    match options with
    | Some o => o
    | None => {| maxConcurrent := None; abortOnError := None; timeoutMs := None |}
    end in
  let maxConcurrent :=
    match maxConcurrent options with
    | Some m => m
    | None => defaultMaxConcurrent defaults
    end in
  let abortOnError :=
    match abortOnError options with
    | Some b => b
    | None => defaultAbortOnError defaults
    end in
  let timeoutMs :=
    match timeoutMs options with
    | Some t => t
    | None => defaultTimeoutMs defaults
    end in
  let tasksWithTimeout :=
    map (fun task =>
           asyncFunction (race false timeoutMs "Task execution timed out" task))
        tasks in
  executeParallel fuel tasksWithTimeout (Some maxConcurrent) (Some abortOnError).


(** *** Vocabulary of the properties *)

(** What a task contributes to a run in partial mode, by its outcome. *)
Definition survivor (t : Task) : list T :=
  match t with
  | Settles _ (Resolved (Some v)) => [v]
  | _ => []
  end.

Definition failure (t : Task) : list Thrown :=
  match t with
  | Settles _ (Rejected e) => [asError e]
  | Throws e => [asError e]
  | _ => []
  end.

Definition nullResult (t : Task) : list unit :=
  match t with
  | Settles _ (Resolved None) => [tt]
  | _ => []
  end.

Definition settles (t : Task) : Prop :=
  match t with
  | Never => False
  | _ => True
  end.

Definition fulfils (t : Task) : Prop :=
  match t with
  | Settles _ (Resolved _) => True
  | _ => False
  end.

Definition rejects (t : Task) : Prop :=
  match t with
  | Settles _ (Rejected _) => True
  | Throws _ => True
  | _ => False
  end.

(** The value that [Promise.all] sees for a task in partial mode. *)
Definition valueOrNull (t : Task) : option T :=
  match t with
  | Settles _ (Resolved v) => v
  | _ => None
  end.

Definition rejectionAt (t : Task) : option nat :=
  option_map fst (rejection t).

(** [e] is the failure that happens first in a batch, at the instant
    [at_]: no failure of the batch is earlier, and none of a task called
    before is of the same instant. *)
Definition earliestRejection (batch : (list Task)) (at_ : nat) (e : Thrown) : Prop :=
  exists before failed after,
    batch = before ++ failed :: after
    /\ rejection failed = Some (at_, e)
    /\ Forall (fun t => forall at', rejectionAt t = Some at' -> (at_ < at')%nat)
              before
    /\ Forall (fun t => forall at', rejectionAt t = Some at' -> (at_ <= at')%nat)
              after.

(** [e] is the first failure of a run with batches of [m] tasks: the
    batches before its own are whole and fulfil, and it is the earliest
    rejection of its batch.  A batch starts when the one before has
    settled, so that no task fails before. *)
Definition firstFailure (m : Z) (tasks : (list Task)) (e : Thrown) : Prop :=
  exists done batch rest at_ k,
    tasks = done ++ batch ++ rest
    /\ length done = (k * Z.to_nat m)%nat
    /\ batch = firstn (Z.to_nat m) (batch ++ rest)
    /\ Forall fulfils done
    /\ earliestRejection batch at_ e.


End Runner.

(** The tasks as [executeParallelTasks] runs them: each raced against
    the timer of the call. *)
Definition racedTasks {T : Type} (numberToString : Z -> string)
           (timeout : option Z) (tasks : list (@Task T))
  : list (@Task T) :=
  let timeoutMs := match timeout with Some t => t | None => 60000 end in
  map (race true timeoutMs (timedOutAfter numberToString timeoutMs)) tasks.


(** A task that returns a promise. *)
Definition returnsPromise {T : Type} (t : @Task T) : Prop :=
  match t with
  | Throws _ => False
  | _ => True
  end.

End BatchRunner.

(** ** Sample inputs *)

Module Samples.
Import RateLimiter.

Definition sampleRequest : @RequestFn nat :=
  fun _ => {| latency := 40; outcome := Resolved 1%nat |}.

Definition sampleEvents : list (Z * @Event nat) :=
  [ (0, Enqueue {| pid := 0; requestFn := sampleRequest |});
    (0, Enqueue {| pid := 1; requestFn := sampleRequest |});
    (40, Wake);
    (45, Enqueue {| pid := 2; requestFn := sampleRequest |});
    (80, Wake);
    (60140, Wake) ].

(** A request that the upstream always rejects for its rate. *)
Definition alwaysRateLimited : @RequestFn nat :=
  fun _ => {| latency := 10;
              outcome := Rejected (FirecrawlError "Rate limit exceeded" 429) |}.

(** A request that fails once with a server error. *)
Definition serverError : @RequestFn nat :=
  fun _ => {| latency := 10;
              outcome := Rejected (FirecrawlError "Firecrawl server error" 503) |}.

(** A request that takes [ms] milliseconds and succeeds. *)
Definition succeedsAfter (ms : nat) : @RequestFn nat :=
  fun _ => {| latency := ms; outcome := Resolved 1%nat |}.

Definition noLag : nat -> nat := fun _ => 0%nat.

(** Tasks for the batch runners: a slow success, a failure, a fast
    success, a success with [null], and a task that never settles. *)
Definition slowSuccess : @BatchRunner.Task nat :=
  BatchRunner.Settles 5 (Resolved (Some 1%nat)).
Definition failing : @BatchRunner.Task nat :=
  BatchRunner.Settles 3 (Rejected (PlainError "b")).
Definition fastSuccess : @BatchRunner.Task nat :=
  BatchRunner.Settles 1 (Resolved (Some 3%nat)).
Definition nullSuccess : @BatchRunner.Task nat :=
  BatchRunner.Settles 2 (Resolved None).
Definition hanging : @BatchRunner.Task nat := BatchRunner.Never.
Definition throwing : @BatchRunner.Task nat :=
  BatchRunner.Throws (PlainError "t").

(** The number of a template literal, for the integers of the samples:
    their decimal digits. *)
Definition decimal (n : Z) : string := NilZero.string_of_int (Z.to_int n).

Definition settlingTasks : list (@BatchRunner.Task nat) :=
  [slowSuccess; failing; fastSuccess; nullSuccess].

End Samples.

(** ** More of the request queue *)

Module RequestQueueMore.
Import RateLimiter.

Section More.

Context {T : Type}.
Variable options : Options.

(** [error instanceof FirecrawlError && error.statusCode === 429] on the
    outcome of a call. *)
Definition rateLimited (o : Outcome T) : bool :=
  match o with
  | Rejected e => isRateLimit e
  | Resolved _ => false
  end.

(** The latencies of the calls number [calls] to [calls + k]. *)
Fixpoint latencies (fn : @RequestFn T) (calls k : nat) : Z :=
  match k with
  | O => Z.of_nat (latency (fn calls))
  | S k' => Z.of_nat (latency (fn calls)) + latencies fn (S calls) k'
  end.

(** The delays that [executeWithRetry] waits before the [k] attempts
    that follow attempt number [attempt]. *)
Fixpoint backoff (attempt : Z) (k : nat) : Z :=
  match k with
  | O => 0
  | S k' => timerDelay (retryDelayMs options * attempt) + backoff (attempt + 1) k'
  end.

(** The requests that the events of a run submit, in order. *)
Fixpoint enqueuedBy (evs : list (Z * @Event T)) : list (@Pending T) :=
  match evs with
  | [] => []
  | (_, Enqueue p) :: evs' => p :: enqueuedBy evs'
  | (_, Wake) :: evs' => enqueuedBy evs'
  end.

Definition grantedBy (a : option (@Action T)) : list (@Pending T) :=
  match a with
  | Some (Granted p) => [p]
  | _ => []
  end.

(** The requests started by a run of events, in the order in which they
    are started: [runEvents] with the requests logged instead of the
    timestamps. *)
Fixpoint runEventsRequests (evs : list (Z * @Event T)) (s : @QueueState T)
         (started : list (@Pending T)) : @QueueState T * list (@Pending T) :=
  match evs with
  | [] => (s, started)
  | (now, ev) :: evs' =>
      let (s', a) := step options now ev s in
      runEventsRequests evs' s' (started ++ grantedBy a)
  end.

(** The time spent by the first [n] requests of a log, retries and
    delays included. *)
Fixpoint elapsedTotal (log : list (@Admission T)) (n : nat) : Z :=
  match n, log with
  | S n', a :: log' => elapsed (run a) + elapsedTotal log' n'
  | _, _ => 0
  end.

End More.

End RequestQueueMore.

(** ** Waiting times in a burst *)

Module RequestQueueWaits.
Import RateLimiter.

Section Waits.

Context {T : Type}.

(** Every admission of the log comes at most [bound] milliseconds after
    the settlement of the one before it; the first one at most [bound]
    after [from]. *)
Fixpoint promptly (bound from : Z) (log : list (@Admission T)) : Prop :=
  match log with
  | [] => True
  | a :: log' =>
      admittedAt a <= from + bound /\ promptly bound (settledAt a) log'
  end.

End Waits.

End RequestQueueWaits.

(** ** More of the batch runners *)

Module BatchRunnerMore.
Import BatchRunner.

Section More.

Context {T : Type}.

(** A task that has settled [timeout] milliseconds after its call. *)
Definition settlesWithin (timeout : Z) (t : @Task T) : Prop :=
  match t with
  | Settles at_ _ => Z.of_nat at_ <= timeout
  | _ => False
  end.

(** A task that settles less than [timeout] milliseconds after its call. *)
Definition settlesBefore (timeout : Z) (t : @Task T) : Prop :=
  match t with
  | Settles at_ _ => Z.of_nat at_ < timeout
  | _ => False
  end.

(** A task that takes more than [ms] milliseconds, or for ever. *)
Definition takesOver (ms : nat) (t : @Task T) : Prop :=
  match t with
  | Settles at_ _ => (ms < at_)%nat
  | Never => True
  | Throws _ => False
  end.

(** The default concurrency that a configuration asks for is not
    negative. *)
Definition concurrencyNotNegative (config : option ParallelOptions) : Prop :=
  match config with
  | Some c =>
      match maxConcurrent c with
      | Some v => 0 <= v
      | None => True
      end
  | None => True
  end.

End More.

End BatchRunnerMore.

(** ** Requests of the Firecrawl client ([src/services/firecrawl/types.ts]) *)

Module FirecrawlRequests.
Import RateLimiter.

(** [error.message]: the constructor of [ApiError] puts the name of the
    service before the message it is given. *)
Definition messageOf (e : Thrown) : string :=
  match e with
  | FirecrawlError message _ => ("Firecrawl API Error: " ++ message)%string
  | OpenAIError message _ => ("OpenAI API Error: " ++ message)%string
  | PlainError message => message
  | NonError _ => EmptyString
  end.

(** [handleApiError] of [src/utils/errors.ts]: it always throws, and the
    model returns what it throws.  An [ApiError] of another service, or
    for a value that is not an [Error], is neither a [FirecrawlError] nor
    an [OpenAIError]: an [Error] of another class, with its message. *)
Definition handleApiError (error : Thrown) (serviceName : string) : Thrown :=
  if instanceofError error then
    if (serviceName =? "Firecrawl")%string
    then FirecrawlError (messageOf error) 500
    else if (serviceName =? "OpenAI")%string
    then OpenAIError (messageOf error) 500
    else PlainError (serviceName ++ " API Error: " ++ messageOf error)%string
  else PlainError (serviceName ++ " API Error: Unknown error occurred")%string.

(** [error instanceof FirecrawlError] *)
Definition isFirecrawlError (e : Thrown) : bool :=
  match e with
  | FirecrawlError _ _ => true
  | _ => false
  end.

Section Requests.

Context {T : Type}.

(** What the code reads of the [Response] of [fetch]. *)
Record Response : Type := mkResponse {
  ok : bool;
  status : Z;
  text : Outcome string;      (* await response.text() *)
  json : Outcome T            (* await response.json() *)
}.

Inductive Fetched : Type :=
| FetchRejected (error : Thrown)
| FetchResolved (response : Response).

(** The [throw] statements of the [if (!response.ok)] block. *)
Definition statusError (statusCode : Z) (errorText : string) : Thrown :=
  if statusCode =? 429 then FirecrawlError "Rate limit exceeded" statusCode
  else if statusCode =? 401 then FirecrawlError "Invalid API key" statusCode
  else if 500 <=? statusCode
  then FirecrawlError "Firecrawl server error" statusCode
  else FirecrawlError
         ("Request failed with status "
            ++ NilZero.string_of_int (Z.to_int statusCode)
            ++ ": " ++ errorText)%string
         statusCode.

(** The [catch] block. *)
Definition caught (error : Thrown) : Thrown :=
  if isFirecrawlError error then error else handleApiError error "Firecrawl".

(** The function that [makeRequest] hands to the rate limiter, on what
    its [fetch] gave. *)
Definition makeRequest_attempt (f : Fetched) : Outcome T :=
  match f with
  | FetchRejected error => Rejected (caught error)
  | FetchResolved response =>
      if negb (ok response) then
        match text response with
        | Resolved errorText =>
            Rejected (caught (statusError (status response) errorText))
        | Rejected error => Rejected (caught error)
        end
      else
        match json response with
        | Resolved v => Resolved v
        | Rejected error => Rejected (caught error)
        end
  end.

(** The network as the client meets it: how long the [fetch] number
    [k] of a request takes, body included, and what it gives. *)
Definition Network : Type := nat -> nat * Fetched.

Definition makeRequest_fn (network : Network) : @RequestFn T :=
  fun k => {| latency := fst (network k);
              outcome := makeRequest_attempt (snd (network k)) |}.

(** *** Vocabulary of the properties *)

(** The server answered with status 429, and the body could be read. *)
Definition answers429 (f : Fetched) : bool :=
  match f with
  | FetchResolved response =>
      negb (ok response) && (status response =? 429)
      && match text response with Resolved _ => true | Rejected _ => false end
  | FetchRejected _ => false
  end.

(** What [fetch], [response.text()] or [response.json()] threw. *)
Definition thrownByHost (f : Fetched) : list Thrown :=
  match f with
  | FetchRejected error => [error]
  | FetchResolved response =>
      if negb (ok response) then
        match text response with Rejected error => [error] | Resolved _ => [] end
      else
        match json response with Rejected error => [error] | Resolved _ => [] end
  end.

(** The host throws [Error]s of its own classes. *)
Definition hostErrors (f : Fetched) : Prop :=
  Forall (fun e => instanceofError e = true /\ isFirecrawlError e = false)
         (thrownByHost f).

(** The status that the failure of an attempt carries: that of the
    answer when the server gave one that is not [ok] and its body could
    be read, 500 otherwise. *)
Definition failureStatus (f : Fetched) : Z :=
  match f with
  | FetchResolved response =>
      if negb (ok response) then
        match text response with
        | Resolved _ => status response
        | Rejected _ => 500
        end
      else 500
  | FetchRejected _ => 500
  end.

End Requests.

End FirecrawlRequests.

(** ** Stream chunks ([src/services/openai/utils.ts]) *)

Module StreamChunks.

(** [StreamChunk]: the optional fields are [None] when [undefined]. *)
Record StreamChunk : Type := mkStreamChunk {
  content : option string;
  functionName : option string;
  functionArguments : option string;
  isComplete : bool
}.

(** A string in a condition: [undefined] and the empty string are
    falsy. *)
Definition truthy (s : option string) : bool :=
  match s with
  | Some EmptyString => false
  | Some _ => true
  | None => false
  end.

(** [s += piece], for a [piece] that the guard found truthy. *)
Definition plus (s : string) (piece : option string) : string :=
  match piece with
  | Some p => (s ++ p)%string
  | None => s
  end.

(** The object that [combineStreamChunks] returns, and the three
    variables of its loop. *)
Record Combined : Type := mkCombined {
  combinedContent : string;
  combinedFunctionName : option string;
  combinedFunctionArguments : string
}.

(** The body of the [for] loop. *)
Definition combineChunk (acc : Combined) (chunk : StreamChunk) : Combined :=
  {| combinedContent :=
       if truthy (content chunk)
       then plus (combinedContent acc) (content chunk)
       else combinedContent acc;
     combinedFunctionName :=
       if truthy (functionName chunk) && negb (truthy (combinedFunctionName acc))
       then functionName chunk
       else combinedFunctionName acc;
     combinedFunctionArguments :=
       if truthy (functionArguments chunk)
       then plus (combinedFunctionArguments acc) (functionArguments chunk)
       else combinedFunctionArguments acc |}.

Definition combineStreamChunks (chunks : list StreamChunk) : Combined :=
  fold_left combineChunk chunks
    {| combinedContent := EmptyString;
       combinedFunctionName := None;
       combinedFunctionArguments := EmptyString |}.

(** The check that [structuredAnalysisStream] of
    [src/services/openai/client.ts] makes on the combined chunks before
    it parses the arguments: the name and the text of the arguments of
    the call, or the error thrown. *)
Definition completeCall (chunks : list StreamChunk)
  : Outcome (string * string) :=
  let combined := combineStreamChunks chunks in
  match combinedFunctionName combined with
  | Some name =>
      if negb (truthy (Some name))
         || negb (truthy (Some (combinedFunctionArguments combined)))
      then Rejected
             (OpenAIError "No complete function call was found in the stream" 500)
      else Resolved (name, combinedFunctionArguments combined)
  | None =>
      Rejected
        (OpenAIError "No complete function call was found in the stream" 500)
  end.

(** *** Vocabulary of the properties *)

(** The text of an optional string. *)
Definition textOf (s : option string) : string :=
  match s with
  | Some t => t
  | None => EmptyString
  end.

(** The pieces in their order, one after the other. *)
Definition joined (pieces : list (option string)) : string :=
  String.concat EmptyString (map textOf pieces).

(** The first name of the chunks that is not empty. *)
Definition firstName (chunks : list StreamChunk) : option string :=
  match find truthy (map functionName chunks) with
  | Some name => name
  | None => None
  end.

End StreamChunks.

(** ** The most cited domains ([src/services/firecrawl/extraction.ts]) *)

Module TopDomains.
Import BatchRunner.

(** [Array.prototype.sort(compareFn)]: the sort is stable, so that for a
    consistent [compareFn] the result is that of inserting the elements
    one by one, each before the first element that does not have to come
    before it. *)
Fixpoint insertSorted {A : Type} (compareFn : A -> A -> Z) (x : A)
         (sorted : list A) : list A :=
  match sorted with
  | [] => [x]
  | y :: sorted' =>
      if compareFn x y <=? 0 then x :: y :: sorted'
      else y :: insertSorted compareFn x sorted'
  end.

Fixpoint sort {A : Type} (compareFn : A -> A -> Z) (l : list A) : list A :=
  match l with
  | [] => []
  | x :: l' => insertSorted compareFn x (sort compareFn l')
  end.

(** A [Map<string, number>]: its entries, in the order in which the
    keys were first set. *)
Definition DomainCounts : Type := list (string * Z).

Fixpoint get (m : DomainCounts) (key : string) : option Z :=
  match m with
  | [] => None
  | (k, v) :: m' => if (k =? key)%string then Some v else get m' key
  end.

Fixpoint set (m : DomainCounts) (key : string) (value : Z) : DomainCounts :=
  match m with
  | [] => [(key, value)]
  | (k, v) :: m' =>
      if (k =? key)%string then (key, value) :: m'
      else (k, v) :: set m' key value
  end.

(** [x || 0] *)
Definition orZero (x : option Z) : Z :=
  match x with
  | Some v => if v =? 0 then 0 else v
  | None => 0
  end.

(** What [extractTopDomains] reads of a [ResearchSource]. *)
Record ResearchSource : Type := mkResearchSource {
  url : string
}.

Section Domains.

(** [extractDomain] parses the URL with the [URL] class of the host, or
    with a regular expression when that fails; the counting only uses
    the string that it returns. *)
Variable extractDomain : string -> string.

(** The body of the first loop. *)
Definition countSource (domainCounts : DomainCounts) (source : ResearchSource)
  : DomainCounts :=
  let domain := extractDomain (url source) in
  match domain with
  | EmptyString => domainCounts
  | _ => set domainCounts domain (orZero (get domainCounts domain) + 1)
  end.

Definition countDomains (sources : list ResearchSource) : DomainCounts :=
  fold_left countSource sources [].

Definition extractTopDomains (sources : list ResearchSource) : list string :=
  map fst
      (slice (sort (fun a b => snd b - snd a) (countDomains sources)) 0 5).

(** *** Vocabulary of the properties *)

(** How many of the sources are of the domain. *)
Definition occurrences (sources : list ResearchSource) (domain : string) : nat :=
  count_occ string_dec (map (fun s => extractDomain (url s)) sources) domain.

End Domains.

End TopDomains.

(** ** Queued requests as tasks of the batch runner *)

Module QueuedTasks.
Import RateLimiter BatchRunner.

Section Queued.

(** The requests fulfil with a value of the caller's type or [null]. *)
Context {T : Type}.

(** The promise that [enqueue] returned at time [now] for the request
    of an admission: the closure that [enqueue] puts on the queue
    resolves or rejects it with the result of [executeWithRetry], when
    that settles. *)
Definition enqueuePromise (now : Z) (a : @Admission (option T)) : @Task T :=
  Settles (Z.to_nat (settledAt a - now)) (result (run a)).

End Queued.

End QueuedTasks.

(** ** When the batch runner calls its tasks *)

Module BatchSchedule.
Import BatchRunner.

Section Schedule.

Context {T : Type}.

(** When a [Promise.all] that fulfils does so: with the last of its
    promises, counted in milliseconds from their creation. *)
Fixpoint lastSettled (ps : list (@Task T)) : nat :=
  match ps with
  | [] => 0
  | Settles at_ _ :: ps' => Nat.max at_ (lastSettled ps')
  | _ :: ps' => lastSettled ps'
  end.

(** [executeParallel] with a clock: the calls of the tasks that the
    loop makes, each with its time in milliseconds from the call of
    [executeParallel].  The tasks of a batch are called when the batch
    is mapped; the next turn of the loop starts when the [await] of the
    batch returns, or throws in partial mode. *)
Fixpoint executeParallel_calls (fuel : nat) (tasks : list (@Task T))
         (maxConcurrent : Z) (abortOnError : bool) (i : Z) (clock : nat)
  : option (list (nat * @Task T)) :=
  match fuel with
  | O => None
  | S fuel' =>
      if i <? Z.of_nat (length tasks) then
        let batch := slice tasks i (i + maxConcurrent) in
        let promises := map fst (map (guarded abortOnError) batch) in
        let calls := map (pair clock) batch in
        match promiseAll promises with
        | Fulfilled _ =>
            option_map (app calls)
              (executeParallel_calls fuel' tasks maxConcurrent abortOnError
                 (i + maxConcurrent) (clock + lastSettled promises))
        | Thrown_ _ =>
            if abortOnError then Some calls
            else
              let thrownAfter :=
                match firstRejection promises with
                | Some (instant, _) => Nat.pred instant
                | None => 0%nat
                end in
              option_map (app calls)
                (executeParallel_calls fuel' tasks maxConcurrent abortOnError
                   (i + maxConcurrent) (clock + thrownAfter))
        | Waiting => Some calls
        end
      else Some []
  end.

(** *** Vocabulary of the properties *)

(** A task called at [called] is running at time [t]: it was called and
    has not settled.  A task that throws when called never runs. *)
Definition inFlight (t : nat) (call : nat * @Task T) : bool :=
  (fst call <=? t)%nat
  && match snd call with
     | Settles at_ _ => (t <? fst call + at_)%nat
     | Never => true
     | Throws _ => false
     end.

End Schedule.

End BatchSchedule.

(** * Properties *)

(** ** Timers and thrown values *)

Module TimerFacts.

Lemma timerDelay_pos ms : 1 <= timerDelay ms.
Proof.
  unfold timerDelay.
  destruct (ms <? 1) eqn:E; simpl; [lia|].
  destruct (TIMEOUT_MAX <? ms); [lia|].
  apply Z.ltb_ge in E; lia.
Qed.

Lemma timerDelay_id ms : 1 <= ms <= TIMEOUT_MAX -> timerDelay ms = ms.
Proof.
  intros [H1 H2]. unfold timerDelay.
  destruct (ms <? 1) eqn:E; [apply Z.ltb_lt in E; lia|].
  destruct (TIMEOUT_MAX <? ms) eqn:E'; [apply Z.ltb_lt in E'; lia|].
  reflexivity.
Qed.

Lemma timerDelay_le ms : 1 <= ms -> timerDelay ms <= ms.
Proof.
  intros H. unfold timerDelay.
  destruct ((ms <? 1) || (TIMEOUT_MAX <? ms)); lia.
Qed.

Lemma asError_instance e : instanceofError e = true -> asError e = e.
Proof. destruct e; simpl; congruence. Qed.

End TimerFacts.
Import TimerFacts.

(** ** Filters *)

Module FilterFacts.

Section Filters.

Context {A : Type}.

Lemma filter_narrow (p q : A -> bool) (l : list A) :
  (forall x, p x = true -> q x = true) ->
  filter p (filter q l) = filter p l.
Proof.
  intros Hpq. induction l as [|x l IH]; simpl; [reflexivity|].
  destruct (q x) eqn:Eq; simpl.
  - destruct (p x); rewrite IH; reflexivity.
  - destruct (p x) eqn:Ep; [|exact IH].
    apply Hpq in Ep. congruence.
Qed.

Lemma filter_length_mono (p q : A -> bool) (l : list A) :
  (forall x, p x = true -> q x = true) ->
  (length (filter p l) <= length (filter q l))%nat.
Proof.
  intros Hpq. induction l as [|x l IH]; simpl; [lia|].
  destruct (p x) eqn:Ep.
  - rewrite (Hpq _ Ep). simpl. lia.
  - destruct (q x); simpl; lia.
Qed.

Lemma filter_length_le (p : A -> bool) (l : list A) :
  (length (filter p l) <= length l)%nat.
Proof.
  induction l as [|x l IH]; simpl; [lia|].
  destruct (p x); simpl; lia.
Qed.

End Filters.

End FilterFacts.
Import FilterFacts.

(** ** The ceiling of the rate window *)

Module CeilingFacts.
Import RateLimiter Samples.

Arguments purge : simpl never.

Section Ceiling.

Context {T : Type}.
Variable options : Options.

Abbreviation State := (@QueueState T).

Lemma purge_purge now now' (l : list Z) :
  now <= now' -> purge now' (purge now l) = purge now' l.
Proof.
  intros H. unfold purge. apply filter_narrow.
  intros x Hx. apply Z.ltb_lt in Hx. apply Z.ltb_lt. lia.
Qed.

Lemma purge_app now (l l' : list Z) :
  purge now (l ++ l') = purge now l ++ purge now l'.
Proof. unfold purge. apply filter_app. Qed.

Lemma purge_now now : purge now [now] = [now].
Proof.
  unfold purge. simpl.
  replace (now - 60000 <? now) with true; [reflexivity|].
  symmetry. apply Z.ltb_lt. lia.
Qed.

Lemma windowCount_app t (l l' : list Z) :
  windowCount t (l ++ l') = (windowCount t l + windowCount t l')%nat.
Proof. unfold windowCount. rewrite filter_app, length_app. reflexivity. Qed.

Lemma windowCount_purge t now (log : list Z) :
  inWindow t now = true ->
  (windowCount t log <= length (purge now log))%nat.
Proof.
  intros Hin. unfold windowCount, purge. apply filter_length_mono.
  intros x Hx. unfold inWindow in *.
  apply andb_true_iff in Hin as [H1 H2], Hx as [H3 H4].
  apply Z.ltb_lt in H1, H3. apply Z.leb_le in H2, H4.
  apply Z.ltb_lt. lia.
Qed.

Lemma processQueue_windowInv last now (s : State) (log : list Z) :
  last <= now ->
  windowInv options last s log ->
  windowInv options now (fst (processQueue options now s))
            (log ++ admissionAt now (Some (snd (processQueue options now s)))).
Proof.
  intros Hle [Hstore Hbound]. unfold processQueue, windowInv.
  destruct (queue s) as [|p rest] eqn:Eq; cbn.
  - rewrite app_nil_r. split; [|exact Hbound].
    intros now' Hn. apply Hstore. lia.
  - destruct (maxRequestsPerMinute options
                <=? Z.of_nat (length (purge now (requestTimestamps s)))) eqn:E;
      cbn.
    + rewrite app_nil_r. split; [|exact Hbound].
      intros now' Hn. rewrite purge_purge by exact Hn. apply Hstore. lia.
    + apply Z.leb_gt in E. split.
      * intros now' Hn. rewrite !purge_app, purge_purge by exact Hn.
        rewrite Hstore by lia. reflexivity.
      * intros t. rewrite windowCount_app.
        unfold windowCount at 2. cbn.
        destruct (inWindow t now) eqn:Hin; cbn.
        -- pose proof (windowCount_purge t now log Hin) as Hc.
           rewrite <- (Hstore now Hle) in Hc. lia.
        -- specialize (Hbound t). lia.
Qed.

Lemma step_windowInv last now ev (s : State) (log : list Z) :
  last <= now ->
  windowInv options last s log ->
  windowInv options now (fst (step options now ev s))
            (log ++ admissionAt now (snd (step options now ev s))).
Proof.
  intros Hle Hinv. destruct ev as [p|]; cbn.
  - unfold enqueue. cbn [processing].
    destruct (processing s) eqn:Ep.
    + cbn. rewrite app_nil_r. destruct Hinv as [Hstore Hbound].
      split; [|exact Hbound]. intros now' Hn. cbn. apply Hstore. lia.
    + pose proof (processQueue_windowInv last now
        {| queue := queue s ++ [p]; processing := false;
           requestTimestamps := requestTimestamps s |} log Hle) as H.
      destruct (processQueue options now _) as [s2 a] eqn:Epq.
      cbn in *. apply H.
      destruct Hinv as [Hstore Hbound]. split; [|exact Hbound].
      cbn. exact Hstore.
  - pose proof (processQueue_windowInv last now s log Hle Hinv) as H.
    destruct (processQueue options now s) as [s2 a]. exact H.
Qed.

Lemma runEvents_windowInv (evs : list (Z * Event)) :
  forall last (s : State) (log : list Z),
    clockFrom last (map fst evs) ->
    windowInv options last s log ->
    forall t, Z.of_nat (windowCount t (snd (runEvents options evs s log)))
              <= maxRequestsPerMinute options.
Proof.
  induction evs as [|[now ev] evs IH]; intros last s log Hclock Hinv t.
  - simpl. apply Hinv.
  - simpl in Hclock. destruct Hclock as [Hle Hclock]. simpl.
    pose proof (step_windowInv last now ev s log Hle Hinv) as Hstep.
    destruct (step options now ev s) as [s' a]. simpl in Hstep.
    exact (IH now s' _ Hclock Hstep t).
Qed.

(** The decision of [processQueue] on a queue that is not empty. *)
Lemma processQueue_decision now (s : State) p rest :
  queue s = p :: rest ->
  let kept := purge now (requestTimestamps s) in
  (Z.of_nat (length kept) < maxRequestsPerMinute options ->
   processQueue options now s =
     ({| queue := rest; processing := true;
         requestTimestamps := kept ++ [now] |}, Granted p))
  /\ (maxRequestsPerMinute options <= Z.of_nat (length kept) ->
      exists waitTime,
        processQueue options now s =
          ({| queue := p :: rest; processing := true;
              requestTimestamps := kept |}, Deferred waitTime)).
Proof.
  intros Hq kept. unfold processQueue. rewrite Hq. fold kept. split; intros H.
  - apply Z.leb_gt in H. rewrite H. reflexivity.
  - apply Z.leb_le in H. rewrite H. eexists. reflexivity.
Qed.

End Ceiling.

(** C1. On a queue built with a ceiling of R > 0 requests per minute,
    whatever the calls of [enqueue] and the runs of [processQueue] are
    and whenever they happen (the clock not going back), no 60 seconds
    ending at any instant [t] hold more than R admission timestamps; and
    [processQueue] admits the head of the queue exactly when, once the
    timestamps older than 60 seconds are purged, fewer than R remain,
    and otherwise defers, leaving the queue as it is. *)
Theorem rate_ceiling {T : Type} (R : Z) (retry delay : option Z)
        (t0 : Z) (evs : list (Z * @Event T)) :
  0 < R ->
  clockFrom t0 (map fst evs) ->
  let options :=
    RequestQueue_options (mkRateLimitOptions (Some R) retry delay) in
  (forall t,
      Z.of_nat (windowCount t (snd (runEvents options evs emptyQueue []))) <= R)
  /\ (forall now (s : @QueueState T) p rest,
         queue s = p :: rest ->
         let kept := purge now (requestTimestamps s) in
         (Z.of_nat (length kept) < R ->
          processQueue options now s =
            ({| queue := rest; processing := true;
                requestTimestamps := kept ++ [now] |}, Granted p))
         /\ (R <= Z.of_nat (length kept) ->
             exists waitTime,
               processQueue options now s =
                 ({| queue := p :: rest; processing := true;
                     requestTimestamps := kept |}, Deferred waitTime))).
Proof.
  intros HR Hclock options.
  assert (Hmax : maxRequestsPerMinute options = R).
  { unfold options, RequestQueue_options, orDefault. simpl.
    destruct (R =? 0) eqn:E; [apply Z.eqb_eq in E; lia|reflexivity]. }
  split.
  - intros t. rewrite <- Hmax.
    apply (runEvents_windowInv options evs t0 emptyQueue [] Hclock).
    split.
    + intros now _. reflexivity.
    + intros t'. rewrite Hmax. unfold windowCount. simpl. lia.
  - intros now s p rest Hq. rewrite <- Hmax.
    exact (processQueue_decision options now s p rest Hq).
Qed.

Lemma rate_ceiling_witness :
  Z.of_nat (windowCount 60040
    (snd (runEvents
            (RequestQueue_options (mkRateLimitOptions (Some 2) None None))
            sampleEvents emptyQueue []))) <= 2.
Proof.
  assert (H0 : 0 < 2) by lia.
  assert (H1 : clockFrom 0 (map fst sampleEvents)) by (simpl; lia).
  exact (proj1 (rate_ceiling 2 None None 0 sampleEvents H0 H1) 60040).
Defined.

End CeilingFacts.

(** ** Retries *)

Module RetryFacts.
Import RateLimiter Samples.

Section Retry.

Context {T : Type}.
Variable options : Options.

Abbreviation Fn := (@RequestFn T).

Lemma executeWithRetry_total (fuel : nat) :
  forall (fn : Fn) calls attempt,
    (callsLeft options attempt <= fuel)%nat ->
    exists r, executeWithRetry options fuel fn calls attempt = Some r
              /\ 0 <= elapsed r /\ (1 <= invocations r)%nat.
Proof.
  unfold callsLeft.
  induction fuel as [|fuel IH]; intros fn calls attempt Hfuel; [lia|].
  simpl. destruct (outcome (fn calls)) as [v|error].
  - eexists. split; [reflexivity|]. simpl. lia.
  - destruct (negb (isRateLimit error) || (retryCount options <? attempt)) eqn:E.
    + eexists. split; [reflexivity|]. simpl. lia.
    + apply orb_false_iff in E as [_ E]. apply Z.ltb_ge in E.
      destruct (IH fn (S calls) (attempt + 1)) as (r & Hr & Hel & Hinv); [lia|].
      rewrite Hr. eexists. split; [reflexivity|]. simpl.
      pose proof (timerDelay_pos (retryDelayMs options * attempt)). lia.
Qed.

(** A request rejected for its rate at every call is called until the
    attempt number exceeds [retryCount]; the rejection of the last call
    is the result. *)
Lemma executeWithRetry_rate_limited (fuel : nat) :
  forall (fn : Fn) calls attempt,
    (forall k, exists e, outcome (fn k) = Rejected e /\ isRateLimit e = true) ->
    attempt <= retryCount options + 1 ->
    (callsLeft options attempt <= fuel)%nat ->
    exists r, executeWithRetry options fuel fn calls attempt = Some r
              /\ invocations r = callsLeft options attempt
              /\ result r = outcome (fn (calls + Z.to_nat (retryCount options + 1 - attempt))%nat).
Proof.
  unfold callsLeft.
  induction fuel as [|fuel IH]; intros fn calls attempt Hfn Hatt Hfuel; [lia|].
  simpl. destruct (Hfn calls) as (e & He & Hrl). rewrite He, Hrl. simpl.
  destruct (retryCount options <? attempt) eqn:E.
  - apply Z.ltb_lt in E. eexists. split; [reflexivity|]. simpl.
    replace (retryCount options + 1 - attempt) with 0 by lia. simpl.
    rewrite Nat.add_0_r. auto.
  - apply Z.ltb_ge in E.
    destruct (IH fn (S calls) (attempt + 1) Hfn) as (r & Hr & Hinv & Hres);
      [lia|lia|].
    rewrite Hr. eexists. split; [reflexivity|]. simpl. rewrite Hinv, Hres.
    replace (retryCount options + 1 - attempt)
      with (Z.succ (retryCount options + 1 - (attempt + 1))) by lia.
    rewrite Z2Nat.inj_succ by lia. split; [reflexivity|].
    f_equal. f_equal. lia.
Qed.

(** Any other rejection ends the call at once. *)
Lemma executeWithRetry_other_error (fuel : nat) (fn : Fn) calls attempt e :
  outcome (fn calls) = Rejected e ->
  isRateLimit e = false ->
  executeWithRetry options (S fuel) fn calls attempt =
    Some {| result := Rejected e; invocations := 1;
            elapsed := Z.of_nat (latency (fn calls)) |}.
Proof. intros He Hrl. simpl. rewrite He, Hrl. reflexivity. Qed.

End Retry.

(** With a configured [retryCount] of at least 1 the constructor keeps
    it, and a request always rejected for its rate is called
    [retryCount + 1] times. *)
Lemma positive_retryCount_attempts {T : Type} (n : Z) (m d : option Z)
      (fn : @RequestFn T) (fuel : nat) :
  1 <= n ->
  (forall k, exists e, outcome (fn k) = Rejected e /\ isRateLimit e = true) ->
  (Z.to_nat n + 1 <= fuel)%nat ->
  exists r,
    executeWithRetry (RequestQueue_options (mkRateLimitOptions m (Some n) d))
                     fuel fn 0 1 = Some r
    /\ invocations r = (Z.to_nat n + 1)%nat.
Proof.
  intros Hn Hfn Hfuel.
  set (options := RequestQueue_options (mkRateLimitOptions m (Some n) d)).
  assert (Hrc : retryCount options = n).
  { unfold options, RequestQueue_options, orDefault. simpl.
    destruct (n =? 0) eqn:E; [apply Z.eqb_eq in E; lia|reflexivity]. }
  destruct (executeWithRetry_rate_limited options fuel fn 0 1 Hfn)
    as (r & Hr & Hinv & _).
  - lia.
  - unfold callsLeft. rewrite Hrc. replace (n + 1 - 1) with n by lia. lia.
  - exists r. split; [exact Hr|]. rewrite Hinv. unfold callsLeft.
    rewrite Hrc. replace (n + 1 - 1) with n by lia. lia.
Qed.

(** C3. A queue configured with [retryCount: 0]: the constructor's
    [options.retryCount || 3] replaces the 0 by 3, so that a request
    rejected with status 429 at every call is called four times, not
    once, before its rejection reaches the caller. *)
Theorem retryCount_zero_retries_three_times (fuel : nat) :
  let options := RequestQueue_options (mkRateLimitOptions None (Some 0) None) in
  retryCount options = 3
  /\ executeWithRetry options (4 + fuel) alwaysRateLimited 0 1 =
       Some {| result := Rejected (FirecrawlError "Rate limit exceeded" 429);
               invocations := 4;
               elapsed := 6040 |}.
Proof. split; reflexivity. Qed.

End RetryFacts.

(** ** The queue left to drain *)

Module QueueFacts.
Import RateLimiter Samples CeilingFacts RetryFacts.

Arguments purge : simpl never.

Section Drain.

Context {T : Type}.
Variable options : Options.
Variable lag : nat -> nat.
Hypothesis ceiling_pos : 1 <= maxRequestsPerMinute options.

Abbreviation State := (@QueueState T).
Abbreviation Log := (list (@Admission T)).

Lemma purge_length now (l : list Z) :
  (length (purge now l) <= length l)%nat.
Proof. unfold purge. apply filter_length_le. Qed.

Ltac proj_cbn :=
  cbn [requestTimestamps queue processing pendingStamp inflight app
       fst snd length].

(** One call of [processQueue], at a time [now] not before the last one,
    which ended with [a0]. *)
Lemma processQueue_next last now (s : State) a0 (hist : list Z) :
  last <= now ->
  windowOf options last s a0 hist ->
  deferredFor last s a0 ->
  forall s' a, processQueue options now s = (s', a) ->
    windowOf options now s' a (hist ++ pendingStamp now a)
    /\ deferredFor now s' a
    /\ inflight a ++ queue s' = queue s
    /\ (a = Idle -> queue s' = [] /\ processing s' = false).
Proof.
  intros Hle (Hlen & purgedAt & Hpa & Hpast & Hstore & Hwhen) Hdef0 s' a Hpq.
  assert (Hpast' : Forall (fun t => t <= now) hist).
  { eapply Forall_impl; [|exact Hpast]. simpl. intros; lia. }
  pose proof (purge_length now (requestTimestamps s)) as Hpl.
  assert (Hkept : purge now (requestTimestamps s) = purge now hist).
  { rewrite Hstore. apply purge_purge. lia. }
  pose proof (f_equal fst Hpq) as Hs. pose proof (f_equal snd Hpq) as Ha.
  cbn [fst snd] in Hs, Ha. subst s' a. clear Hpq. unfold processQueue.
  destruct (queue s) as [|p rest] eqn:Eq.
  - unfold windowOf, deferredFor. proj_cbn. rewrite app_nil_r.
    repeat split; auto.
    exists purgedAt. split; [lia|]. split; [exact Hpast|]. split; [exact Hstore|].
    destruct a0 as [|w|p0]; cbn [purgedFor] in *.
    + exact Hwhen.
    + destruct Hdef0 as (? & ? & _ & _ & _ & Hq). congruence.
    + apply Hwhen.
  - destruct (maxRequestsPerMinute options
                <=? Z.of_nat (length (purge now (requestTimestamps s)))) eqn:E.
    + unfold windowOf, deferredFor. proj_cbn. rewrite app_nil_r.
      split; [|split; [|split]].
      * split; [lia|]. exists now. cbn [purgedFor]. repeat split; auto. lia.
      * apply Z.leb_le in E.
        destruct (purge now (requestTimestamps s)) as [|oldest others] eqn:Ek.
        -- simpl in E. lia.
        -- exists oldest, others. repeat split; [|discriminate].
           assert (Hin : In oldest (purge now (requestTimestamps s)))
             by (rewrite Ek; left; reflexivity).
           unfold purge in Hin. apply filter_In in Hin as [_ Hin].
           apply Z.ltb_lt in Hin. exact Hin.
      * reflexivity.
      * discriminate.
    + unfold windowOf, deferredFor. proj_cbn.
      apply Z.leb_gt in E.
      split; [|split; [|split]]; auto; [|discriminate].
      split.
      * rewrite length_app. simpl. lia.
      * exists now. split; [lia|]. split; [|split].
        -- apply Forall_app. split; [exact Hpast'|].
           constructor; [lia|constructor].
        -- rewrite purge_app, purge_now, Hkept. reflexivity.
        -- cbn [purgedFor]. split; [reflexivity|]. apply last_last.
Qed.

Lemma stepsLeft_processQueue now (s s' : State) a :
  processQueue options now s = (s', a) ->
  (stepsLeft s' a <= 2 * length (queue s))%nat.
Proof.
  unfold processQueue. destruct (queue s) as [|p rest] eqn:Eq.
  - intros H; inversion H; subst. simpl. lia.
  - destruct (maxRequestsPerMinute options <=? _);
      intros H; inversion H; subst; simpl; rewrite ?Eq; simpl; lia.
Qed.

Lemma sequential_weaken from from' (log : Log) :
  from <= from' -> sequential from' log -> sequential from log.
Proof.
  intros Hle. destruct log as [|a log]; simpl; [trivial|].
  intros (H1 & H2 & H3). repeat split; auto. lia.
Qed.

Lemma sequential_from from (log : Log) :
  sequential from log ->
  forall j b, nth_error log j = Some b -> from <= admittedAt b.
Proof.
  revert from. induction log as [|a log IH]; intros from Hseq j b Hj.
  - destruct j; discriminate.
  - destruct Hseq as (H1 & H2 & H3). destruct j as [|j]; simpl in Hj.
    + injection Hj as <-. exact H1.
    + specialize (IH _ H3 j b Hj). unfold settledAt in IH. lia.
Qed.

Lemma sequential_nth from (log : Log) :
  sequential from log ->
  forall i j a b,
    (i < j)%nat -> nth_error log i = Some a -> nth_error log j = Some b ->
    settledAt a <= admittedAt b.
Proof.
  revert from. induction log as [|x log IH]; intros from Hseq i j a b Hij Hi Hj.
  - destruct i; discriminate.
  - destruct Hseq as (H1 & H2 & H3).
    destruct j as [|j]; [lia|]. simpl in Hj.
    destruct i as [|i]; simpl in Hi.
    + injection Hi as <-. exact (sequential_from _ _ H3 j b Hj).
    + apply (IH _ H3 i j a b); [lia|exact Hi|exact Hj].
Qed.

Lemma stored_in_hist now (s : State) a (hist : list Z) t :
  windowOf options now s a hist -> In t (requestTimestamps s) -> t <= now.
Proof.
  intros (_ & purgedAt & Hpa & Hpast & Hstore & _) Hin.
  rewrite Hstore in Hin. unfold purge in Hin. apply filter_In in Hin as [Hin _].
  rewrite Forall_forall in Hpast. specialize (Hpast t Hin). simpl in Hpast. lia.
Qed.

(** After the timer of a deferral the head of the queue is admitted. *)
Lemma deferral_ends now (s : State) (hist : list Z) waitTime now' :
  windowOf options now s (Deferred waitTime) hist ->
  deferredFor now s (Deferred waitTime) ->
  now + timerDelayOpt (plus100 waitTime) <= now' ->
  exists p rest,
    queue s = p :: rest
    /\ processQueue options now' s =
         ({| queue := rest; processing := true;
             requestTimestamps := purge now' (requestTimestamps s) ++ [now'] |},
          Granted p).
Proof.
  intros Hwin (oldest & others & Hst & Hw & Hold & Hq) Hnow'.
  assert (Hle : oldest <= now).
  { apply (stored_in_hist now s (Deferred waitTime) hist); [exact Hwin|].
    rewrite Hst. left. reflexivity. }
  subst waitTime. cbn [timerDelayOpt plus100] in Hnow'.
  rewrite timerDelay_id in Hnow' by (unfold TIMEOUT_MAX; lia).
  destruct (queue s) as [|p rest] eqn:Eq; [congruence|].
  exists p, rest. split; [reflexivity|].
  apply (processQueue_decision options now' s p rest Eq).
  destruct Hwin as (Hlen & _).
  rewrite Hst in *. unfold purge. cbn [filter].
  replace (now' - 60000 <? oldest) with false
    by (symmetry; apply Z.ltb_ge; lia).
  pose proof (filter_length_le (fun t => now' - 60000 <? t) others).
  cbn [length] in Hlen. lia.
Qed.

(** The chain of [processQueue] calls empties the queue: every request
    of the queue is admitted, in the order of the queue, each after the
    one before it has settled. *)
Lemma eventLoop_drains (fuel : nat) :
  forall k now (s : State) a (log : Log),
    windowOf options now s a (map admittedAt log ++ pendingStamp now a) ->
    deferredFor now s a ->
    (a = Idle -> queue s = [] /\ processing s = false) ->
    (stepsLeft s a + 1 + callsLeft options 1 <= fuel)%nat ->
    exists s' log2,
      eventLoop options lag fuel k now s a log = Some (s', log ++ log2)
      /\ map request log2 = inflight a ++ queue s
      /\ sequential now log2
      /\ Forall (ranToSettlement options) log2
      /\ queue s' = [] /\ processing s' = false
      /\ exists last,
           windowOf options last s' Idle (map admittedAt (log ++ log2)).
Proof.
  induction fuel as [|fuel IH]; intros k now s a log Hwin Hdef Hidle Hfuel;
    [lia|].
  cbn [eventLoop]. destruct a as [|waitTime|p].
  - destruct (Hidle eq_refl) as [Hq Hp].
    exists s, []. rewrite app_nil_r. simpl in Hwin. rewrite app_nil_r in Hwin.
    repeat split; auto. exists now. exact Hwin.
  - cbn [pendingStamp] in Hwin. rewrite app_nil_r in Hwin.
    set (now' := now + timerDelayOpt (plus100 waitTime) + Z.of_nat (lag k)).
    destruct (deferral_ends now s _ waitTime now' Hwin Hdef) as (p & rest & Hq & Hpq);
      [unfold now'; lia|].
    rewrite Hpq.
    assert (Hge : now <= now').
    { unfold now'. destruct waitTime as [w|]; simpl;
        [pose proof (timerDelay_pos (w + 100))|]; lia. }
    destruct (processQueue_next now now' s _ _ Hge Hwin Hdef _ _ Hpq)
      as (Hwin' & Hdef' & Hqueue & _).
    cbn [inflight queue app] in Hqueue.
    destruct (IH (S k) now' _ (Granted p) log Hwin' Hdef')
      as (s'' & log2 & Hrun & Hmap & Hseq & Hran & Hq' & Hp' & Hlast).
    + discriminate.
    + cbn [stepsLeft queue]. cbn [stepsLeft] in Hfuel. rewrite Hq in Hfuel.
      simpl length in Hfuel. lia.
    + exists s'', log2. rewrite Hrun. repeat split; auto.
      * rewrite Hmap. cbn [inflight queue app]. rewrite Hq. reflexivity.
      * exact (sequential_weaken now now' log2 Hge Hseq).
  - destruct (executeWithRetry_total options fuel (requestFn p) 0 1)
      as (r & Hr & Hel & _); [cbn [stepsLeft] in Hfuel; lia|].
    rewrite Hr.
    set (now' := now + elapsed r + Z.of_nat (lag k)).
    assert (Hge : now <= now') by (unfold now'; lia).
    destruct (processQueue options now' s) as [s' a'] eqn:Hpq.
    destruct (processQueue_next now now' s _ _ Hge Hwin Hdef _ _ Hpq)
      as (Hwin' & Hdef' & Hqueue & Hidle').
    set (entry := {| request := p; admittedAt := now; run := r |}).
    assert (Hhist : map admittedAt (log ++ [entry]) =
                    map admittedAt log ++ pendingStamp now (Granted p)).
    { rewrite map_app. reflexivity. }
    rewrite <- Hhist in Hwin'.
    destruct (IH (S k) now' s' a' (log ++ [entry]) Hwin' Hdef' Hidle')
      as (s'' & log2 & Hrun & Hmap & Hseq & Hran & Hq' & Hp' & Hlast).
    + pose proof (stepsLeft_processQueue now' s s' a' Hpq).
      cbn [stepsLeft] in Hfuel. lia.
    + exists s'', (entry :: log2). rewrite Hrun.
      rewrite <- app_assoc. cbn [app].
      split; [reflexivity|].
      split; [|split; [|split; [|split; [exact Hq'|split; [exact Hp'|]]]]].
      * cbn [map inflight app request entry]. rewrite Hmap, Hqueue. reflexivity.
      * cbn [sequential]. split; [cbn; lia|]. split; [exact Hel|].
        apply (sequential_weaken (settledAt entry) now' log2); [|exact Hseq].
        unfold settledAt, entry, now'. cbn [admittedAt run]. lia.
      * constructor; [|exact Hran]. exists fuel. exact Hr.
      * rewrite <- app_assoc in Hlast. exact Hlast.
Qed.

Lemma enqueueAll_processing now (ps : list (@Pending T)) :
  forall (s : State) started,
    processing s = true ->
    enqueueAll options now s (Some started) ps =
      ({| queue := queue s ++ ps; processing := true;
          requestTimestamps := requestTimestamps s |}, Some started).
Proof.
  induction ps as [|p ps IH]; intros s started Hp.
  - simpl. rewrite app_nil_r. destruct s; simpl in *. subst. reflexivity.
  - cbn [enqueueAll]. unfold enqueue. cbn [processing]. rewrite Hp.
    rewrite IH by reflexivity. cbn [queue requestTimestamps].
    rewrite <- app_assoc. reflexivity.
Qed.

Lemma submissions_length i (fns : list (@RequestFn T)) :
  length (submissions i fns) = length fns.
Proof.
  revert i. induction fns as [|fn fns IH]; intros i; simpl; [reflexivity|].
  rewrite IH. reflexivity.
Qed.

Lemma last_default {A : Type} (l : list A) (d d' : A) :
  l <> [] -> last l d = last l d'.
Proof.
  induction l as [|x l IH]; intros Hne; [congruence|].
  destruct l as [|y l]; [reflexivity|].
  cbn [last] in *. apply IH. discriminate.
Qed.

Lemma purge_at_last (hist : list Z) purgedAt d :
  last hist purgedAt = purgedAt ->
  purge purgedAt hist = purge (last hist d) hist.
Proof.
  intros Hlast. destruct hist as [|x hist]; [reflexivity|].
  rewrite (last_default (x :: hist) d purgedAt) by discriminate.
  rewrite Hlast. reflexivity.
Qed.

(** A burst on a new queue drains: every request is admitted once, in
    the order of submission, each after the one before it has settled,
    and at the end the window is the admission timestamps as purged at
    the last admission. *)
Lemma burst_drains now (fns : list (@RequestFn T)) fuel :
  (burstFuel options fns <= fuel)%nat ->
  exists s log,
    burst options lag fuel now fns = Some (s, log)
    /\ map request log = submissions 0 fns
    /\ sequential now log
    /\ Forall (ranToSettlement options) log
    /\ queue s = [] /\ processing s = false
    /\ requestTimestamps s =
         purge (last (map admittedAt log) now) (map admittedAt log).
Proof.
  intros Hfuel. unfold burst, burstFuel in *.
  destruct fns as [|fn fns].
  - simpl. exists emptyQueue, []. repeat split; constructor.
  - cbn [submissions enqueueAll]. unfold enqueue at 1.
    cbn [processing emptyQueue queue app requestTimestamps].
    set (p := {| pid := 0; requestFn := fn |}).
    destruct (processQueue_decision options now
                {| queue := [p]; processing := false; requestTimestamps := [] |}
                p [] eq_refl) as [Hadm _].
    cbn [requestTimestamps] in Hadm. unfold purge in Hadm. simpl filter in Hadm.
    rewrite Hadm by (simpl; lia). cbn [app].
    rewrite enqueueAll_processing by reflexivity.
    cbn [queue app requestTimestamps].
    destruct (eventLoop_drains fuel 0 now
                {| queue := submissions 1 fns; processing := true;
                   requestTimestamps := [now] |} (Granted p) [])
      as (s' & log2 & Hrun & Hmap & Hseq & Hran & Hq & Hp & last & Hlast).
    + cbn [map app pendingStamp]. split.
      * simpl. lia.
      * exists now. split; [lia|]. split; [|split].
        -- constructor; [lia|constructor].
        -- cbn [requestTimestamps]. rewrite purge_now. reflexivity.
        -- cbn [purgedFor last]. split; reflexivity.
    + exact I.
    + discriminate.
    + cbn [stepsLeft queue]. rewrite submissions_length.
      simpl length in Hfuel. lia.
    + exists s', log2. cbn [app] in Hrun. rewrite Hrun.
      repeat split; auto.
      destruct Hlast as (_ & purgedAt & _ & _ & Hst & Hwhen).
      cbn [purgedFor] in Hwhen. rewrite Hst. apply purge_at_last, Hwhen.
Qed.

Lemma sequential_all_from from (log : Log) :
  sequential from log -> Forall (fun a => from <= admittedAt a) log.
Proof.
  intros Hseq. apply Forall_forall. intros a Hin.
  apply In_nth_error in Hin as [j Hj].
  exact (sequential_from from log Hseq j a Hj).
Qed.

Lemma purge_keeps_all at_ (l : list Z) :
  Forall (fun t => at_ - 60000 < t) l -> purge at_ l = l.
Proof.
  unfold purge. induction 1 as [|t l Ht _ IH]; simpl; [reflexivity|].
  replace (at_ - 60000 <? t) with true by (symmetry; apply Z.ltb_lt; exact Ht).
  rewrite IH. reflexivity.
Qed.

End Drain.

(** C2. Admission waits for completion: [processQueue] awaits the request
    it has started before it schedules the next attempt.  Of two requests
    submitted together at time 0 to a queue with the default ceiling of
    60, the first taking 5000 ms and the second 10 ms, the first is
    admitted at 0 and settles at 5000, and the second is admitted at
    5000, when the first has settled, and settles at 5010; so admission
    is not decoupled from completion. *)
Theorem later_request_waits_for_the_earlier :
  option_map (fun r => map (fun a => (admittedAt a, settledAt a)) (snd r))
    (burst (RequestQueue_options (mkRateLimitOptions None None None))
           noLag 20 0 [succeedsAfter 5000; succeedsAfter 10])
  = Some [(0, 5000); (5000, 5010)]
  /\ ~ @admissionDecoupled nat
        (RequestQueue_options (mkRateLimitOptions None None None)).
Proof.
  split; [vm_compute; reflexivity|].
  intros H.
  pose (fns := [succeedsAfter 5000; succeedsAfter 10]).
  specialize (H fns 20%nat 0).
  destruct (burst (RequestQueue_options (mkRateLimitOptions None None None))
                  noLag 20 0 fns) as [[s log]|] eqn:E;
    vm_compute in E; [|discriminate].
  injection E as <- <-.
  specialize (H _ _ ltac:(vm_compute; discriminate) eq_refl).
  specialize (H _ (or_intror (or_introl eq_refl))).
  vm_compute in H. discriminate.
Qed.

(** The queue runs one request at a time: in a burst on a new queue
    every request is admitted, in the order of submission, and each
    admission comes no earlier than the settlement of every request
    admitted before, retries and their delays included ([run a] is the
    whole run of [executeWithRetry]). *)
Lemma admission_follows_settlement {T : Type} (options : Options)
        (lag : nat -> nat) (now : Z) (fns : list (@RequestFn T)) (fuel : nat) :
  1 <= maxRequestsPerMinute options ->
  (burstFuel options fns <= fuel)%nat ->
  exists s log,
    burst options lag fuel now fns = Some (s, log)
    /\ map request log = submissions 0 fns
    /\ Forall (ranToSettlement options) log
    /\ forall i j a b,
         (i < j)%nat ->
         nth_error log i = Some a -> nth_error log j = Some b ->
         settledAt a <= admittedAt b.
Proof.
  intros HR Hfuel.
  destruct (burst_drains options lag HR now fns fuel Hfuel)
    as (s & log & Hrun & Hmap & Hseq & Hran & _).
  exists s, log. repeat split; auto.
  exact (sequential_nth now log Hseq).
Qed.

Lemma admission_follows_settlement_witness :
  exists s log,
    burst (RequestQueue_options (mkRateLimitOptions (Some 2) None None)) noLag
          20 1000 [succeedsAfter 5000; alwaysRateLimited; succeedsAfter 10]
      = Some (s, log)
    /\ map request log =
         submissions 0 [succeedsAfter 5000; alwaysRateLimited; succeedsAfter 10]
    /\ Forall (ranToSettlement
                 (RequestQueue_options (mkRateLimitOptions (Some 2) None None)))
               log
    /\ forall i j a b,
         (i < j)%nat ->
         nth_error log i = Some a -> nth_error log j = Some b ->
         settledAt a <= admittedAt b.
Proof.
  apply admission_follows_settlement.
  - simpl. lia.
  - vm_compute. lia.
Defined.

(** C9. The requests of a burst on a new queue are admitted in the order
    in which they were submitted: the log of admissions lists them in
    that order, with admission times that never decrease; a request is
    started at its admission, so none is started before those submitted
    ahead of it have been admitted. *)
Theorem fifo_admission {T : Type} (options : Options) (lag : nat -> nat)
        (now : Z) (fns : list (@RequestFn T)) (fuel : nat) :
  1 <= maxRequestsPerMinute options ->
  (burstFuel options fns <= fuel)%nat ->
  exists s log,
    burst options lag fuel now fns = Some (s, log)
    /\ map request log = submissions 0 fns
    /\ forall i j a b,
         (i <= j)%nat ->
         nth_error log i = Some a -> nth_error log j = Some b ->
         admittedAt a <= admittedAt b.
Proof.
  intros HR Hfuel.
  destruct (burst_drains options lag HR now fns fuel Hfuel)
    as (s & log & Hrun & Hmap & Hseq & _).
  exists s, log. repeat split; auto.
  intros i j a b Hij Hi Hj.
  destruct (Nat.eq_dec i j) as [->|Hne].
  - rewrite Hi in Hj. injection Hj as <-. lia.
  - assert (Hlt : (i < j)%nat) by lia.
    pose proof (sequential_nth now log Hseq i j a b Hlt Hi Hj) as H1.
    pose proof (sequential_all_from now log Hseq) as Hall.
    rewrite Forall_forall in Hall.
    assert (Hel : 0 <= elapsed (run a)).
    { clear - Hseq Hi. revert now i Hseq Hi.
      induction log as [|x log IH]; intros now i Hseq Hi.
      - destruct i; discriminate.
      - destruct Hseq as (_ & H2 & H3). destruct i as [|i]; simpl in Hi.
        + injection Hi as <-. exact H2.
        + exact (IH _ i H3 Hi). }
    unfold settledAt in H1. lia.
Qed.

Lemma fifo_admission_witness :
  exists s log,
    burst (RequestQueue_options (mkRateLimitOptions (Some 2) None None)) noLag
          20 1000 [succeedsAfter 5000; alwaysRateLimited; succeedsAfter 10]
      = Some (s, log)
    /\ map request log =
         submissions 0 [succeedsAfter 5000; alwaysRateLimited; succeedsAfter 10]
    /\ forall i j a b,
         (i <= j)%nat ->
         nth_error log i = Some a -> nth_error log j = Some b ->
         admittedAt a <= admittedAt b.
Proof.
  apply fifo_admission.
  - simpl. lia.
  - vm_compute. lia.
Defined.

(** C10. In a burst on a new queue every request is admitted once, and
    the window ends as the list of the admission timestamps, one for each
    request, as purged at the last admission: the calls that
    [executeWithRetry] makes after a rate-limit rejection push nothing.
    When every admission is less than 60 seconds after the burst, nothing
    is purged and the window is exactly one timestamp for each request,
    however many calls each request took. *)
Theorem one_timestamp_per_request {T : Type} (options : Options)
        (lag : nat -> nat) (now : Z) (fns : list (@RequestFn T)) (fuel : nat) :
  1 <= maxRequestsPerMinute options ->
  (burstFuel options fns <= fuel)%nat ->
  exists s log,
    burst options lag fuel now fns = Some (s, log)
    /\ map request log = submissions 0 fns
    /\ Forall (ranToSettlement options) log
    /\ requestTimestamps s =
         purge (last (map admittedAt log) now) (map admittedAt log)
    /\ ((forall a, In a log -> admittedAt a - 60000 < now) ->
        requestTimestamps s = map admittedAt log
        /\ length (requestTimestamps s) = length fns).
Proof.
  intros HR Hfuel.
  destruct (burst_drains options lag HR now fns fuel Hfuel)
    as (s & log & Hrun & Hmap & Hseq & Hran & _ & _ & Hst).
  exists s, log.
  split; [exact Hrun|]. split; [exact Hmap|]. split; [exact Hran|].
  split; [exact Hst|]. intros Hrecent.
  assert (Hall : requestTimestamps s = map admittedAt log).
  { rewrite Hst. apply purge_keeps_all. apply Forall_map.
    assert (Hlast : last (map admittedAt log) now - 60000 < now).
    { destruct log as [|x log]; [simpl; lia|].
      destruct (exists_last (l := map admittedAt (x :: log)))
        as (l' & t & Hl); [discriminate|].
      rewrite Hl, last_last.
      assert (Hin : In t (map admittedAt (x :: log)))
        by (rewrite Hl; apply in_elt).
      apply in_map_iff in Hin as (a & <- & Hin). exact (Hrecent a Hin). }
    eapply Forall_impl; [|exact (sequential_all_from now log Hseq)].
    cbn beta. intros; lia. }
  split; [exact Hall|].
  rewrite Hall, length_map, <- (length_map request), Hmap.
  apply submissions_length.
Qed.

Lemma one_timestamp_per_request_witness :
  exists s log,
    burst (RequestQueue_options (mkRateLimitOptions None None None)) noLag
          20 1000 [alwaysRateLimited; succeedsAfter 10] = Some (s, log)
    /\ map request log = submissions 0 [alwaysRateLimited; succeedsAfter 10]
    /\ Forall (ranToSettlement
                 (RequestQueue_options (mkRateLimitOptions None None None))) log
    /\ requestTimestamps s =
         purge (last (map admittedAt log) 1000) (map admittedAt log)
    /\ ((forall a, In a log -> admittedAt a - 60000 < 1000) ->
        requestTimestamps s = map admittedAt log
        /\ length (requestTimestamps s) =
             length [alwaysRateLimited; succeedsAfter 10]).
Proof.
  apply one_timestamp_per_request.
  - simpl. lia.
  - vm_compute. lia.
Defined.

End QueueFacts.

(** ** The batch runners *)

Module BatchFacts.
Import BatchRunner BatchRunnerMore Samples.

Section Batches.

Context {T : Type}.

Abbreviation Tasks := (list (@Task T)).

(** *** Slices *)

Lemma slice_batch {A : Type} (l : list A) (i m : Z) :
  0 <= i < Z.of_nat (length l) -> 1 <= m ->
  slice l i (i + m) = firstn (Z.to_nat m) (skipn (Z.to_nat i) l).
Proof.
  intros Hi Hm. unfold slice, sliceIndex.
  replace (i <? 0) with false by (symmetry; apply Z.ltb_ge; lia).
  replace (i + m <? 0) with false by (symmetry; apply Z.ltb_ge; lia).
  rewrite (Z.min_l i) by lia.
  destruct (Z.le_ge_cases (i + m) (Z.of_nat (length l))) as [Hle|Hge].
  - rewrite Z.min_l by lia. f_equal. lia.
  - rewrite Z.min_r by lia.
    rewrite !firstn_all2; [reflexivity| |]; rewrite length_skipn; lia.
Qed.

Lemma slice_map {A B : Type} (f : A -> B) (l : list A) (i j : Z) :
  slice (map f l) i j = map f (slice l i j).
Proof.
  unfold slice. rewrite length_map, skipn_map, firstn_map. reflexivity.
Qed.

Lemma slice_empty {A : Type} (l : list A) (i : Z) : slice l i i = [].
Proof.
  unfold slice. rewrite Z.sub_diag. reflexivity.
Qed.

(** *** One batch in partial mode *)

Lemma insertPush_perm p (l : list (nat * Thrown)) :
  Permutation (insertPush p l) (p :: l).
Proof.
  induction l as [|q l IH]; simpl; [apply Permutation_refl|].
  destruct (fst q <? fst p)%nat.
  - eapply perm_trans; [apply perm_skip, IH|apply perm_swap].
  - apply Permutation_refl.
Qed.

Lemma pushOrder_perm (l : list (nat * Thrown)) : Permutation (pushOrder l) l.
Proof.
  induction l as [|p l IH]; simpl; [constructor|].
  eapply perm_trans; [apply insertPush_perm|]. apply perm_skip, IH.
Qed.

Lemma guarded_partial_pushes (batch : Tasks) :
  map snd (concat (map snd (map (guarded false) batch))) =
  flat_map failure batch.
Proof.
  induction batch as [|t batch IH]; simpl; [reflexivity|].
  rewrite map_app, IH. f_equal.
  destruct t as [at_ [v|e]| |e]; reflexivity.
Qed.

Lemma guarded_partial_promises (batch : Tasks) :
  Forall settles batch ->
  firstRejection (map fst (map (guarded false) batch)) = None
  /\ allFulfilled (map fst (map (guarded false) batch)) =
       Some (map valueOrNull batch).
Proof.
  induction 1 as [|t batch Ht _ [IH1 IH2]]; simpl; [split; reflexivity|].
  destruct t as [at_ [v|e]| |e]; simpl in *; try contradiction;
    rewrite IH1, IH2; split; reflexivity.
Qed.

Lemma notNull_valueOrNull (batch : Tasks) :
  notNull (map valueOrNull batch) = flat_map survivor batch.
Proof.
  induction batch as [|t batch IH]; simpl; [reflexivity|].
  destruct t as [at_ [[v|]|e]| |e]; simpl; rewrite IH; reflexivity.
Qed.

Lemma runBatch_partial (batch : Tasks) :
  Forall settles batch ->
  exists pushed,
    runBatch false batch = (Fulfilled (map valueOrNull batch), pushed)
    /\ Permutation pushed (flat_map failure batch).
Proof.
  intros Hs. unfold runBatch, promiseAll.
  destruct (guarded_partial_promises batch Hs) as [H1 H2].
  rewrite H1, H2. eexists. split; [reflexivity|].
  rewrite <- guarded_partial_pushes.
  apply Permutation_map, pushOrder_perm.
Qed.

Lemma runBatch_hangs (batch : Tasks) :
  Exists (fun t => t = Never) batch ->
  fst (runBatch false batch) = Waiting.
Proof.
  intros Hex. unfold runBatch, promiseAll. cbn [fst].
  assert (H : firstRejection (map fst (map (guarded false) batch)) = None
              /\ allFulfilled (map fst (map (guarded false) batch)) = None).
  { induction batch as [|t batch IH]; [inversion Hex|].
    destruct t as [at_ [v|e]| |e]; simpl.
    - inversion Hex as [? ? H0|? ? H0]; [discriminate|].
      destruct (IH H0) as [-> ->]. split; reflexivity.
    - inversion Hex as [? ? H0|? ? H0]; [discriminate|].
      destruct (IH H0) as [-> ->]. split; reflexivity.
    - split; [|reflexivity].
      clear. induction batch as [|t batch IH]; simpl; [reflexivity|].
      destruct t as [at_ [v|e]| |e]; simpl; exact IH.
    - inversion Hex as [? ? H0|? ? H0]; [discriminate|].
      destruct (IH H0) as [-> ->]. split; reflexivity. }
  destruct H as [-> ->]. reflexivity.
Qed.

(** *** The loop in partial mode *)

Lemma Forall_firstn_skipn {A : Type} (P : A -> Prop) n (l : list A) :
  Forall P l -> Forall P (firstn n l) /\ Forall P (skipn n l).
Proof.
  intros H. rewrite <- (firstn_skipn n l) in H.
  apply Forall_app in H. exact H.
Qed.

Lemma skipn_next {A : Type} (l : list A) (i m : Z) :
  0 <= i -> 0 <= m ->
  skipn (Z.to_nat (i + m)) l = skipn (Z.to_nat m) (skipn (Z.to_nat i) l).
Proof.
  intros Hi Hm. rewrite skipn_skipn. f_equal. lia.
Qed.

Lemma loop_index_inside {A : Type} (l : list A) (i : Z) :
  0 <= i -> skipn (Z.to_nat i) l <> [] -> 0 <= i < Z.of_nat (length l).
Proof.
  intros Hi Hne. split; [exact Hi|].
  destruct (Z.lt_ge_cases i (Z.of_nat (length l))) as [H|H]; [exact H|].
  exfalso. apply Hne. apply skipn_all2. lia.
Qed.

Lemma loop_index_outside {A : Type} (l : list A) (i : Z) :
  0 <= i -> skipn (Z.to_nat i) l = [] -> Z.of_nat (length l) <= i.
Proof.
  intros Hi He. pose proof (length_skipn (Z.to_nat i) l) as H.
  rewrite He in H. simpl in H. lia.
Qed.

Lemma executeParallel_loop_partial (tasks : Tasks) (m : Z) (fuel : nat) :
  1 <= m ->
  forall i results errors,
    0 <= i ->
    Forall settles (skipn (Z.to_nat i) tasks) ->
    (length (skipn (Z.to_nat i) tasks) < fuel)%nat ->
    exists errs,
      executeParallel_loop fuel tasks m false i results errors =
        Some (Returned
                (results ++ flat_map survivor (skipn (Z.to_nat i) tasks))
                (errors ++ errs))
      /\ Permutation errs (flat_map failure (skipn (Z.to_nat i) tasks)).
Proof.
  intros Hm. induction fuel as [|fuel IH];
    intros i results errors Hi Hs Hfuel; [lia|].
  cbn [executeParallel_loop].
  destruct (skipn (Z.to_nat i) tasks) as [|t rest] eqn:Erest.
  - replace (i <? Z.of_nat (length tasks)) with false.
    + exists []. rewrite !app_nil_r. split; [reflexivity|constructor].
    + symmetry. apply Z.ltb_ge. apply loop_index_outside; assumption.
  - assert (Hin : 0 <= i < Z.of_nat (length tasks)).
    { apply loop_index_inside; [exact Hi|]. rewrite Erest. discriminate. }
    replace (i <? Z.of_nat (length tasks)) with true
      by (symmetry; apply Z.ltb_lt; lia).
    rewrite slice_batch by assumption. rewrite Erest.
    destruct (Forall_firstn_skipn settles (Z.to_nat m) (t :: rest) Hs)
      as [Hb Hr].
    destruct (runBatch_partial _ Hb) as (pushed & Hrun & Hperm).
    rewrite Hrun.
    assert (Hnext : skipn (Z.to_nat (i + m)) tasks =
                    skipn (Z.to_nat m) (t :: rest)).
    { rewrite skipn_next by lia. rewrite Erest. reflexivity. }
    destruct (IH (i + m)
                 (results ++ notNull (map valueOrNull (firstn (Z.to_nat m) (t :: rest))))
                 (errors ++ pushed)) as (errs & Hloop & Hperm').
    + lia.
    + rewrite Hnext. exact Hr.
    + rewrite Hnext, length_skipn. simpl length in *. lia.
    + rewrite Hloop, Hnext. exists (pushed ++ errs).
      rewrite notNull_valueOrNull, <- !app_assoc, <- flat_map_app, firstn_skipn.
      split; [reflexivity|].
      rewrite Hnext in Hperm'.
      pose proof (Permutation_app Hperm Hperm') as Hp.
      rewrite <- flat_map_app, firstn_skipn in Hp. exact Hp.
Qed.

(** Every task that settles is a survivor, a failure or a [null]. *)
Lemma contributions_length (tasks : Tasks) :
  Forall settles tasks ->
  (length (flat_map survivor tasks) + length (flat_map failure tasks)
   + length (flat_map nullResult tasks) = length tasks)%nat.
Proof.
  induction 1 as [|t tasks Ht _ IH]; simpl; [reflexivity|].
  rewrite !length_app.
  destruct t as [at_ [[v|]|e]| |e]; simpl in *; try contradiction; lia.
Qed.

(** *** [executeParallelTasks] and [executeParallel] on the raced tasks

The two differ on a task that throws when it is called: [executeParallel]
calls the task inside its [async] callback, which catches the throw as it
does a rejection; [executeParallelTasks] calls it in [batch.map], and the
throw ends the [try] block of the batch.  In abort mode both throw it. *)

Variable numberToString : Z -> string.

Lemma firstThrown_none (ps : Tasks) :
  Forall returnsPromise ps -> firstThrown ps = None.
Proof.
  induction 1 as [|p ps Hp _ IH]; [reflexivity|].
  destruct p as [at_ o| |e]; simpl in *; [exact IH|exact IH|contradiction].
Qed.

Lemma firstThrown_first (ps : Tasks) e :
  firstThrown ps = Some e ->
  exists before after,
    ps = before ++ Throws e :: after /\ Forall returnsPromise before.
Proof.
  induction ps as [|p ps IH]; [discriminate|].
  destruct p as [at_ o| |e0]; cbn [firstThrown]; intros H.
  - destruct (IH H) as (before & after & -> & Hb).
    exists (Settles at_ o :: before), after. split; [reflexivity|].
    constructor; [exact I|exact Hb].
  - destruct (IH H) as (before & after & -> & Hb).
    exists (Never :: before), after. split; [reflexivity|].
    constructor; [exact I|exact Hb].
  - injection H as ->. exists [], ps. split; [reflexivity|constructor].
Qed.

Lemma firstRejection_returnsPromise (before : Tasks) :
  Forall returnsPromise before ->
  forall at_ e, firstRejection before = Some (at_, e) -> (1 <= at_)%nat.
Proof.
  induction 1 as [|p ps Hp _ IH]; intros at_ e H; [discriminate|].
  cbn [firstRejection] in H.
  destruct p as [a [v|e0]| |e0]; cbn [rejection] in H; simpl in Hp;
    try contradiction.
  - exact (IH _ _ H).
  - destruct (firstRejection ps) as [[a' e']|] eqn:E.
    + destruct (S a <=? a')%nat; injection H as <- <-; [lia|exact (IH _ _ eq_refl)].
    + injection H as <- <-. lia.
  - exact (IH _ _ H).
Qed.

Lemma firstRejection_app (l1 l2 : Tasks) :
  firstRejection (l1 ++ l2) =
    match firstRejection l1, firstRejection l2 with
    | Some (at_, e), Some (at', e') =>
        if (at_ <=? at')%nat then Some (at_, e) else Some (at', e')
    | Some r, None => Some r
    | None, later => later
    end.
Proof.
  induction l1 as [|p l1 IH]; cbn [app firstRejection].
  - destruct (firstRejection l2) as [[a e]|]; reflexivity.
  - rewrite IH. destruct (rejection p) as [[a e]|];
      destruct (firstRejection l1) as [[a1 e1]|];
      destruct (firstRejection l2) as [[a2 e2]|]; try reflexivity;
      repeat match goal with
             | |- context [(?x <=? ?y)%nat] => destruct (Nat.leb_spec x y)
             end;
      try reflexivity; lia.
Qed.

Lemma firstRejection_thrown (ps : Tasks) e :
  firstThrown ps = Some e -> firstRejection ps = Some (0%nat, e).
Proof.
  intros H. destruct (firstThrown_first ps e H) as (before & after & -> & Hb).
  rewrite firstRejection_app. cbn [firstRejection rejection].
  pose proof (firstRejection_returnsPromise before Hb) as Hlate.
  destruct (firstRejection before) as [[a0 e0]|].
  - specialize (Hlate a0 e0 eq_refl).
    destruct (firstRejection after) as [[a1 e1]|]; cbn [Nat.leb].
    + replace (a0 <=? 0)%nat with false by (symmetry; apply Nat.leb_gt; lia).
      reflexivity.
    + replace (a0 <=? 0)%nat with false by (symmetry; apply Nat.leb_gt; lia).
      reflexivity.
  - destruct (firstRejection after) as [[a1 e1]|]; reflexivity.
Qed.

Lemma runBatch_abort_pushes (batch : Tasks) :
  map fst (map (guarded true) batch) = batch
  /\ concat (map snd (map (guarded true) batch)) = [].
Proof.
  induction batch as [|t batch [IH1 IH2]]; [split; reflexivity|].
  cbn [map concat]. rewrite IH1, IH2.
  destruct t as [at_ [v|e]| |e]; split; reflexivity.
Qed.

Lemma runBatchTasks_abort (ps : Tasks) :
  runBatchTasks true ps = runBatch true ps.
Proof.
  unfold runBatchTasks. destruct (firstThrown ps) as [e|] eqn:E; [|reflexivity].
  unfold runBatch. destruct (runBatch_abort_pushes ps) as [-> ->].
  unfold promiseAll. rewrite (firstRejection_thrown ps e E). reflexivity.
Qed.

Lemma runBatchTasks_promises abort (ps : Tasks) :
  Forall returnsPromise ps -> runBatchTasks abort ps = runBatch abort ps.
Proof.
  intros H. unfold runBatchTasks. rewrite (firstThrown_none ps H). reflexivity.
Qed.

Lemma race_returnsPromise taskFirst timeout message (t : @Task T) :
  returnsPromise t -> returnsPromise (race taskFirst timeout message t).
Proof.
  unfold race. destruct t as [at_ o| |e]; intros H; [|exact I|exact H].
  destruct (if taskFirst then _ else _); exact I.
Qed.

Lemma executeParallelTasks_loop_race (tasks : Tasks) m abort timeout fuel :
  abort = true \/ Forall returnsPromise tasks ->
  forall i results errors,
    executeParallelTasks_loop numberToString fuel tasks m abort timeout
      i results errors =
    executeParallel_loop fuel
      (map (race true timeout (timedOutAfter numberToString timeout)) tasks)
      m abort i results errors.
Proof.
  intros Hcase.
  induction fuel as [|fuel IH]; intros i results errors; [reflexivity|].
  cbn [executeParallelTasks_loop executeParallel_loop].
  rewrite length_map, slice_map.
  destruct (i <? Z.of_nat (length tasks)); [|reflexivity].
  assert (Hsame : runBatchTasks abort
                    (map (race true timeout (timedOutAfter numberToString timeout))
                         (slice tasks i (i + m))) =
                  runBatch abort
                    (map (race true timeout (timedOutAfter numberToString timeout))
                         (slice tasks i (i + m)))).
  { destruct Hcase as [->|Hall]; [apply runBatchTasks_abort|].
    apply runBatchTasks_promises, Forall_map.
    unfold slice.
    destruct (Forall_firstn_skipn returnsPromise
                (Z.to_nat (sliceIndex (Z.of_nat (length tasks)) i)) tasks Hall)
      as [_ Hs].
    destruct (Forall_firstn_skipn returnsPromise
                (Z.to_nat (sliceIndex (Z.of_nat (length tasks)) (i + m)
                           - sliceIndex (Z.of_nat (length tasks)) i)) _ Hs)
      as [Hf _].
    eapply Forall_impl; [|exact Hf]. intros t. apply race_returnsPromise. }
  rewrite Hsame.
  destruct (runBatch abort _) as [[vs|e|] pushed]; rewrite ?IH; reflexivity.
Qed.

Lemma race_settles taskFirst timeout message (t : @Task T) :
  settles (race taskFirst timeout message t).
Proof.
  unfold race. destruct t as [at_ o| |e]; [|exact I|exact I].
  destruct (if taskFirst then _ else _); exact I.
Qed.

Lemma raced_settle taskFirst timeout message (tasks : Tasks) :
  Forall settles (map (race taskFirst timeout message) tasks).
Proof.
  apply Forall_map. apply Forall_forall. intros t _. apply race_settles.
Qed.

End Batches.

Lemma executeParallelTasks_race {T : Type} (numberToString : Z -> string)
      (tasks : list (@Task T)) (m : Z) (abort : bool) (timeout : option Z)
      (fuel : nat) :
  abort = true \/ Forall returnsPromise tasks ->
  executeParallelTasks numberToString fuel tasks
    {| maxConcurrent := Some m; abortOnError := Some abort;
       timeoutMs := timeout |} =
  executeParallel fuel (racedTasks numberToString timeout tasks)
    (Some m) (Some abort).
Proof.
  intros Hcase. unfold executeParallelTasks, executeParallel, racedTasks.
  cbn [maxConcurrent abortOnError timeoutMs].
  apply executeParallelTasks_loop_race, Hcase.
Qed.

Lemma executeParallel_partial {T : Type} (tasks : list (@Task T))
      (m : Z) (fuel : nat) :
  1 <= m -> (length tasks < fuel)%nat -> Forall settles tasks ->
  exists errors,
    executeParallel fuel tasks (Some m) (Some false) =
      Some (Returned (flat_map survivor tasks) errors)
    /\ Permutation errors (flat_map failure tasks).
Proof.
  intros Hm Hfuel Hs. unfold executeParallel.
  destruct (executeParallel_loop_partial tasks m fuel Hm 0 [] [])
    as (errs & Hrun & Hperm); try (simpl; auto; lia).
  exists errs. simpl in *. rewrite Hrun. split; [reflexivity|exact Hperm].
Qed.

Lemma raced_returnsPromise {T : Type} (numberToString : Z -> string)
      (timeout : option Z) (tasks : list (@Task T)) :
  Forall returnsPromise tasks ->
  Forall returnsPromise (racedTasks numberToString timeout tasks).
Proof.
  intros H. unfold racedTasks. apply Forall_map.
  eapply Forall_impl; [|exact H]. intros t. apply race_returnsPromise.
Qed.

(** A batch in which a task throws when it is called is lost to
    [executeParallelTasks] in partial mode: no result of the batch is
    kept and no error is recorded. *)
Lemma executeParallelTasks_drops_batch {T : Type} (numberToString : Z -> string)
      (tasks : list (@Task T)) (e : Thrown) (m : Z) (timeout : option Z)
      (fuel : nat) :
  1 <= m ->
  Z.of_nat (length tasks) <= m ->
  In (Throws e) tasks ->
  executeParallelTasks numberToString (S (S fuel)) tasks
    {| maxConcurrent := Some m; abortOnError := Some false;
       timeoutMs := timeout |}
  = Some (Returned [] []).
Proof.
  intros Hm Hlen Hin. unfold executeParallelTasks.
  cbn [maxConcurrent abortOnError timeoutMs executeParallelTasks_loop].
  destruct tasks as [|t tasks]; [destruct Hin|].
  replace (0 <? Z.of_nat (length (t :: tasks))) with true
    by (symmetry; apply Z.ltb_lt; simpl length; lia).
  rewrite slice_batch by (simpl length; lia).
  cbn [Z.to_nat skipn]. rewrite firstn_all2 by lia.
  set (timeoutMs := match timeout with Some t0 => t0 | None => 60000 end).
  set (raced := map (race true timeoutMs (timedOutAfter numberToString timeoutMs))
                    (t :: tasks)).
  assert (Hthrown : exists e', firstThrown raced = Some e').
  { unfold raced. clear -Hin. induction (t :: tasks) as [|x l IH]; [destruct Hin|].
    destruct Hin as [->|Hin].
    - exists e. reflexivity.
    - destruct (IH Hin) as [e' He'].
      destruct x as [at_ o| |e0]; cbn [map race firstThrown].
      + destruct (at_ <=? _)%nat; cbn [firstThrown]; exists e'; exact He'.
      + exists e'. exact He'.
      + exists e0. reflexivity. }
  destruct Hthrown as [e' He']. unfold runBatchTasks. rewrite He'.
  replace (0 + m <? Z.of_nat (length (t :: tasks))) with false
    by (symmetry; apply Z.ltb_ge; lia).
  reflexivity.
Qed.

(** In partial mode, with a concurrency of at least 1, a run in which
    every task settles returns, and the results, the accumulated errors
    and the tasks that fulfilled with [null] add up to the tasks.
    [executeParallelTasks] counts the outcomes of the races, when no
    task throws as it is called. *)
Lemma settling_tasks_are_accounted_for {T : Type} (numberToString : Z -> string)
      (tasks : list (@Task T)) (m : Z) (timeout : option Z) (fuel : nat) :
  1 <= m ->
  (length tasks < fuel)%nat ->
  (Forall settles tasks ->
   exists results errors,
     executeParallel fuel tasks (Some m) (Some false)
       = Some (Returned results errors)
     /\ (length results + length errors
         + length (flat_map nullResult tasks) = length tasks)%nat)
  /\ (Forall returnsPromise tasks ->
      exists results errors,
        executeParallelTasks numberToString fuel tasks
          {| maxConcurrent := Some m; abortOnError := Some false;
             timeoutMs := timeout |}
          = Some (Returned results errors)
        /\ (length results + length errors
            + length (flat_map nullResult
                        (racedTasks numberToString timeout tasks))
            = length tasks)%nat).
Proof.
  intros Hm Hfuel. split.
  - intros Hs.
    destruct (executeParallel_partial tasks m fuel Hm Hfuel Hs)
      as (errors & Hrun & Hperm).
    exists (flat_map survivor tasks), errors. split; [exact Hrun|].
    rewrite (Permutation_length Hperm). apply contributions_length, Hs.
  - intros Hp. rewrite executeParallelTasks_race by (right; exact Hp).
    assert (Hs : Forall settles (racedTasks numberToString timeout tasks))
      by apply raced_settle.
    destruct (executeParallel_partial
                (racedTasks numberToString timeout tasks) m fuel Hm)
      as (errors & Hrun & Hperm);
      [unfold racedTasks; rewrite length_map; lia|exact Hs|].
    exists (flat_map survivor (racedTasks numberToString timeout tasks)), errors.
    split; [exact Hrun|].
    rewrite (Permutation_length Hperm), (contributions_length _ Hs).
    unfold racedTasks. apply length_map.
Qed.

(** C4. In partial mode the results and the errors do not always add
    up to the tasks; the count is short in two ways.  Both
    runners mark a failed task by [null] and then filter [null] out, so
    that a task that fulfils with [null] is in neither list; and in
    [executeParallelTasks] a task that throws when it is called ends
    the [try] block of its batch, so that the other tasks of the batch
    are in neither list and the throw is not recorded.  Of one task,
    and of three, nothing is returned and nothing is recorded. *)
Theorem partial_mode_leaves_tasks_uncounted (fuel : nat) :
  executeParallel (T := nat) (S (S fuel)) [Settles 1 (Resolved None)]
    (Some 5) (Some false)
    = Some (Returned [] [])
  /\ executeParallelTasks decimal (S (S fuel)) [nullSuccess]
       {| maxConcurrent := Some 5; abortOnError := Some false;
          timeoutMs := Some 50 |}
     = Some (Returned [] [])
  /\ executeParallelTasks decimal (S (S fuel)) [fastSuccess; throwing; failing]
       {| maxConcurrent := Some 5; abortOnError := Some false;
          timeoutMs := Some 50 |}
     = Some (Returned [] []).
Proof.
  split; [reflexivity|]. split; [reflexivity|].
  apply (executeParallelTasks_drops_batch decimal _ (PlainError "t"));
    [lia|simpl; lia|simpl; tauto].
Qed.

(** In partial mode, with a concurrency of at least 1, the results
    returned are the values of the tasks that fulfilled with a value
    other than [null], in the order of the tasks ([flat_map] keeps it),
    and the accumulated errors are those of the tasks that failed, each
    as an [Error]; for [executeParallelTasks], when no task throws as it
    is called.  For [A; B; C] where A and C fulfil with a and c, not
    [null], and B rejects with e, the results are [a; c] and the errors
    [asError e]. *)
Lemma settling_tasks_keep_their_order {T : Type} (numberToString : Z -> string)
      (tasks : list (@Task T)) (m : Z) (timeout : option Z) (fuel : nat) :
  1 <= m ->
  (length tasks < fuel)%nat ->
  (Forall settles tasks ->
   exists errors,
     executeParallel fuel tasks (Some m) (Some false)
       = Some (Returned (flat_map survivor tasks) errors)
     /\ Permutation errors (flat_map failure tasks))
  /\ (Forall returnsPromise tasks ->
      exists errors,
        executeParallelTasks numberToString fuel tasks
          {| maxConcurrent := Some m; abortOnError := Some false;
             timeoutMs := timeout |}
          = Some (Returned
                    (flat_map survivor (racedTasks numberToString timeout tasks))
                    errors)
        /\ Permutation errors
             (flat_map failure (racedTasks numberToString timeout tasks)))
  /\ (forall la lb lc a c e,
        tasks = [Settles la (Resolved (Some a)); Settles lb (Rejected e);
                 Settles lc (Resolved (Some c))] ->
        executeParallel fuel tasks (Some m) (Some false)
          = Some (Returned [a; c] [asError e])).
Proof.
  intros Hm Hfuel. split; [|split].
  - intros Hs. exact (executeParallel_partial tasks m fuel Hm Hfuel Hs).
  - intros Hp. rewrite executeParallelTasks_race by (right; exact Hp).
    apply executeParallel_partial; [exact Hm| |apply raced_settle].
    unfold racedTasks. rewrite length_map. exact Hfuel.
  - intros la lb lc a c e ->.
    destruct (executeParallel_partial _ m fuel Hm Hfuel)
      as (errors & Hrun & Hperm); [repeat constructor|].
    simpl in Hperm. apply Permutation_sym, Permutation_length_1_inv in Hperm.
    subst errors. exact Hrun.
Qed.

(** C5. In partial mode a survivor can be lost, in the same two
    ways.  When A fulfils with [null], the result of [A (success);
    B (failure); C (success)] is C's result alone: A's is filtered out
    with the marks of the failures.  And when B fails by throwing as it
    is called, [executeParallelTasks] returns neither A's result nor
    C's, and records no error: the batch is lost. *)
Theorem partial_mode_loses_survivors (fuel : nat) :
  executeParallel (S (S fuel)) [nullSuccess; failing; fastSuccess]
    (Some 5) (Some false)
    = Some (Returned [3%nat] [PlainError "b"])
  /\ executeParallelTasks decimal (S (S fuel)) [slowSuccess; throwing; fastSuccess]
       {| maxConcurrent := Some 5; abortOnError := Some false;
          timeoutMs := None |}
     = Some (Returned [] [])
  /\ executeParallel (S (S fuel)) [slowSuccess; throwing; fastSuccess]
       (Some 5) (Some false)
     = Some (Returned [1%nat; 3%nat] [PlainError "t"]).
Proof.
  split; [reflexivity|]. split; [|reflexivity].
  apply (executeParallelTasks_drops_batch decimal _ (PlainError "t"));
    [lia|simpl; lia|simpl; tauto].
Qed.

(** *** Abort mode *)

Section Abort.

Context {T : Type}.

Abbreviation Tasks := (list (@Task T)).

Lemma rejectionAt_rejection (t : @Task T) at_ e :
  rejection t = Some (at_, e) -> rejectionAt t = Some at_.
Proof. unfold rejectionAt. intros ->. reflexivity. Qed.

Lemma rejectionAt_none (t : @Task T) :
  rejection t = None <-> rejectionAt t = None.
Proof.
  unfold rejectionAt. destruct (rejection t) as [[a e]|]; cbn; split;
    intros H; try reflexivity; discriminate.
Qed.

Lemma earliestRejection_bound (batch : Tasks) at_ e :
  earliestRejection batch at_ e ->
  Forall (fun t => forall at', rejectionAt t = Some at' -> (at_ <= at')%nat) batch.
Proof.
  intros (before & failed & after & -> & Hfail & Hb & Ha).
  apply Forall_app. split.
  - eapply Forall_impl; [|exact Hb]. simpl. intros t H at' Hat.
    specialize (H at' Hat). lia.
  - constructor; [|exact Ha]. simpl. intros at' Hat.
    rewrite (rejectionAt_rejection _ _ _ Hfail) in Hat. injection Hat as <-. lia.
Qed.

Lemma firstRejection_none (ps : Tasks) :
  firstRejection ps = None -> Forall (fun t => rejectionAt t = None) ps.
Proof.
  induction ps as [|p ps IH]; cbn [firstRejection]; [constructor|].
  destruct (rejection p) as [[at_ e]|] eqn:Ep.
  - destruct (firstRejection ps) as [[at' e']|];
      [destruct (at_ <=? at')%nat|]; discriminate.
  - intros H. constructor; [apply rejectionAt_none, Ep|exact (IH H)].
Qed.

Lemma firstRejection_earliest (ps : Tasks) :
  forall at_ e, firstRejection ps = Some (at_, e) -> earliestRejection ps at_ e.
Proof.
  induction ps as [|p ps IH]; intros at_ e H; cbn [firstRejection] in H;
    [discriminate|].
  destruct (rejection p) as [[at0 e0]|] eqn:Ep.
  - destruct (firstRejection ps) as [[at' e']|] eqn:Eps.
    + destruct (at0 <=? at')%nat eqn:Ele.
      * injection H as <- <-. apply Nat.leb_le in Ele.
        exists [], p, ps. repeat split; [exact Ep|constructor|].
        eapply Forall_impl;
          [|exact (earliestRejection_bound _ _ _ (IH _ _ eq_refl))].
        simpl. intros t Ht a Hat. specialize (Ht a Hat). lia.
      * injection H as <- <-. apply Nat.leb_gt in Ele.
        destruct (IH _ _ eq_refl) as (before & failed & after & -> & Hf & Hb & Ha).
        exists (p :: before), failed, after. repeat split; auto.
        constructor; [|exact Hb]. simpl. intros a Hat.
        rewrite (rejectionAt_rejection _ _ _ Ep) in Hat. injection Hat as <-. lia.
    + injection H as <- <-. exists [], p, ps.
      repeat split; [exact Ep|constructor|].
      eapply Forall_impl; [|exact (firstRejection_none ps Eps)].
      simpl. intros t Ht a Hat. congruence.
  - destruct (IH _ _ H) as (before & failed & after & -> & Hf & Hb & Ha).
    exists (p :: before), failed, after. repeat split; auto.
    constructor; [|exact Hb]. intros at' Hat.
    apply rejectionAt_none in Ep. congruence.
Qed.

Lemma runBatch_abort (batch : Tasks) :
  runBatch true batch = (promiseAll batch, []).
Proof.
  unfold runBatch. destruct (runBatch_abort_pushes batch) as [-> ->].
  reflexivity.
Qed.

Lemma allFulfilled_clean (batch : Tasks) :
  Forall settles batch ->
  Forall (fun t => rejectionAt t = None) batch ->
  Forall fulfils batch /\ exists vs, allFulfilled batch = Some vs.
Proof.
  induction 1 as [|t batch Ht _ IH]; intros Hc.
  - split; [constructor|]. exists []. reflexivity.
  - inversion Hc as [|? ? Hc1 Hc2]; subst.
    destruct (IH Hc2) as [Hf [vs Hvs]].
    destruct t as [at_ [v|e]| |e]; simpl in *; try contradiction;
      try discriminate.
    split; [constructor; [exact I|exact Hf]|].
    rewrite Hvs. eexists. reflexivity.
Qed.

Lemma Exists_rejects_split (l1 l2 : Tasks) :
  Exists rejects (l1 ++ l2) ->
  Forall (fun t => rejectionAt t = None) l1 ->
  Exists rejects l2.
Proof.
  intros Hex Hc. apply Exists_app in Hex as [Hex|Hex]; [|exact Hex].
  exfalso. apply Exists_exists in Hex as (t & Hin & Hr).
  rewrite Forall_forall in Hc. specialize (Hc t Hin).
  destruct t as [at_ [v|e]| |e]; simpl in *; try contradiction; discriminate.
Qed.

Lemma executeParallel_loop_abort (tasks : Tasks) (m : Z) (fuel : nat) :
  1 <= m ->
  forall i results errors,
    0 <= i ->
    Forall settles (skipn (Z.to_nat i) tasks) ->
    Exists rejects (skipn (Z.to_nat i) tasks) ->
    (length (skipn (Z.to_nat i) tasks) < fuel)%nat ->
    exists e,
      executeParallel_loop fuel tasks m true i results errors = Some (Threw e)
      /\ firstFailure m (skipn (Z.to_nat i) tasks) e.
Proof.
  intros Hm. induction fuel as [|fuel IH];
    intros i results errors Hi Hs Hex Hfuel; [lia|].
  cbn [executeParallel_loop].
  destruct (skipn (Z.to_nat i) tasks) as [|t rest] eqn:Erest;
    [inversion Hex|].
  assert (Hin : 0 <= i < Z.of_nat (length tasks)).
  { apply loop_index_inside; [exact Hi|]. rewrite Erest. discriminate. }
  replace (i <? Z.of_nat (length tasks)) with true
    by (symmetry; apply Z.ltb_lt; lia).
  rewrite slice_batch by assumption. rewrite Erest.
  rewrite runBatch_abort. unfold promiseAll.
  set (batch := firstn (Z.to_nat m) (t :: rest)).
  set (later := skipn (Z.to_nat m) (t :: rest)).
  assert (Hsplit : t :: rest = batch ++ later)
    by (symmetry; apply firstn_skipn).
  destruct (firstRejection batch) as [[at_ e]|] eqn:Efirst.
  - exists e. split; [reflexivity|].
    exists [], batch, later, at_, 0%nat. cbn [app].
    repeat split; auto.
    + unfold batch at 1. rewrite <- Hsplit. reflexivity.
    + apply firstRejection_earliest. exact Efirst.
  - pose proof (firstRejection_none batch Efirst) as Hclean.
    destruct (Forall_firstn_skipn settles (Z.to_nat m) (t :: rest) Hs)
      as [Hsb Hsl]. fold batch in Hsb. fold later in Hsl.
    destruct (allFulfilled_clean batch Hsb Hclean) as [Hful [vs Hvs]].
    rewrite Hvs.
    assert (Hex' : Exists rejects later).
    { rewrite Hsplit in Hex. exact (Exists_rejects_split _ _ Hex Hclean). }
    assert (Hnext : skipn (Z.to_nat (i + m)) tasks = later).
    { rewrite skipn_next by lia. rewrite Erest. reflexivity. }
    assert (Hlen : length batch = Z.to_nat m).
    { unfold batch. rewrite length_firstn. apply Nat.min_l.
      assert (later <> []) by (intros ->; inversion Hex').
      destruct (Nat.le_gt_cases (Z.to_nat m) (length (t :: rest)));
        [assumption|].
      exfalso. apply H. unfold later. apply skipn_all2. lia. }
    destruct (IH (i + m) (results ++ notNull vs) (errors ++ []))
      as (e & Hloop & Hff).
    + lia.
    + rewrite Hnext. exact Hsl.
    + rewrite Hnext. exact Hex'.
    + rewrite Hnext. unfold later. rewrite length_skipn.
      simpl length in *. lia.
    + rewrite Hloop. exists e. split; [reflexivity|].
      rewrite Hnext in Hff.
      destruct Hff as (done & batch' & rest' & at_ & k & Hl & Hd & Hb & Hf & He).
      exists (batch ++ done), batch', rest', at_, (S k).
      repeat split; auto.
      * rewrite Hsplit, Hl, <- app_assoc. reflexivity.
      * rewrite length_app, Hlen, Hd. simpl. reflexivity.
      * apply Forall_app. split; assumption.
Qed.

Lemma firstRejection_member (ps : Tasks) at_ e :
  firstRejection ps = Some (at_, e) ->
  exists t, In t ps /\ rejection t = Some (at_, e).
Proof.
  intros H. destruct (firstRejection_earliest ps at_ e H)
    as (before & failed & after & -> & Hf & _).
  exists failed. split; [apply in_elt|exact Hf].
Qed.

Lemma earliest_firstRejection (batch : Tasks) at_ e :
  earliestRejection batch at_ e -> firstRejection batch = Some (at_, e).
Proof.
  intros (before & failed & after & -> & Hfail & Hb & Ha).
  induction before as [|p before IH].
  - cbn [app firstRejection]. rewrite Hfail.
    destruct (firstRejection after) as [[at' e']|] eqn:E; [|reflexivity].
    apply firstRejection_member in E as (t & Hin & Ht).
    rewrite Forall_forall in Ha.
    specialize (Ha _ Hin at' (rejectionAt_rejection _ _ _ Ht)).
    replace (at_ <=? at')%nat with true by (symmetry; apply Nat.leb_le; lia).
    reflexivity.
  - inversion Hb as [|? ? Hp Hb']; subst.
    cbn [app firstRejection]. rewrite (IH Hb').
    destruct (rejection p) as [[a0 e0]|] eqn:Ep; [|reflexivity].
    specialize (Hp a0 (rejectionAt_rejection _ _ _ Ep)).
    replace (a0 <=? at_)%nat with false by (symmetry; apply Nat.leb_gt; lia).
    reflexivity.
Qed.

Lemma fulfilling_batch (batch : Tasks) :
  Forall fulfils batch ->
  firstRejection batch = None /\ exists vs, allFulfilled batch = Some vs.
Proof.
  induction 1 as [|t batch Ht _ [IH1 [vs IH2]]].
  - split; [reflexivity|]. exists []. reflexivity.
  - destruct t as [at_ [v|e]| |e]; simpl in Ht; try contradiction.
    simpl. rewrite IH1, IH2. split; [reflexivity|]. eexists. reflexivity.
Qed.

(** The first failure of a run in abort mode is what the call throws,
    whatever the tasks after it do. *)
Lemma executeParallel_loop_first_failure (tasks : Tasks) (m : Z) e :
  1 <= m ->
  forall k fuel i results errors done batch rest at_,
    0 <= i ->
    skipn (Z.to_nat i) tasks = done ++ batch ++ rest ->
    length done = (k * Z.to_nat m)%nat ->
    batch = firstn (Z.to_nat m) (batch ++ rest) ->
    Forall fulfils done ->
    earliestRejection batch at_ e ->
    (k < fuel)%nat ->
    executeParallel_loop fuel tasks m true i results errors = Some (Threw e).
Proof.
  intros Hm. induction k as [|k IH];
    intros fuel i results errors done batch rest at_ Hi Hskip Hlen Hbatch
           Hful Hearly Hfuel;
    (destruct fuel as [|fuel]; [lia|]); cbn [executeParallel_loop].
  - destruct done; [|discriminate]. cbn [app] in Hskip.
    assert (Hin : 0 <= i < Z.of_nat (length tasks)).
    { apply loop_index_inside; [exact Hi|]. rewrite Hskip.
      destruct Hearly as (before & failed & after & -> & _).
      destruct before; discriminate. }
    replace (i <? Z.of_nat (length tasks)) with true
      by (symmetry; apply Z.ltb_lt; lia).
    rewrite slice_batch, Hskip, <- Hbatch by assumption.
    rewrite runBatch_abort. unfold promiseAll.
    rewrite (earliest_firstRejection batch at_ e Hearly). reflexivity.
  - assert (Hm' : (1 <= Z.to_nat m)%nat) by lia.
    assert (Hge : (Z.to_nat m <= length done)%nat).
    { rewrite Hlen. simpl. lia. }
    assert (Hin : 0 <= i < Z.of_nat (length tasks)).
    { apply loop_index_inside; [exact Hi|]. rewrite Hskip.
      destruct done; [simpl in Hge; lia|discriminate]. }
    replace (i <? Z.of_nat (length tasks)) with true
      by (symmetry; apply Z.ltb_lt; lia).
    rewrite slice_batch, Hskip by assumption.
    rewrite firstn_app.
    replace (Z.to_nat m - length done)%nat with 0%nat by lia.
    rewrite firstn_0, app_nil_r.
    destruct (Forall_firstn_skipn fulfils (Z.to_nat m) done Hful) as [Hf1 Hf2].
    rewrite runBatch_abort. unfold promiseAll.
    destruct (fulfilling_batch _ Hf1) as [-> [vs ->]].
    apply (IH fuel (i + m) _ _ (skipn (Z.to_nat m) done) batch rest at_);
      auto; try lia.
    + rewrite skipn_next by lia. rewrite Hskip, skipn_app.
      replace (Z.to_nat m - length done)%nat with 0%nat by lia.
      reflexivity.
    + rewrite length_skipn, Hlen. simpl. lia.
Qed.

End Abort.

(** C6. In abort mode, with a concurrency of at least 1, a run in which
    some task fails ends by throwing: no results are returned, and what
    is thrown is the first failure of the run, the earliest rejection of
    the first batch that has one.  [executeParallel] has no timer of its
    own, so there every task has to settle; in [executeParallelTasks] a
    task also fails by losing its race against the timer.  A task that
    throws as it is called fails at the call, before every rejection.
    More exactly for [executeParallel]: whenever the run has a first
    failure, which needs the batches before it to fulfil and nothing of
    the tasks beside or after it, that failure is what the call throws. *)
Theorem abort_mode_throws_first_failure {T : Type}
        (numberToString : Z -> string)
        (tasks : list (@Task T)) (m : Z) (timeout : option Z) (fuel : nat) :
  1 <= m ->
  (length tasks < fuel)%nat ->
  (Forall settles tasks -> Exists rejects tasks ->
   exists e,
     executeParallel fuel tasks (Some m) (Some true) = Some (Threw e)
     /\ firstFailure m tasks e)
  /\ (Exists rejects (racedTasks numberToString timeout tasks) ->
      exists e,
        executeParallelTasks numberToString fuel tasks
          {| maxConcurrent := Some m; abortOnError := Some true;
             timeoutMs := timeout |} = Some (Threw e)
        /\ firstFailure m (racedTasks numberToString timeout tasks) e)
  /\ (forall e,
        firstFailure m tasks e ->
        executeParallel fuel tasks (Some m) (Some true) = Some (Threw e)).
Proof.
  intros Hm Hfuel. split; [|split].
  - intros Hs Hex. unfold executeParallel.
    exact (executeParallel_loop_abort tasks m fuel Hm 0 [] []
             (Z.le_refl 0) Hs Hex Hfuel).
  - intros Hex. rewrite executeParallelTasks_race by (left; reflexivity).
    unfold executeParallel.
    apply (executeParallel_loop_abort (racedTasks numberToString timeout tasks)
             m fuel Hm 0 [] [] (Z.le_refl 0)); [apply raced_settle|exact Hex|].
    simpl. unfold racedTasks. rewrite length_map. exact Hfuel.
  - intros e (done & batch & rest & at_ & k & Hl & Hd & Hb & Hf & He).
    unfold executeParallel.
    apply (executeParallel_loop_first_failure tasks m e Hm k fuel 0 [] []
             done batch rest at_); auto; try lia.
    assert (Hk : (k <= length done)%nat) by (rewrite Hd; nia).
    rewrite Hl, length_app in Hfuel. lia.
Qed.

Lemma abort_mode_throws_first_failure_witness :
  (exists e,
     executeParallel 10 settlingTasks (Some 2) (Some true) = Some (Threw e)
     /\ firstFailure 2 settlingTasks e)
  /\ (exists e,
        executeParallelTasks decimal 10 settlingTasks
          {| maxConcurrent := Some 2; abortOnError := Some true;
             timeoutMs := Some 4 |} = Some (Threw e)
        /\ firstFailure 2 (racedTasks decimal (Some 4) settlingTasks) e).
Proof.
  assert (H1 : 1 <= 2) by lia.
  assert (H2 : (length settlingTasks < 10)%nat) by (simpl; lia).
  assert (H3 : Forall settles settlingTasks) by (repeat constructor).
  assert (H4 : Exists rejects settlingTasks)
    by (apply Exists_cons_tl, Exists_cons_hd; exact I).
  assert (H5 : Exists rejects (racedTasks decimal (Some 4) settlingTasks))
    by (apply Exists_cons_hd; exact I).
  destruct (abort_mode_throws_first_failure decimal settlingTasks 2 (Some 4) 10
              H1 H2)
    as (Ha & Hb & _).
  split; [exact (Ha H3 H4)|exact (Hb H5)].
Defined.

(** *** A concurrency that is not positive *)

Lemma executeParallel_loop_zero {T : Type} (t : @Task T) tasks abort fuel :
  forall results errors,
    executeParallel_loop fuel (t :: tasks) 0 abort 0 results errors = None.
Proof.
  induction fuel as [|fuel IH]; intros results errors; [reflexivity|].
  cbn [executeParallel_loop].
  replace (0 <? Z.of_nat (length (t :: tasks))) with true
    by (symmetry; apply Z.ltb_lt; simpl length; lia).
  change (0 + 0) with 0. rewrite slice_empty.
  unfold runBatch. cbn. rewrite !app_nil_r. apply IH.
Qed.

(** With a concurrency below 1 the index of the loop never reaches the
    number of tasks: the call returns no results, whatever the fuel. *)
Lemma executeParallel_loop_nonpositive {T : Type} (tasks : list (@Task T))
      (m : Z) abort fuel :
  m <= 0 -> tasks <> [] ->
  forall i results errors r e,
    i <= 0 ->
    executeParallel_loop fuel tasks m abort i results errors
      <> Some (Returned r e).
Proof.
  intros Hm Hne. induction fuel as [|fuel IH];
    intros i results errors r e Hi; [discriminate|].
  cbn [executeParallel_loop].
  replace (i <? Z.of_nat (length tasks)) with true.
  - destruct (runBatch abort _) as [[vs|err|] pushed].
    + apply IH. lia.
    + destruct abort; [discriminate|]. apply IH. lia.
    + discriminate.
  - symmetry. apply Z.ltb_lt. destruct tasks; [congruence|]. simpl length. lia.
Qed.

Lemma executeParallelTasks_loop_zero {T : Type} (numberToString : Z -> string)
      (t : @Task T) tasks abort timeout fuel :
  forall results errors,
    executeParallelTasks_loop numberToString fuel (t :: tasks) 0 abort timeout
      0 results errors = None.
Proof.
  induction fuel as [|fuel IH]; intros results errors; [reflexivity|].
  cbn [executeParallelTasks_loop].
  replace (0 <? Z.of_nat (length (t :: tasks))) with true
    by (symmetry; apply Z.ltb_lt; simpl length; lia).
  change (0 + 0) with 0. rewrite slice_empty.
  unfold runBatchTasks, runBatch. cbn. rewrite !app_nil_r. apply IH.
Qed.

(** C7. With [maxConcurrent] 0 and a task list that is not empty, neither
    runner raises a configuration error: every batch is the empty slice
    and the index of the loop stays 0, so the call never completes,
    whatever the number of turns granted to it. *)
Theorem zero_concurrency_never_completes {T : Type}
        (numberToString : Z -> string) (t : @Task T)
        (tasks : list (@Task T)) (abort : option bool) (timeout : option Z)
        (fuel : nat) :
  executeParallel fuel (t :: tasks) (Some 0) abort = None
  /\ executeParallelTasks numberToString fuel (t :: tasks)
       {| maxConcurrent := Some 0; abortOnError := abort;
          timeoutMs := timeout |} = None.
Proof.
  split.
  - unfold executeParallel. apply executeParallel_loop_zero.
  - unfold executeParallelTasks. cbn [maxConcurrent abortOnError timeoutMs].
    apply executeParallelTasks_loop_zero.
Qed.

(** *** Timeouts *)


(** A task that settles in time wins its race, and keeps its outcome. *)
Lemma race_in_time {T : Type} timeout message (t : @Task T) :
  1 <= timeout <= TIMEOUT_MAX ->
  (settlesWithin timeout t -> race true timeout message t = t)
  /\ (settlesBefore timeout t -> race false timeout message t = t).
Proof.
  intros Hrange. unfold race. rewrite timerDelay_id by exact Hrange.
  destruct t as [at_ o| |e]; simpl; [|tauto|tauto].
  split; intros H.
  - replace (at_ <=? Z.to_nat timeout)%nat with true; [reflexivity|].
    symmetry. apply Nat.leb_le. lia.
  - replace (at_ <? Z.to_nat timeout)%nat with true; [reflexivity|].
    symmetry. apply Nat.ltb_lt. lia.
Qed.

Lemma map_id_on {A : Type} (f : A -> A) (P : A -> Prop) (l : list A) :
  (forall x, P x -> f x = x) -> Forall P l -> map f l = l.
Proof.
  intros Hf. induction 1 as [|x l Hx _ IH]; [reflexivity|].
  cbn [map]. rewrite Hf, IH by exact Hx. reflexivity.
Qed.

Lemma asyncFunction_settles {T : Type} (t : @Task T) :
  settles t -> settles (asyncFunction t).
Proof. destruct t as [at_ o| |e]; intros H; exact H || exact I. Qed.

Lemma asyncFunction_survivor {T : Type} (tasks : list (@Task T)) :
  flat_map survivor (map asyncFunction tasks) = flat_map survivor tasks.
Proof.
  induction tasks as [|t tasks IH]; [reflexivity|].
  cbn [map flat_map]. rewrite IH. destruct t as [at_ o| |e]; reflexivity.
Qed.




End BatchFacts.

(** ** More on retries and on the queue under any interleaving *)

Module RequestQueueMoreFacts.
Import RateLimiter RequestQueueMore Samples CeilingFacts RetryFacts QueueFacts.

Section Retrying.

Context {T : Type}.
Variable options : Options.

Lemma executeWithRetry_stops (k : nat) :
  forall (fn : @RequestFn T) fuel calls attempt,
    (forall j, (j < k)%nat -> rateLimited (outcome (fn (calls + j)%nat)) = true) ->
    rateLimited (outcome (fn (calls + k)%nat)) = false ->
    attempt + Z.of_nat k <= retryCount options + 1 ->
    (k < fuel)%nat ->
    executeWithRetry options fuel fn calls attempt =
      Some {| result := outcome (fn (calls + k)%nat);
              invocations := S k;
              elapsed := latencies fn calls k + backoff options attempt k |}.
Proof.
  induction k as [|k IH]; intros fn fuel calls attempt Hlim Hlast Hatt Hfuel;
    (destruct fuel as [|fuel]; [lia|]); cbn [executeWithRetry latencies backoff].
  - rewrite Nat.add_0_r in *. unfold rateLimited in Hlast.
    destruct (outcome (fn calls)) as [v|e].
    + f_equal. f_equal. lia.
    + rewrite Hlast. cbn [negb orb]. f_equal. f_equal. lia.
  - pose proof (Hlim 0%nat ltac:(lia)) as H0. rewrite Nat.add_0_r in H0.
    unfold rateLimited in H0.
    destruct (outcome (fn calls)) as [v|e]; [discriminate|].
    rewrite H0. cbn [negb orb].
    replace (retryCount options <? attempt) with false
      by (symmetry; apply Z.ltb_ge; lia).
    rewrite (IH fn fuel (S calls) (attempt + 1)).
    + cbn [result invocations elapsed].
      replace (S calls + k)%nat with (calls + S k)%nat by lia.
      f_equal. f_equal. lia.
    + intros j Hj. replace (S calls + j)%nat with (calls + S j)%nat by lia.
      apply Hlim. lia.
    + replace (S calls + k)%nat with (calls + S k)%nat by lia. exact Hlast.
    + lia.
    + lia.
Qed.

Lemma backoff_linear (k : nat) :
  forall attempt,
    1 <= attempt ->
    1 <= retryDelayMs options ->
    retryDelayMs options * (attempt + Z.of_nat k) <= TIMEOUT_MAX ->
    2 * backoff options attempt k =
    retryDelayMs options * Z.of_nat k * (2 * attempt + Z.of_nat k - 1).
Proof.
  induction k as [|k IH]; intros attempt Ha Hd Hmax; cbn [backoff]; [lia|].
  rewrite timerDelay_id by nia.
  specialize (IH (attempt + 1) ltac:(lia) Hd ltac:(nia)). nia.
Qed.

End Retrying.

(** X1. [executeWithRetry] calls the request again only after a rate-limit
    rejection: when the calls before call number [k] are rejected with
    status 429 and call [k] is not (it succeeds, or fails otherwise),
    with [k] no more than [retryCount], the request is called [k + 1]
    times and the outcome of call [k] is the result. *)
Theorem retry_stops_at_first_other_outcome {T : Type} (options : Options)
        (fn : @RequestFn T) (k fuel : nat) :
  (forall j, (j < k)%nat -> rateLimited (outcome (fn j)) = true) ->
  rateLimited (outcome (fn k)) = false ->
  Z.of_nat k <= retryCount options ->
  (k < fuel)%nat ->
  exists r,
    executeWithRetry options fuel fn 0 1 = Some r
    /\ result r = outcome (fn k)
    /\ invocations r = S k.
Proof.
  intros Hlim Hlast Hk Hfuel.
  rewrite (executeWithRetry_stops options k fn fuel 0 1); auto; [|lia].
  eexists. split; [reflexivity|]. split; reflexivity.
Qed.

Lemma retry_stops_at_first_other_outcome_witness :
  exists r,
    executeWithRetry (RequestQueue_options (mkRateLimitOptions None None None))
      5 (fun j => if (j <? 2)%nat
                  then {| latency := 10;
                          outcome := Rejected (FirecrawlError "Rate limit exceeded" 429) |}
                  else {| latency := 10; outcome := Resolved 7%nat |}) 0 1
      = Some r
    /\ result r = Resolved 7%nat
    /\ invocations r = 3%nat.
Proof.
  apply (retry_stops_at_first_other_outcome
           (RequestQueue_options (mkRateLimitOptions None None None))
           (fun j => if (j <? 2)%nat
                     then {| latency := 10;
                             outcome := Rejected (FirecrawlError "Rate limit exceeded" 429) |}
                     else {| latency := 10; outcome := Resolved 7%nat |})
           2 5).
  - intros j Hj. destruct j as [|[|j]]; [reflexivity|reflexivity|lia].
  - reflexivity.
  - simpl. lia.
  - lia.
Defined.

(** X2. The backoff is linear: with a delay [retryDelayMs] of at least
    1 ms (and delays within the range of the timers), a request that is
    retried [k] times has waited retryDelayMs * (1 + 2 + ... + k)
    between its calls, on top of the latencies of its [k + 1] calls. *)
Theorem retry_backoff_is_linear {T : Type} (options : Options)
        (fn : @RequestFn T) (k fuel : nat) :
  (forall j, (j < k)%nat -> rateLimited (outcome (fn j)) = true) ->
  rateLimited (outcome (fn k)) = false ->
  Z.of_nat k <= retryCount options ->
  (k < fuel)%nat ->
  1 <= retryDelayMs options ->
  retryDelayMs options * (1 + Z.of_nat k) <= TIMEOUT_MAX ->
  exists r,
    executeWithRetry options fuel fn 0 1 = Some r
    /\ 2 * (elapsed r - latencies fn 0 k)
       = retryDelayMs options * Z.of_nat k * (Z.of_nat k + 1).
Proof.
  intros Hlim Hlast Hk Hfuel Hd Hmax.
  rewrite (executeWithRetry_stops options k fn fuel 0 1); auto; [|lia].
  eexists. split; [reflexivity|]. cbn [elapsed].
  pose proof (backoff_linear options k 1 ltac:(lia) Hd Hmax). nia.
Qed.

Lemma retry_backoff_is_linear_witness :
  exists r,
    executeWithRetry (RequestQueue_options (mkRateLimitOptions None None None))
      5 (fun j => if (j <? 2)%nat
                  then {| latency := 10;
                          outcome := Rejected (FirecrawlError "Rate limit exceeded" 429) |}
                  else {| latency := 10; outcome := Resolved 7%nat |}) 0 1
      = Some r
    /\ 2 * (elapsed r
            - latencies
                (fun j => if (j <? 2)%nat
                          then {| latency := 10;
                                  outcome := Rejected (FirecrawlError "Rate limit exceeded" 429) |}
                          else {| latency := 10; outcome := Resolved 7%nat |}) 0 2)
       = retryDelayMs (RequestQueue_options (mkRateLimitOptions None None None))
         * Z.of_nat 2 * (Z.of_nat 2 + 1).
Proof.
  apply (retry_backoff_is_linear
           (RequestQueue_options (mkRateLimitOptions None None None))
           (fun j => if (j <? 2)%nat
                     then {| latency := 10;
                             outcome := Rejected (FirecrawlError "Rate limit exceeded" 429) |}
                     else {| latency := 10; outcome := Resolved 7%nat |})
           2 5).
  - intros j Hj. destruct j as [|[|j]]; [reflexivity|reflexivity|lia].
  - reflexivity.
  - simpl. lia.
  - lia.
  - simpl. lia.
  - unfold TIMEOUT_MAX. simpl. lia.
Defined.

End RequestQueueMoreFacts.

(** ** The queue under any interleaving of calls *)

Module InterleavingFacts.
Import RateLimiter RequestQueueMore Samples CeilingFacts RetryFacts QueueFacts.

Section Interleaving.

Context {T : Type}.
Variable options : Options.

Abbreviation State := (@QueueState T).

Lemma processQueue_queue now (s : State) :
  grantedBy (Some (snd (processQueue options now s)))
    ++ queue (fst (processQueue options now s)) = queue s.
Proof.
  unfold processQueue. destruct (queue s) as [|p rest]; [reflexivity|].
  destruct (maxRequestsPerMinute options <=? _); reflexivity.
Qed.

Lemma step_queue now ev (s : State) :
  grantedBy (snd (step options now ev s)) ++ queue (fst (step options now ev s))
  = queue s ++ enqueuedBy [(now, ev)].
Proof.
  destruct ev as [p|]; cbn [step enqueuedBy].
  - unfold enqueue. cbn [processing queue].
    destruct (processing s).
    + reflexivity.
    + pose proof (processQueue_queue now
        {| queue := queue s ++ [p]; processing := false;
           requestTimestamps := requestTimestamps s |}) as H.
      destruct (processQueue options now _) as [s2 a]. exact H.
  - pose proof (processQueue_queue now s) as H.
    destruct (processQueue options now s) as [s2 a].
    cbn [fst snd] in *. rewrite app_nil_r. exact H.
Qed.

Lemma enqueuedBy_cons now ev (evs : list (Z * @Event T)) :
  enqueuedBy ((now, ev) :: evs) = enqueuedBy [(now, ev)] ++ enqueuedBy evs.
Proof. destruct ev; reflexivity. Qed.

Lemma runEventsRequests_conserves (evs : list (Z * @Event T)) :
  forall (s : State) started,
    snd (runEventsRequests options evs s started)
      ++ queue (fst (runEventsRequests options evs s started))
    = started ++ queue s ++ enqueuedBy evs.
Proof.
  induction evs as [|[now ev] evs IH]; intros s started.
  - cbn. rewrite app_nil_r. reflexivity.
  - cbn [runEventsRequests]. pose proof (step_queue now ev s) as Hstep.
    destruct (step options now ev s) as [s' a]. cbn [fst snd] in Hstep.
    rewrite IH, enqueuedBy_cons, <- !app_assoc.
    f_equal. rewrite !app_assoc. f_equal. exact Hstep.
Qed.

Lemma processQueue_window_length now (s : State) :
  Z.of_nat (length (requestTimestamps (fst (processQueue options now s))))
  <= Z.max (maxRequestsPerMinute options)
           (Z.of_nat (length (requestTimestamps s))).
Proof.
  unfold processQueue. destruct (queue s) as [|p rest]; cbn [fst requestTimestamps].
  - lia.
  - pose proof (filter_length_le (fun t => now - 60000 <? t) (requestTimestamps s))
      as Hle.
    fold (purge now (requestTimestamps s)) in Hle.
    destruct (maxRequestsPerMinute options
                <=? Z.of_nat (length (purge now (requestTimestamps s)))) eqn:E;
      cbn [fst requestTimestamps].
    + lia.
    + apply Z.leb_gt in E. rewrite length_app. cbn [length]. lia.
Qed.

Lemma step_window_length now ev (s : State) :
  Z.of_nat (length (requestTimestamps (fst (step options now ev s))))
  <= Z.max (maxRequestsPerMinute options)
           (Z.of_nat (length (requestTimestamps s))).
Proof.
  destruct ev as [p|]; cbn [step].
  - unfold enqueue. cbn [processing].
    destruct (processing s); cbn [fst requestTimestamps]; [lia|].
    pose proof (processQueue_window_length now
      {| queue := queue s ++ [p]; processing := false;
         requestTimestamps := requestTimestamps s |}) as H.
    destruct (processQueue options now _) as [s2 a]. exact H.
  - pose proof (processQueue_window_length now s) as H.
    destruct (processQueue options now s) as [s2 a]. exact H.
Qed.

Lemma step_attended now ev (s : State) :
  (queue s <> [] -> processing s = true) ->
  queue (fst (step options now ev s)) <> [] ->
  processing (fst (step options now ev s)) = true.
Proof.
  intros Hinv. destruct ev as [p|]; cbn [step].
  - unfold enqueue. cbn [processing].
    destruct (processing s) eqn:Ep; cbn [fst processing]; [reflexivity|].
    unfold processQueue. cbn [queue].
    destruct (queue s ++ [p]) as [|q rest] eqn:Eq.
    + intros H. exfalso. apply H. reflexivity.
    + destruct (maxRequestsPerMinute options <=? _); reflexivity.
  - unfold processQueue. destruct (queue s) as [|q rest].
    + intros H. exfalso. apply H. reflexivity.
    + destruct (maxRequestsPerMinute options <=? _); reflexivity.
Qed.

End Interleaving.

(** X3. Whatever the calls of [enqueue] and the runs of [processQueue],
    and whenever they happen, the queue neither loses, duplicates nor
    reorders a request: the requests started so far, in the order in
    which they were started, followed by those still queued, are the
    requests that were queued at first followed by those submitted, in
    the order of submission. *)
Theorem fifo_under_any_interleaving {T : Type} (options : Options)
        (evs : list (Z * @Event T)) (s : @QueueState T) :
  snd (runEventsRequests options evs s [])
    ++ queue (fst (runEventsRequests options evs s []))
  = queue s ++ enqueuedBy evs.
Proof. exact (runEventsRequests_conserves options evs s []). Qed.

(** X4. The window never grows beyond the ceiling: after any calls of
    [enqueue] and runs of [processQueue], [requestTimestamps] holds no
    more entries than the ceiling, or than it held at first if that was
    more. *)
Theorem window_never_longer_than_ceiling {T : Type} (options : Options)
        (evs : list (Z * @Event T)) (s : @QueueState T) (log : list Z) :
  Z.of_nat (length (requestTimestamps (fst (runEvents options evs s log))))
  <= Z.max (maxRequestsPerMinute options)
           (Z.of_nat (length (requestTimestamps s))).
Proof.
  revert s log. induction evs as [|[now ev] evs IH]; intros s log.
  - cbn. lia.
  - cbn [runEvents]. pose proof (step_window_length options now ev s) as Hstep.
    destruct (step options now ev s) as [s' a]. cbn [fst] in Hstep.
    specialize (IH s' (log ++ admissionAt now a)). lia.
Qed.

(** X5. No request is left unattended: on a queue that starts empty,
    after any calls of [enqueue] and runs of [processQueue], a queue
    that is not empty has [processing] set, that is, a timer or an
    awaited request that will run [processQueue] again. *)
Theorem queued_requests_are_attended {T : Type} (options : Options)
        (evs : list (Z * @Event T)) (log : list Z) :
  queue (fst (runEvents options evs (@emptyQueue T) log)) <> [] ->
  processing (fst (runEvents options evs (@emptyQueue T) log)) = true.
Proof.
  assert (H : forall (s : @QueueState T) log,
             (queue s <> [] -> processing s = true) ->
             queue (fst (runEvents options evs s log)) <> [] ->
             processing (fst (runEvents options evs s log)) = true).
  { induction evs as [|[now ev] evs IH]; intros s log0 Hinv.
    - exact Hinv.
    - cbn [runEvents]. pose proof (step_attended options now ev s Hinv) as Hstep.
      destruct (step options now ev s) as [s' a]. cbn [fst] in Hstep.
      apply IH. exact Hstep. }
  apply H. intros Hq. exfalso. apply Hq. reflexivity.
Qed.

Lemma queued_requests_are_attended_witness :
  processing
    (fst (runEvents (RequestQueue_options (mkRateLimitOptions (Some 1) None None))
            [ (0, Enqueue {| pid := 0; requestFn := sampleRequest |});
              (0, Enqueue {| pid := 1; requestFn := sampleRequest |});
              (40, Wake) ] emptyQueue [])) = true.
Proof.
  apply queued_requests_are_attended. vm_compute. discriminate.
Defined.

Section Settling.

Context {T : Type}.

Lemma sequential_elapsed from (log : list (@Admission T)) :
  sequential from log ->
  forall i a, nth_error log i = Some a ->
    from + elapsedTotal log (S i) <= settledAt a.
Proof.
  revert from. induction log as [|x log IH]; intros from Hseq i a Hi.
  - destruct i; discriminate.
  - destruct Hseq as (H1 & H2 & H3). destruct i as [|i]; cbn [nth_error] in Hi.
    + injection Hi as <-. cbn [elapsedTotal]. unfold settledAt.
      destruct log; cbn [elapsedTotal]; lia.
    + specialize (IH _ H3 i a Hi). cbn [elapsedTotal].
      cbn [elapsedTotal] in IH. unfold settledAt in IH at 1. lia.
Qed.

End Settling.

(** X6. Requests submitted together run one at a time: in a burst on a
    new queue the request at position [i] settles no earlier than the
    time of the burst plus the time taken, retries and backoff included,
    by every request up to it. *)
Theorem requests_settle_one_after_the_other {T : Type} (options : Options)
        (lag : nat -> nat) (now : Z) (fns : list (@RequestFn T)) (fuel : nat) :
  1 <= maxRequestsPerMinute options ->
  (burstFuel options fns <= fuel)%nat ->
  exists s log,
    burst options lag fuel now fns = Some (s, log)
    /\ map request log = submissions 0 fns
    /\ Forall (ranToSettlement options) log
    /\ forall i a, nth_error log i = Some a ->
         now + elapsedTotal log (S i) <= settledAt a.
Proof.
  intros HR Hfuel.
  destruct (burst_drains options lag HR now fns fuel Hfuel)
    as (s & log & Hrun & Hmap & Hseq & Hran & _).
  exists s, log. repeat split; auto.
  exact (sequential_elapsed now log Hseq).
Qed.

Lemma requests_settle_one_after_the_other_witness :
  exists s log,
    burst (RequestQueue_options (mkRateLimitOptions None None None)) noLag
          20 1000 [succeedsAfter 5000; alwaysRateLimited; succeedsAfter 10]
      = Some (s, log)
    /\ map request log =
         submissions 0 [succeedsAfter 5000; alwaysRateLimited; succeedsAfter 10]
    /\ Forall (ranToSettlement
                 (RequestQueue_options (mkRateLimitOptions None None None))) log
    /\ forall i a, nth_error log i = Some a ->
         1000 + elapsedTotal log (S i) <= settledAt a.
Proof.
  apply requests_settle_one_after_the_other.
  - simpl. lia.
  - vm_compute. lia.
Defined.

End InterleavingFacts.

(** ** How long a queued request waits *)

Module WaitFacts.
Import RateLimiter RequestQueueMore RequestQueueWaits Samples TimerFacts
       CeilingFacts RetryFacts QueueFacts.

Section Waiting.

Context {T : Type}.
Variable options : Options.
Variable lag : nat -> nat.
Variable late : nat.
Hypothesis ceiling_pos : 1 <= maxRequestsPerMinute options.
Hypothesis lag_bounded : forall k, (lag k <= late)%nat.

Abbreviation State := (@QueueState T).
Abbreviation Log := (list (@Admission T)).
Abbreviation bound := (60100 + 2 * Z.of_nat late).

Lemma deferral_short now (s : State) (hist : list Z) waitTime :
  windowOf options now s (Deferred waitTime) hist ->
  deferredFor now s (Deferred waitTime) ->
  0 <= timerDelayOpt (plus100 waitTime) <= 60100.
Proof.
  intros Hwin (oldest & others & Hst & Hw & Hold & Hq).
  assert (Hle : oldest <= now).
  { apply (stored_in_hist options now s (Deferred waitTime) hist); [exact Hwin|].
    rewrite Hst. left. reflexivity. }
  subst waitTime. cbn [timerDelayOpt plus100].
  rewrite timerDelay_id by (unfold TIMEOUT_MAX; lia). lia.
Qed.

Lemma eventLoop_prompt (fuel : nat) :
  forall k now (s : State) a (log : Log) from,
    windowOf options now s a (map admittedAt log ++ pendingStamp now a) ->
    deferredFor now s a ->
    (a = Idle -> queue s = [] /\ processing s = false) ->
    (stepsLeft s a + 1 + callsLeft options 1 <= fuel)%nat ->
    match a with
    | Idle => True
    | Deferred _ => now + 60100 + Z.of_nat late <= from + bound
    | Granted _ => now <= from + bound
    end ->
    exists s' log2,
      eventLoop options lag fuel k now s a log = Some (s', log ++ log2)
      /\ promptly bound from log2.
Proof.
  induction fuel as [|fuel IH]; intros k now s a log from Hwin Hdef Hidle Hfuel Hdue;
    [lia|].
  cbn [eventLoop]. destruct a as [|waitTime|p].
  - exists s, []. rewrite app_nil_r. split; [reflexivity|exact I].
  - cbn [pendingStamp] in Hwin. rewrite app_nil_r in Hwin.
    pose proof (deferral_short now s _ waitTime Hwin Hdef) as Hshort.
    pose proof (lag_bounded k) as Hlag.
    set (now' := now + timerDelayOpt (plus100 waitTime) + Z.of_nat (lag k)) in *.
    destruct (deferral_ends options now s _ waitTime now' Hwin Hdef)
      as (p & rest & Hq & Hpq); [unfold now'; lia|].
    rewrite Hpq.
    assert (Hge : now <= now') by (unfold now'; lia).
    destruct (processQueue_next options ceiling_pos now now' s _ _ Hge Hwin Hdef _ _ Hpq)
      as (Hwin' & Hdef' & Hqueue & _).
    destruct (IH (S k) now' _ (Granted p) log from Hwin' Hdef')
      as (s'' & log2 & Hrun & Hprompt).
    + discriminate.
    + cbn [stepsLeft queue]. cbn [stepsLeft] in Hfuel. rewrite Hq in Hfuel.
      simpl length in Hfuel. lia.
    + unfold now'. lia.
    + exists s'', log2. rewrite Hrun. split; [reflexivity|exact Hprompt].
  - destruct (executeWithRetry_total options fuel (requestFn p) 0 1)
      as (r & Hr & Hel & _); [cbn [stepsLeft] in Hfuel; lia|].
    rewrite Hr.
    pose proof (lag_bounded k) as Hlag.
    set (now' := now + elapsed r + Z.of_nat (lag k)) in *.
    assert (Hge : now <= now') by (unfold now'; lia).
    destruct (processQueue options now' s) as [s' a'] eqn:Hpq.
    destruct (processQueue_next options ceiling_pos now now' s _ _ Hge Hwin Hdef _ _ Hpq)
      as (Hwin' & Hdef' & Hqueue & Hidle').
    set (entry := {| request := p; admittedAt := now; run := r |}).
    assert (Hhist : map admittedAt (log ++ [entry]) =
                    map admittedAt log ++ pendingStamp now (Granted p)).
    { rewrite map_app. reflexivity. }
    rewrite <- Hhist in Hwin'.
    destruct (IH (S k) now' s' a' (log ++ [entry]) (settledAt entry)
                Hwin' Hdef' Hidle')
      as (s'' & log2 & Hrun & Hprompt).
    + pose proof (stepsLeft_processQueue options now' s s' a' Hpq).
      cbn [stepsLeft] in Hfuel. lia.
    + unfold settledAt, entry. cbn [admittedAt run].
      destruct a'; [exact I| |]; unfold now'; lia.
    + exists s'', (entry :: log2). rewrite Hrun.
      rewrite <- app_assoc. cbn [app].
      split; [reflexivity|].
      cbn [promptly]. split; [exact Hdue|exact Hprompt].
Qed.

Lemma promptly_nth from (log : Log) :
  promptly bound from log ->
  forall i a b,
    nth_error log i = Some a -> nth_error log (S i) = Some b ->
    admittedAt b <= settledAt a + bound.
Proof.
  revert from. induction log as [|x log IH]; intros from Hp i a b Hi Hj.
  - destruct i; discriminate.
  - destruct Hp as [_ Hp]. destruct i as [|i]; cbn [nth_error] in Hi, Hj.
    + injection Hi as <-. destruct log as [|y log]; [discriminate|].
      cbn [nth_error] in Hj. injection Hj as <-. apply Hp.
    + exact (IH _ Hp i a b Hi Hj).
Qed.

Lemma burst_prompt now (fns : list (@RequestFn T)) fuel :
  (burstFuel options fns <= fuel)%nat ->
  exists s log,
    burst options lag fuel now fns = Some (s, log)
    /\ promptly bound now log.
Proof.
  intros Hfuel. unfold burst, burstFuel in *.
  destruct fns as [|fn fns].
  - simpl. exists emptyQueue, []. split; [reflexivity|exact I].
  - cbn [submissions enqueueAll]. unfold enqueue at 1.
    cbn [processing emptyQueue queue app requestTimestamps].
    set (p := {| pid := 0; requestFn := fn |}).
    destruct (processQueue_decision options now
                {| queue := [p]; processing := false; requestTimestamps := [] |}
                p [] eq_refl) as [Hadm _].
    cbn [requestTimestamps] in Hadm. unfold purge in Hadm. simpl filter in Hadm.
    rewrite Hadm by (simpl; lia). cbn [app].
    rewrite enqueueAll_processing by reflexivity.
    cbn [queue app requestTimestamps].
    destruct (eventLoop_prompt fuel 0 now
                {| queue := submissions 1 fns; processing := true;
                   requestTimestamps := [now] |} (Granted p) [] now)
      as (s' & log2 & Hrun & Hprompt).
    + cbn [map app pendingStamp]. split.
      * simpl. lia.
      * exists now. split; [lia|]. split; [|split].
        -- constructor; [lia|constructor].
        -- cbn [requestTimestamps]. rewrite purge_now. reflexivity.
        -- cbn [purgedFor last]. split; reflexivity.
    + exact I.
    + discriminate.
    + cbn [stepsLeft queue]. rewrite submissions_length.
      simpl length in Hfuel. lia.
    + lia.
    + exists s', log2. cbn [app] in Hrun. rewrite Hrun.
      split; [reflexivity|exact Hprompt].
Qed.

End Waiting.

(** X7. A queued request is not kept waiting longer than the rate limit
    needs: in a burst on a new queue, when no callback of the event loop
    runs more than [late] milliseconds late, each request is admitted
    after the settlement of the one before it and at most
    60100 + 2 * late milliseconds after it. *)
Theorem next_admission_within_a_minute {T : Type} (options : Options)
        (lag : nat -> nat) (late : nat) (now : Z)
        (fns : list (@RequestFn T)) (fuel : nat) :
  1 <= maxRequestsPerMinute options ->
  (forall k, (lag k <= late)%nat) ->
  (burstFuel options fns <= fuel)%nat ->
  exists s log,
    burst options lag fuel now fns = Some (s, log)
    /\ map request log = submissions 0 fns
    /\ forall i a b,
         nth_error log i = Some a -> nth_error log (S i) = Some b ->
         settledAt a <= admittedAt b <= settledAt a + 60100 + 2 * Z.of_nat late.
Proof.
  intros HR Hlag Hfuel.
  destruct (burst_drains options lag HR now fns fuel Hfuel)
    as (s & log & Hrun & Hmap & Hseq & _).
  destruct (burst_prompt options lag late HR Hlag now fns fuel Hfuel)
    as (s2 & log2 & Hrun2 & Hprompt).
  rewrite Hrun in Hrun2. injection Hrun2 as <- <-.
  exists s, log. split; [exact Hrun|]. split; [exact Hmap|].
  intros i a b Hi Hj. split.
  - apply (sequential_nth now log Hseq i (S i) a b); [lia|exact Hi|exact Hj].
  - pose proof (promptly_nth late now log Hprompt i a b Hi Hj). lia.
Qed.

Lemma next_admission_within_a_minute_witness :
  exists s log,
    burst (RequestQueue_options (mkRateLimitOptions (Some 1) None None)) noLag
          20 1000 [succeedsAfter 5000; alwaysRateLimited; succeedsAfter 10]
      = Some (s, log)
    /\ map request log =
         submissions 0 [succeedsAfter 5000; alwaysRateLimited; succeedsAfter 10]
    /\ forall i a b,
         nth_error log i = Some a -> nth_error log (S i) = Some b ->
         settledAt a <= admittedAt b <= settledAt a + 60100 + 2 * Z.of_nat 0.
Proof.
  apply next_admission_within_a_minute.
  - simpl. lia.
  - intros k. unfold noLag. lia.
  - vm_compute. lia.
Defined.

End WaitFacts.

(** ** The batch runners at the edges of their options *)

Module BatchRunnerMoreFacts.
Import BatchRunner BatchRunnerMore Samples TimerFacts BatchFacts.

Section Edges.

Context {T : Type}.

Abbreviation Tasks := (list (@Task T)).

Lemma fulfils_settles (tasks : Tasks) :
  Forall fulfils tasks -> Forall settles tasks.
Proof.
  apply Forall_impl. intros [at_ [v|e]| |e]; simpl; tauto.
Qed.

Lemma fulfilling_no_failure (tasks : Tasks) :
  Forall fulfils tasks -> flat_map failure tasks = [].
Proof.
  induction 1 as [|t tasks Ht _ IH]; [reflexivity|].
  cbn [flat_map]. rewrite IH.
  destruct t as [at_ [v|e]| |e]; simpl in *; tauto.
Qed.

Lemma allFulfilled_values (batch : Tasks) :
  Forall fulfils batch -> allFulfilled batch = Some (map valueOrNull batch).
Proof.
  induction 1 as [|t batch Ht _ IH]; [reflexivity|].
  destruct t as [at_ [v|e]| |e]; simpl in Ht; try tauto.
  cbn [allFulfilled map valueOrNull]. rewrite IH. reflexivity.
Qed.

Lemma runBatch_fulfilling (batch : Tasks) abort :
  Forall fulfils batch ->
  runBatch abort batch = (Fulfilled (map valueOrNull batch), []).
Proof.
  intros Hall. destruct abort.
  - rewrite runBatch_abort. unfold promiseAll.
    destruct (fulfilling_batch batch Hall) as [-> _].
    rewrite (allFulfilled_values batch Hall). reflexivity.
  - destruct (runBatch_partial batch (fulfils_settles batch Hall))
      as (pushed & -> & Hperm).
    rewrite (fulfilling_no_failure batch Hall) in Hperm.
    apply Permutation_sym, Permutation_nil in Hperm. subst. reflexivity.
Qed.

Lemma slice_Forall {A : Type} (P : A -> Prop) (l : list A) i j :
  Forall P l -> Forall P (slice l i j).
Proof.
  intros H. unfold slice.
  apply (Forall_firstn_skipn P _ _), (Forall_firstn_skipn P _ _), H.
Qed.

Lemma executeParallel_loop_no_failure (tasks : Tasks) m fuel :
  Forall fulfils tasks ->
  forall i results errors,
    executeParallel_loop fuel tasks m true i results errors =
    executeParallel_loop fuel tasks m false i results errors.
Proof.
  intros Hall. induction fuel as [|fuel IH]; intros i results errors;
    [reflexivity|].
  cbn [executeParallel_loop].
  destruct (i <? Z.of_nat (length tasks)); [|reflexivity].
  rewrite !(runBatch_fulfilling (slice tasks i (i + m)))
    by (apply slice_Forall, Hall).
  apply IH.
Qed.

Lemma timerDelay_unusable timeout :
  timeout < 1 \/ TIMEOUT_MAX < timeout -> timerDelay timeout = 1.
Proof.
  intros H. unfold timerDelay.
  destruct (timeout <? 1) eqn:E1; [reflexivity|].
  destruct (TIMEOUT_MAX <? timeout) eqn:E2; [reflexivity|].
  apply Z.ltb_ge in E1, E2. lia.
Qed.

Lemma race_unusable taskFirst timeout message (t : @Task T) :
  timeout < 1 \/ TIMEOUT_MAX < timeout ->
  takesOver 1 t ->
  race taskFirst timeout message t = Settles 1 (Rejected (PlainError message)).
Proof.
  intros Hbad Hslow. unfold race. rewrite (timerDelay_unusable timeout Hbad).
  destruct t as [at_ o| |e]; [|reflexivity|destruct Hslow]. simpl in Hslow.
  change (Z.to_nat 1) with 1%nat.
  replace (at_ <=? 1)%nat with false by (symmetry; apply Nat.leb_gt; lia).
  replace (at_ <? 1)%nat with false by (symmetry; apply Nat.ltb_ge; lia).
  destruct taskFirst; reflexivity.
Qed.

Lemma all_timed_out (e : Thrown) (tasks : Tasks) :
  flat_map survivor (map (fun _ => Settles (T := T) 1 (Rejected e)) tasks) = []
  /\ flat_map failure (map (fun _ => Settles (T := T) 1 (Rejected e)) tasks)
     = repeat (asError e) (length tasks).
Proof.
  induction tasks as [|t tasks [IH1 IH2]]; [split; reflexivity|].
  cbn [map flat_map survivor failure length repeat app].
  rewrite IH1, IH2. split; reflexivity.
Qed.

Lemma executeParallelTasks_loop_negative (numberToString : Z -> string)
      (tasks : Tasks) m timeout fuel :
  m <= 0 -> tasks <> [] ->
  forall i results errors,
    i <= 0 ->
    executeParallelTasks_loop numberToString fuel tasks m false timeout
      i results errors = None.
Proof.
  intros Hm Hne. induction fuel as [|fuel IH]; intros i results errors Hi;
    [reflexivity|].
  cbn [executeParallelTasks_loop].
  replace (i <? Z.of_nat (length tasks)) with true.
  - unfold runBatchTasks. destruct (firstThrown _) as [e|]; [apply IH; lia|].
    destruct (runBatch_partial
                (map (race true timeout (timedOutAfter numberToString timeout))
                     (slice tasks i (i + m))))
      as (pushed & -> & _); [apply raced_settle|].
    apply IH. lia.
  - symmetry. apply Z.ltb_lt. destruct tasks; [congruence|]. simpl length. lia.
Qed.

Lemma takesOver_returnsPromise (tasks : Tasks) :
  Forall (takesOver 1) tasks -> Forall returnsPromise tasks.
Proof.
  apply Forall_impl. intros [at_ o| |e]; simpl; tauto.
Qed.

Lemma settlesWithin_returnsPromise timeout (tasks : Tasks) :
  Forall (settlesWithin timeout) tasks -> Forall returnsPromise tasks.
Proof.
  apply Forall_impl. intros [at_ o| |e]; simpl; tauto.
Qed.

Lemma executeParallel_loop_negative (tasks : Tasks) m fuel :
  m <= 0 -> tasks <> [] -> Forall settles tasks ->
  forall i results errors,
    i <= 0 ->
    executeParallel_loop fuel tasks m false i results errors = None.
Proof.
  intros Hm Hne Hall. induction fuel as [|fuel IH]; intros i results errors Hi;
    [reflexivity|].
  cbn [executeParallel_loop].
  replace (i <? Z.of_nat (length tasks)) with true.
  - destruct (runBatch_partial (slice tasks i (i + m)))
      as (pushed & -> & _); [apply slice_Forall, Hall|].
    apply IH. lia.
  - symmetry. apply Z.ltb_lt. destruct tasks; [congruence|]. simpl length. lia.
Qed.

End Edges.

(** X8. When no task fails, [abortOnError] changes nothing: if every
    task fulfils, [executeParallel] returns with either setting the
    results that are not [null], in the order of the tasks, and no
    error is recorded. *)
Theorem abort_flag_idle_when_nothing_fails {T : Type}
        (tasks : list (@Task T)) (m : Z) (abort : bool) (fuel : nat) :
  1 <= m ->
  (length tasks < fuel)%nat ->
  Forall fulfils tasks ->
  executeParallel fuel tasks (Some m) (Some abort)
    = Some (Returned (flat_map survivor tasks) []).
Proof.
  intros Hm Hfuel Hall.
  assert (Hpartial : executeParallel fuel tasks (Some m) (Some false)
                     = Some (Returned (flat_map survivor tasks) [])).
  { destruct (executeParallel_partial tasks m fuel Hm Hfuel
                (fulfils_settles tasks Hall)) as (errors & -> & Hperm).
    rewrite (fulfilling_no_failure tasks Hall) in Hperm.
    apply Permutation_sym, Permutation_nil in Hperm. subst. reflexivity. }
  destruct abort; [|exact Hpartial].
  rewrite <- Hpartial. unfold executeParallel.
  apply executeParallel_loop_no_failure, Hall.
Qed.

Lemma abort_flag_idle_when_nothing_fails_witness :
  executeParallel 10 [slowSuccess; nullSuccess; fastSuccess] (Some 2) (Some true)
    = Some (Returned (flat_map survivor [slowSuccess; nullSuccess; fastSuccess]) []).
Proof.
  apply abort_flag_idle_when_nothing_fails.
  - lia.
  - simpl. lia.
  - repeat constructor.
Defined.

(** X9. A timeout that no task reaches changes nothing: when
    [timeoutMs] is between 1 and 2147483647 and every task settles
    within it, [executeParallelTasks] ends as [executeParallel] does on
    the same tasks; so does [executeParallel] of the Firecrawl client
    when every task settles before [timeoutMs]. *)
Theorem timeout_in_time_is_transparent {T : Type}
        (numberToString : Z -> string)
        (tasks : list (@Task T)) (m timeout : Z) (abort : bool)
        (defaults : RequiredParallelOptions) (fuel : nat) :
  1 <= timeout <= TIMEOUT_MAX ->
  let options :=
    {| maxConcurrent := Some m; abortOnError := Some abort;
       timeoutMs := Some timeout |} in
  (Forall (settlesWithin timeout) tasks ->
   executeParallelTasks numberToString fuel tasks options
     = executeParallel fuel tasks (Some m) (Some abort))
  /\ (Forall (settlesBefore timeout) tasks ->
      clientExecuteParallel defaults fuel tasks (Some options)
        = executeParallel fuel tasks (Some m) (Some abort)).
Proof.
  intros Hrange options. split; intros Hall.
  - unfold options.
    rewrite executeParallelTasks_race
      by (right; exact (settlesWithin_returnsPromise timeout tasks Hall)).
    unfold racedTasks.
    rewrite (map_id_on _ (settlesWithin timeout)); [reflexivity| |exact Hall].
    intros t. apply (race_in_time timeout _ t Hrange).
  - unfold clientExecuteParallel, options.
    cbn [maxConcurrent abortOnError timeoutMs].
    rewrite (map_id_on _ (settlesBefore timeout)); [reflexivity| |exact Hall].
    intros t Ht.
    rewrite (proj2 (race_in_time timeout _ t Hrange) Ht).
    destruct t as [at_ o| |e]; [reflexivity|destruct Ht|destruct Ht].
Qed.

Lemma timeout_in_time_is_transparent_witness :
  executeParallelTasks decimal 10 settlingTasks
    {| maxConcurrent := Some 2; abortOnError := Some false;
       timeoutMs := Some 5 |}
    = executeParallel 10 settlingTasks (Some 2) (Some false).
Proof.
  apply (timeout_in_time_is_transparent decimal settlingTasks 2 5 false
           (clientDefaults None) 10).
  - unfold TIMEOUT_MAX. lia.
  - repeat constructor; simpl; lia.
Defined.

(** X10. A timeout that the host cannot use is a timeout of one
    millisecond: with [timeoutMs] below 1 or above 2147483647 the timer
    fires after 1 ms, so that in partial mode [executeParallelTasks]
    returns no result and one timeout error for each task,
    [`Task timed out after ${timeoutMs}ms`] with the number as the host
    writes it, when every task takes more than a millisecond. *)
Theorem unusable_timeout_fails_every_task {T : Type}
        (numberToString : Z -> string)
        (tasks : list (@Task T)) (m timeout : Z) (fuel : nat) :
  1 <= m ->
  (length tasks < fuel)%nat ->
  timeout < 1 \/ TIMEOUT_MAX < timeout ->
  Forall (takesOver 1) tasks ->
  executeParallelTasks numberToString fuel tasks
    {| maxConcurrent := Some m; abortOnError := Some false;
       timeoutMs := Some timeout |}
  = Some (Returned []
            (repeat
               (PlainError
                  ("Task timed out after " ++ numberToString timeout ++ "ms"))
               (length tasks))).
Proof.
  intros Hm Hfuel Hbad Hslow.
  rewrite executeParallelTasks_race
    by (right; exact (takesOver_returnsPromise tasks Hslow)).
  unfold racedTasks.
  set (message := ("Task timed out after " ++ numberToString timeout ++ "ms")%string).
  change (timedOutAfter numberToString timeout) with message.
  assert (Hraced : map (race true timeout message) tasks =
                   map (fun _ => Settles 1 (Rejected (PlainError message))) tasks).
  { clear Hfuel. induction Hslow as [|t tasks Ht _ IH]; [reflexivity|].
    cbn [map]. rewrite IH, (race_unusable true timeout _ t Hbad Ht).
    reflexivity. }
  rewrite Hraced.
  destruct (all_timed_out (T := T) (PlainError message) tasks)
    as [Hnone Hall].
  destruct (executeParallel_partial
              (map (fun _ => Settles (T := T) 1 (Rejected (PlainError message)))
                   tasks) m fuel Hm)
    as (errors & -> & Hperm).
  - rewrite length_map. exact Hfuel.
  - apply Forall_forall. intros t Hin. apply in_map_iff in Hin as (? & <- & _).
    exact I.
  - rewrite Hnone. rewrite Hall in Hperm. cbn [asError] in Hperm.
    apply Permutation_repeat in Hperm. rewrite Hperm. reflexivity.
Qed.

Lemma unusable_timeout_fails_every_task_witness :
  executeParallelTasks decimal 10 [slowSuccess; failing; hanging]
    {| maxConcurrent := Some 2; abortOnError := Some false;
       timeoutMs := Some 4294967296 |}
  = Some (Returned []
            [ PlainError "Task timed out after 4294967296ms";
              PlainError "Task timed out after 4294967296ms";
              PlainError "Task timed out after 4294967296ms" ]).
Proof.
  rewrite (unusable_timeout_fails_every_task decimal
             [slowSuccess; failing; hanging] 2 4294967296 10).
  - reflexivity.
  - lia.
  - simpl. lia.
  - right. unfold TIMEOUT_MAX. lia.
  - repeat constructor; simpl; lia.
Defined.

(** X11. A negative [maxConcurrent] is not rejected either: in partial
    mode, on a task list that is not empty, [executeParallel] never
    returns when every task settles, and [executeParallelTasks] never
    returns whatever the tasks do. *)
Theorem negative_concurrency_never_returns {T : Type}
        (numberToString : Z -> string)
        (tasks : list (@Task T)) (m : Z) (timeout : option Z) (fuel : nat) :
  m < 0 ->
  tasks <> [] ->
  (Forall settles tasks ->
   executeParallel fuel tasks (Some m) (Some false) = None)
  /\ executeParallelTasks numberToString fuel tasks
       {| maxConcurrent := Some m; abortOnError := Some false;
          timeoutMs := timeout |} = None.
Proof.
  intros Hm Hne. split.
  - intros Hall. unfold executeParallel.
    apply executeParallel_loop_negative; auto; lia.
  - unfold executeParallelTasks. cbn [maxConcurrent abortOnError timeoutMs].
    apply executeParallelTasks_loop_negative; [lia|exact Hne|lia].
Qed.

Lemma negative_concurrency_never_returns_witness :
  executeParallelTasks decimal 1000 [slowSuccess; hanging]
    {| maxConcurrent := Some (-1); abortOnError := Some false;
       timeoutMs := None |} = None.
Proof.
  apply (negative_concurrency_never_returns decimal [slowSuccess; hanging]
           (-1) None 1000).
  - lia.
  - discriminate.
Defined.

(** X12. The client's default concurrency cannot stall a call: a
    configured default of 0 is replaced by 5, so that whenever the
    configured default is not negative and the default mode is the
    partial one, a call of the client's [executeParallel] without
    options returns, with the results of the tasks that beat the
    default timeout. *)
Theorem default_concurrency_lets_the_call_return {T : Type}
        (config : option ParallelOptions) (tasks : list (@Task T))
        (fuel : nat) :
  concurrencyNotNegative config ->
  defaultAbortOnError (clientDefaults config) = false ->
  (length tasks < fuel)%nat ->
  1 <= defaultMaxConcurrent (clientDefaults config)
  /\ exists errors,
       clientExecuteParallel (clientDefaults config) fuel tasks None
       = Some (Returned
                 (flat_map survivor
                    (map (race false (defaultTimeoutMs (clientDefaults config))
                               "Task execution timed out") tasks))
                 errors).
Proof.
  intros Hcfg Habort Hfuel.
  assert (Hm : 1 <= defaultMaxConcurrent (clientDefaults config)).
  { unfold clientDefaults, concurrencyNotNegative in *.
    cbn [defaultMaxConcurrent]. unfold orElse.
    destruct config as [c|]; [|lia].
    destruct (maxConcurrent c) as [v|]; [|lia].
    destruct (v =? 0) eqn:E; [lia|]. apply Z.eqb_neq in E. lia. }
  split; [exact Hm|].
  unfold clientExecuteParallel. cbn [maxConcurrent abortOnError timeoutMs].
  rewrite Habort.
  destruct (executeParallel_partial
              (map (fun task =>
                      asyncFunction
                        (race false (defaultTimeoutMs (clientDefaults config))
                              "Task execution timed out" task)) tasks)
              (defaultMaxConcurrent (clientDefaults config)) fuel Hm)
    as (errors & Hrun & _).
  - rewrite length_map. exact Hfuel.
  - apply Forall_map, Forall_forall. intros t _.
    apply asyncFunction_settles, race_settles.
  - exists errors. rewrite Hrun.
    rewrite <- (map_map (race false (defaultTimeoutMs (clientDefaults config))
                              "Task execution timed out") asyncFunction).
    rewrite asyncFunction_survivor. reflexivity.
Qed.

Lemma default_concurrency_lets_the_call_return_witness :
  exists errors,
    clientExecuteParallel
      (clientDefaults (Some {| maxConcurrent := Some 0; abortOnError := None;
                               timeoutMs := Some 4 |}))
      10 settlingTasks None
    = Some (Returned
              (flat_map survivor
                 (map (race false
                         (defaultTimeoutMs
                            (clientDefaults
                               (Some {| maxConcurrent := Some 0;
                                        abortOnError := None;
                                        timeoutMs := Some 4 |})))
                         "Task execution timed out") settlingTasks))
              errors).
Proof.
  apply (default_concurrency_lets_the_call_return
           (Some {| maxConcurrent := Some 0; abortOnError := None;
                    timeoutMs := Some 4 |}) settlingTasks 10).
  - simpl. lia.
  - reflexivity.
  - simpl. lia.
Defined.

End BatchRunnerMoreFacts.

(** ** What [makeRequest] throws, and what is retried *)

Module FirecrawlRequestFacts.
Import RateLimiter RequestQueueMore FirecrawlRequests RequestQueueMoreFacts.

Section Attempts.

Context {T : Type}.

Lemma caught_host e :
  instanceofError e = true -> isFirecrawlError e = false ->
  caught e = FirecrawlError (messageOf e) 500.
Proof.
  intros Hinst Hfc. unfold caught, handleApiError. rewrite Hfc, Hinst.
  reflexivity.
Qed.

Lemma statusError_class statusCode errorText :
  exists message, statusError statusCode errorText
                  = FirecrawlError message statusCode.
Proof.
  unfold statusError.
  destruct (statusCode =? 429); [eexists; reflexivity|].
  destruct (statusCode =? 401); [eexists; reflexivity|].
  destruct (500 <=? statusCode); eexists; reflexivity.
Qed.

Lemma statusError_rate_limit statusCode errorText :
  isRateLimit (statusError statusCode errorText) = (statusCode =? 429).
Proof.
  destruct (statusError_class statusCode errorText) as [message ->].
  reflexivity.
Qed.

Lemma makeRequest_attempt_failure (f : @Fetched T) e :
  hostErrors f ->
  makeRequest_attempt f = Rejected e ->
  exists message, e = FirecrawlError message (failureStatus f).
Proof.
  unfold hostErrors, makeRequest_attempt, thrownByHost, failureStatus.
  intros Hhost Hrej. destruct f as [error|response].
  - apply Forall_inv in Hhost as [Hinst Hfc].
    rewrite (caught_host error Hinst Hfc) in Hrej.
    injection Hrej as <-. eexists. reflexivity.
  - destruct (negb (ok response)).
    + destruct (text response) as [errorText|error].
      * destruct (statusError_class (status response) errorText) as [message Hm].
        rewrite Hm in Hrej. cbn [caught isFirecrawlError] in Hrej.
        injection Hrej as <-. eexists. reflexivity.
      * apply Forall_inv in Hhost as [Hinst Hfc].
        rewrite (caught_host error Hinst Hfc) in Hrej.
        injection Hrej as <-. eexists. reflexivity.
    + destruct (json response) as [v|error]; [discriminate|].
      apply Forall_inv in Hhost as [Hinst Hfc].
      rewrite (caught_host error Hinst Hfc) in Hrej.
      injection Hrej as <-. eexists. reflexivity.
Qed.

Lemma makeRequest_attempt_rate_limited (f : @Fetched T) :
  hostErrors f ->
  rateLimited (makeRequest_attempt f) = answers429 f.
Proof.
  unfold hostErrors, makeRequest_attempt, thrownByHost, answers429.
  intros Hhost. destruct f as [error|response].
  - apply Forall_inv in Hhost as [Hinst Hfc].
    rewrite (caught_host error Hinst Hfc). reflexivity.
  - destruct (negb (ok response)); cbn [andb].
    + destruct (text response) as [errorText|error].
      * destruct (statusError_class (status response) errorText) as [message Hm].
        rewrite Hm. cbn [caught isFirecrawlError rateLimited isRateLimit].
        rewrite andb_true_r. reflexivity.
      * apply Forall_inv in Hhost as [Hinst Hfc].
        rewrite (caught_host error Hinst Hfc). cbn [rateLimited isRateLimit].
        rewrite andb_false_r. reflexivity.
    + destruct (json response) as [v|error]; [reflexivity|].
      apply Forall_inv in Hhost as [Hinst Hfc].
      rewrite (caught_host error Hinst Hfc). reflexivity.
Qed.

End Attempts.

(** X13. A failure of [makeRequest] is a [FirecrawlError]: when what
    the host throws are [Error]s of its own, every rejection of the
    request function carries the status of the answer if the server gave
    one that is not [ok] and its body could be read, and 500 otherwise
    (network failure, unreadable or malformed body). *)
Theorem makeRequest_fails_with_FirecrawlError {T : Type}
        (f : @Fetched T) (e : Thrown) :
  hostErrors f ->
  makeRequest_attempt f = Rejected e ->
  exists message,
    e = FirecrawlError message (failureStatus f)
    /\ isFirecrawlError (caught e) = true /\ caught e = e.
Proof.
  intros Hhost Hrej.
  destruct (makeRequest_attempt_failure f e Hhost Hrej) as [message ->].
  exists message. repeat split.
Qed.

Lemma makeRequest_fails_with_FirecrawlError_witness :
  exists message,
    FirecrawlError "fetch failed" 500
      = FirecrawlError message
          (failureStatus (T := nat)
             (FetchRejected (PlainError "fetch failed")))
    /\ isFirecrawlError (caught (FirecrawlError "fetch failed" 500)) = true
    /\ caught (FirecrawlError "fetch failed" 500)
       = FirecrawlError "fetch failed" 500.
Proof.
  apply (makeRequest_fails_with_FirecrawlError (T := nat)
           (FetchRejected (PlainError "fetch failed"))).
  - repeat constructor.
  - reflexivity.
Defined.

(** X14. Through [makeRequest] only an answer with status 429 is
    retried: when fetch number [k] is the first that is not such an
    answer (a success, another status, a network failure, a malformed
    body, ...) and [k] does not exceed [retryCount], the request is
    fetched [k + 1] times and settles with the outcome of that fetch,
    after the latencies of the fetches and the backoff delays between
    them. *)
Theorem only_status_429_is_retried {T : Type} (options : Options)
        (network : @Network T) (k fuel : nat) :
  (forall j, (j <= k)%nat -> hostErrors (snd (network j))) ->
  (forall j, (j < k)%nat -> answers429 (snd (network j)) = true) ->
  answers429 (snd (network k)) = false ->
  Z.of_nat k <= retryCount options ->
  (k < fuel)%nat ->
  executeWithRetry options fuel (makeRequest_fn network) 0 1 =
    Some {| result := makeRequest_attempt (snd (network k));
            invocations := S k;
            elapsed := latencies (makeRequest_fn network) 0 k
                       + backoff options 1 k |}.
Proof.
  intros Hhost Hbefore Hlast Hk Hfuel.
  apply (executeWithRetry_stops options k (makeRequest_fn network) fuel 0%nat 1).
  - intros j Hj. cbn [makeRequest_fn outcome Nat.add].
    rewrite makeRequest_attempt_rate_limited by (apply Hhost; lia).
    apply Hbefore, Hj.
  - cbn [makeRequest_fn outcome Nat.add].
    rewrite makeRequest_attempt_rate_limited by (apply Hhost; lia).
    exact Hlast.
  - lia.
  - exact Hfuel.
Qed.

Lemma only_status_429_is_retried_witness :
  executeWithRetry (RequestQueue_options (mkRateLimitOptions None None None)) 5
    (makeRequest_fn (T := nat)
       (fun k => (20%nat,
                  match k with
                  | O => FetchResolved
                           {| ok := false; status := 429;
                              text := Resolved "slow down"%string;
                              json := Resolved 0%nat |}
                  | _ => FetchResolved
                           {| ok := false; status := 503;
                              text := Resolved "down"%string;
                              json := Resolved 0%nat |}
                  end))) 0 1
  = Some {| result := Rejected (FirecrawlError "Firecrawl server error" 503);
            invocations := 2;
            elapsed := 1040 |}.
Proof.
  rewrite (only_status_429_is_retried (T := nat)
             (RequestQueue_options (mkRateLimitOptions None None None)) _ 1 5).
  - reflexivity.
  - intros [|[|j]] Hj; [constructor|constructor|lia].
  - intros [|j] Hj; [reflexivity|lia].
  - reflexivity.
  - simpl. lia.
  - lia.
Defined.

End FirecrawlRequestFacts.

(** ** Chunks of a stream put together *)

Module StreamChunkFacts.
Import StreamChunks.

Lemma append_empty_r (s : string) : (s ++ "")%string = s.
Proof. induction s as [|c s IH]; simpl; [reflexivity|]. rewrite IH. reflexivity. Qed.

Lemma append_assoc (s1 s2 s3 : string) :
  ((s1 ++ s2) ++ s3)%string = (s1 ++ (s2 ++ s3))%string.
Proof.
  induction s1 as [|c s1 IH]; simpl; [reflexivity|]. rewrite IH. reflexivity.
Qed.

Lemma concat_cons (s : string) (l : list string) :
  String.concat "" (s :: l) = (s ++ String.concat "" l)%string.
Proof.
  destruct l as [|t l]; simpl; [rewrite append_empty_r|]; reflexivity.
Qed.

Lemma plus_text (s : string) (piece : option string) :
  (if truthy piece then plus s piece else s) = (s ++ textOf piece)%string.
Proof.
  destruct piece as [[|c p]|]; simpl; rewrite ?append_empty_r; reflexivity.
Qed.

Lemma joined_cons piece pieces :
  joined (piece :: pieces) = (textOf piece ++ joined pieces)%string.
Proof. unfold joined. cbn [map]. apply concat_cons. Qed.

Lemma find_truthy (names : list (option string)) :
  truthy (match find truthy names with Some name => name | None => None end)
  = existsb truthy names.
Proof.
  induction names as [|n names IH]; [reflexivity|].
  cbn [find existsb]. destruct (truthy n) eqn:E; [exact E|exact IH].
Qed.

Lemma fold_combineChunk (chunks : list StreamChunk) :
  forall acc,
    fold_left combineChunk chunks acc =
    {| combinedContent :=
         (combinedContent acc ++ joined (map content chunks))%string;
       combinedFunctionName :=
         if truthy (combinedFunctionName acc) then combinedFunctionName acc
         else match firstName chunks with
              | Some name => Some name
              | None => combinedFunctionName acc
              end;
       combinedFunctionArguments :=
         (combinedFunctionArguments acc
            ++ joined (map functionArguments chunks))%string |}.
Proof.
  induction chunks as [|chunk chunks IH]; intros acc.
  - cbn [fold_left map]. unfold joined, firstName. cbn.
    rewrite !append_empty_r. destruct acc as [c n a]. cbn.
    destruct (truthy n); reflexivity.
  - cbn [fold_left]. rewrite IH. unfold combineChunk.
    cbn [combinedContent combinedFunctionName combinedFunctionArguments map].
    rewrite !joined_cons, !plus_text, !append_assoc.
    f_equal. unfold firstName. cbn [map find].
    destruct (truthy (combinedFunctionName acc)) eqn:Eacc.
    + rewrite andb_false_r, Eacc. reflexivity.
    + rewrite andb_true_r.
      destruct (truthy (functionName chunk)) eqn:Echunk.
      * rewrite Echunk.
        destruct (functionName chunk); [reflexivity|discriminate].
      * rewrite Eacc. reflexivity.
Qed.

Lemma fold_left_find_none (chunks : list StreamChunk) :
  firstName chunks = None -> existsb truthy (map functionName chunks) = false.
Proof.
  unfold firstName. intros H. rewrite <- find_truthy.
  destruct (find truthy (map functionName chunks)) as [name|]; [|reflexivity].
  subst. reflexivity.
Qed.

Lemma joined_truthy (pieces : list (option string)) :
  truthy (Some (joined pieces)) = existsb truthy pieces.
Proof.
  induction pieces as [|p pieces IH]; [reflexivity|].
  rewrite joined_cons. cbn [existsb]. rewrite <- IH.
  destruct p as [[|c p]|]; reflexivity.
Qed.

Lemma combineStreamChunks_joined (chunks : list StreamChunk) :
  combineStreamChunks chunks =
    {| combinedContent := joined (map content chunks);
       combinedFunctionName := firstName chunks;
       combinedFunctionArguments := joined (map functionArguments chunks) |}.
Proof.
  unfold combineStreamChunks. rewrite fold_combineChunk.
  cbn [combinedContent combinedFunctionName combinedFunctionArguments truthy
       append].
  f_equal. destruct (firstName chunks); reflexivity.
Qed.

Lemma firstName_truthy (chunks : list StreamChunk) name :
  firstName chunks = Some name -> truthy (Some name) = true.
Proof.
  unfold firstName. intros H.
  destruct (find truthy (map functionName chunks)) as [n|] eqn:E; [|discriminate].
  apply find_some in E as [_ E]. subst. exact E.
Qed.

(** X15. [combineStreamChunks] puts a streamed answer together again:
    the content is the content of the chunks in their order, the
    arguments of the function call are the pieces of the chunks in their
    order, and the name of the function is the first name that is not
    empty. *)
Theorem chunks_are_joined_in_order (chunks : list StreamChunk) :
  combineStreamChunks chunks =
    {| combinedContent := joined (map content chunks);
       combinedFunctionName := firstName chunks;
       combinedFunctionArguments := joined (map functionArguments chunks) |}.
Proof.
  unfold combineStreamChunks. rewrite fold_combineChunk.
  cbn [combinedContent combinedFunctionName combinedFunctionArguments truthy
       append].
  f_equal. destruct (firstName chunks); reflexivity.
Qed.

(** X16. Chunks can be put together in parts: combining two runs of
    chunks one after the other joins the contents and the arguments of
    the two, and keeps the name of the first run unless it has none. *)
Theorem chunks_combine_in_parts (before after : list StreamChunk) :
  let b := combineStreamChunks before in
  let a := combineStreamChunks after in
  combineStreamChunks (before ++ after) =
    {| combinedContent := (combinedContent b ++ combinedContent a)%string;
       combinedFunctionName :=
         match combinedFunctionName b with
         | Some name => Some name
         | None => combinedFunctionName a
         end;
       combinedFunctionArguments :=
         (combinedFunctionArguments b ++ combinedFunctionArguments a)%string |}.
Proof.
  intros b a. unfold combineStreamChunks at 1. rewrite fold_left_app.
  fold (combineStreamChunks before). fold b.
  rewrite fold_combineChunk.
  unfold a, b. rewrite !combineStreamChunks_joined.
  cbn [combinedContent combinedFunctionName combinedFunctionArguments].
  f_equal.
  destruct (firstName before) as [name|] eqn:E.
  - rewrite (firstName_truthy before name E). reflexivity.
  - cbn [truthy]. destruct (firstName after); reflexivity.
Qed.

(** X17. A streamed function call is found exactly when some chunk has
    a name and some chunk has a piece of the arguments that is not
    empty; it is then the first such name with all the pieces in their
    order, and otherwise the stream fails with the error of an
    incomplete call. *)
Theorem streamed_call_is_complete_or_rejected (chunks : list StreamChunk) :
  completeCall chunks =
    if existsb truthy (map functionName chunks)
       && existsb truthy (map functionArguments chunks)
    then Resolved (textOf (firstName chunks),
                   joined (map functionArguments chunks))
    else Rejected
           (OpenAIError "No complete function call was found in the stream" 500).
Proof.
  unfold completeCall. rewrite combineStreamChunks_joined.
  cbn [combinedFunctionName combinedFunctionArguments].
  rewrite joined_truthy.
  destruct (firstName chunks) as [name|] eqn:E.
  - pose proof (firstName_truthy chunks name E) as Hname.
    rewrite Hname. cbn [negb orb textOf].
    replace (existsb truthy (map functionName chunks)) with true.
    + cbn [andb]. destruct (existsb truthy (map functionArguments chunks));
        reflexivity.
    + rewrite <- find_truthy. fold (firstName chunks). rewrite E.
      symmetry. exact Hname.
  - rewrite (fold_left_find_none chunks E). reflexivity.
Qed.

End StreamChunkFacts.

(** ** The domains that [extractTopDomains] returns *)

Module TopDomainFacts.
Import BatchRunner TopDomains.

Section Sorting.

Context {A : Type}.
Variable compareFn : A -> A -> Z.

(** [x] may stand before [y]. *)
Abbreviation before := (fun x y => compareFn x y <= 0).

Hypothesis compare_total : forall x y, 0 < compareFn x y -> compareFn y x <= 0.
Hypothesis compare_trans :
  forall x y z, compareFn x y <= 0 -> compareFn y z <= 0 -> compareFn x z <= 0.

Lemma insertSorted_perm x (l : list A) :
  Permutation (insertSorted compareFn x l) (x :: l).
Proof.
  induction l as [|y l IH]; cbn [insertSorted]; [reflexivity|].
  destruct (compareFn x y <=? 0); [reflexivity|].
  rewrite IH. apply perm_swap.
Qed.

Lemma sort_perm (l : list A) : Permutation (sort compareFn l) l.
Proof.
  induction l as [|x l IH]; cbn [sort]; [reflexivity|].
  rewrite insertSorted_perm. constructor. exact IH.
Qed.

Lemma insertSorted_sorted x (l : list A) :
  StronglySorted before l -> StronglySorted before (insertSorted compareFn x l).
Proof.
  induction 1 as [|y l Hsorted IH Hall]; cbn [insertSorted].
  - repeat constructor.
  - destruct (compareFn x y <=? 0) eqn:E.
    + apply Z.leb_le in E. constructor; [constructor; assumption|].
      constructor; [exact E|].
      eapply Forall_impl; [|exact Hall]. intros z Hz.
      exact (compare_trans x y z E Hz).
    + apply Z.leb_gt in E. constructor; [exact IH|].
      apply Forall_forall. intros z Hz.
      apply (Permutation_in _ (insertSorted_perm x l)) in Hz.
      destruct Hz as [<-|Hz]; [apply compare_total; exact E|].
      rewrite Forall_forall in Hall. exact (Hall z Hz).
Qed.

Lemma sort_sorted (l : list A) : StronglySorted before (sort compareFn l).
Proof.
  induction l as [|x l IH]; cbn [sort]; [constructor|].
  apply insertSorted_sorted, IH.
Qed.

Lemma sorted_firstn_skipn n (l : list A) :
  StronglySorted before l ->
  forall x y, In x (firstn n l) -> In y (skipn n l) -> compareFn x y <= 0.
Proof.
  intros Hsorted. revert n.
  induction Hsorted as [|z l Hsorted IH Hall]; intros n x y Hx Hy.
  - destruct n; destruct Hx.
  - destruct n as [|n]; [destruct Hx|].
    cbn [firstn skipn] in Hx, Hy. destruct Hx as [<-|Hx].
    + rewrite Forall_forall in Hall. apply Hall.
      rewrite <- (firstn_skipn n l). apply in_or_app. right. exact Hy.
    + exact (IH n x y Hx Hy).
Qed.

End Sorting.

Lemma In_firstn_in {A : Type} n (l : list A) x : In x (firstn n l) -> In x l.
Proof.
  intros H. rewrite <- (firstn_skipn n l). apply in_or_app. left. exact H.
Qed.

Lemma slice_from_zero {A : Type} (l : list A) (k : Z) :
  0 <= k -> slice l 0 k = firstn (Z.to_nat k) l.
Proof.
  intros Hk. unfold slice, sliceIndex.
  replace (0 <? 0) with false by reflexivity.
  replace (k <? 0) with false by (symmetry; apply Z.ltb_ge; exact Hk).
  rewrite (Z.min_l 0) by lia. cbn [Z.to_nat skipn]. rewrite Z.sub_0_r.
  destruct (Z.le_gt_cases k (Z.of_nat (length l))).
  - rewrite Z.min_l by lia. reflexivity.
  - rewrite Z.min_r by lia. rewrite Nat2Z.id.
    rewrite !firstn_all2 by lia. reflexivity.
Qed.

Section Counting.

Variable extractDomain : string -> string.

Lemma get_set_same (m : DomainCounts) key value :
  get (set m key value) key = Some value.
Proof.
  induction m as [|[k v] m IH]; cbn [set get].
  - rewrite String.eqb_refl. reflexivity.
  - destruct (k =? key)%string eqn:E; cbn [get].
    + rewrite String.eqb_refl. reflexivity.
    + rewrite E. exact IH.
Qed.

Lemma get_set_other (m : DomainCounts) key value key' :
  key' <> key -> get (set m key value) key' = get m key'.
Proof.
  intros Hne. induction m as [|[k v] m IH]; cbn [set get].
  - replace (key =? key')%string with false; [reflexivity|].
    symmetry. apply String.eqb_neq. congruence.
  - destruct (k =? key)%string eqn:E; cbn [get].
    + apply String.eqb_eq in E. subst k.
      replace (key =? key')%string with false; [reflexivity|].
      symmetry. apply String.eqb_neq. congruence.
    + rewrite IH. reflexivity.
Qed.

Lemma set_keys (m : DomainCounts) key value k :
  In k (map fst (set m key value)) <-> k = key \/ In k (map fst m).
Proof.
  induction m as [|[k0 v0] m IH]; cbn [set map fst In].
  - intuition congruence.
  - destruct (k0 =? key)%string eqn:E; cbn [map fst In].
    + apply String.eqb_eq in E. subst k0. intuition congruence.
    + rewrite IH. tauto.
Qed.

Lemma set_NoDup (m : DomainCounts) key value :
  NoDup (map fst m) -> NoDup (map fst (set m key value)).
Proof.
  induction m as [|[k v] m IH]; cbn [set map fst]; intros Hnd.
  - repeat constructor. intros [].
  - inversion Hnd as [|? ? Hnotin Hnd']; subst.
    destruct (k =? key)%string eqn:E; cbn [map fst].
    + apply String.eqb_eq in E. subst k. constructor; assumption.
    + apply String.eqb_neq in E. constructor; [|apply IH, Hnd'].
      rewrite set_keys. intros [->|Hin]; [congruence|contradiction].
Qed.

Lemma In_get (m : DomainCounts) key value :
  NoDup (map fst m) -> (In (key, value) m <-> get m key = Some value).
Proof.
  induction m as [|[k v] m IH]; cbn [map fst get In]; intros Hnd.
  - split; [tauto|discriminate].
  - inversion Hnd as [|? ? Hnotin Hnd']; subst.
    destruct (k =? key)%string eqn:E.
    + apply String.eqb_eq in E. subst k. split.
      * intros [Heq|Hin]; [congruence|].
        exfalso. apply Hnotin. apply (in_map fst) in Hin. exact Hin.
      * intros Heq. left. congruence.
    + apply String.eqb_neq in E. rewrite <- (IH Hnd'). split.
      * intros [Heq|Hin]; [congruence|exact Hin].
      * intros Hin. right. exact Hin.
Qed.

Abbreviation Sources := (list ResearchSource).

Lemma countSource_NoDup (m : DomainCounts) source :
  NoDup (map fst m) -> NoDup (map fst (countSource extractDomain m source)).
Proof.
  intros Hnd. unfold countSource.
  destruct (extractDomain (url source)); [exact Hnd|]. apply set_NoDup, Hnd.
Qed.

Lemma countDomains_snoc (sources : Sources) source :
  countDomains extractDomain (sources ++ [source]) =
  countSource extractDomain (countDomains extractDomain sources) source.
Proof. unfold countDomains. rewrite fold_left_app. reflexivity. Qed.

Lemma countDomains_NoDup (sources : Sources) :
  NoDup (map fst (countDomains extractDomain sources)).
Proof.
  induction sources as [|source sources IH] using rev_ind.
  - constructor.
  - rewrite countDomains_snoc. apply countSource_NoDup, IH.
Qed.

Lemma occurrences_snoc (sources : Sources) source domain :
  occurrences extractDomain (sources ++ [source]) domain =
  (occurrences extractDomain sources domain
   + if string_dec (extractDomain (url source)) domain then 1 else 0)%nat.
Proof.
  unfold occurrences. rewrite map_app, count_occ_app. cbn [map count_occ].
  destruct (string_dec (extractDomain (url source)) domain); reflexivity.
Qed.

(** The map holds, for every domain that is not empty and occurs, the
    number of its occurrences. *)
Lemma countDomains_get (sources : Sources) (domain : string) :
  get (countDomains extractDomain sources) domain =
    match domain, occurrences extractDomain sources domain with
    | EmptyString, _ => None
    | _, O => None
    | _, n => Some (Z.of_nat n)
    end.
Proof.
  destruct domain as [|c domain].
  - induction sources as [|source sources IH] using rev_ind; [reflexivity|].
    rewrite countDomains_snoc. unfold countSource.
    destruct (extractDomain (url source)) as [|c d]; [exact IH|].
    rewrite get_set_other by discriminate. exact IH.
  - induction sources as [|source sources IH] using rev_ind; [reflexivity|].
    rewrite countDomains_snoc, occurrences_snoc. unfold countSource.
    destruct (string_dec (extractDomain (url source)) (String c domain))
      as [Heq|Hne].
    + rewrite Heq, get_set_same, IH.
      destruct (occurrences extractDomain sources (String c domain)) as [|n].
      * reflexivity.
      * cbn [orZero]. rewrite Nat.add_1_r.
        replace (Z.of_nat (S n) =? 0) with false
          by (symmetry; apply Z.eqb_neq; lia).
        f_equal. lia.
    + rewrite Nat.add_0_r.
      destruct (extractDomain (url source)) as [|c' d] eqn:E; [exact IH|].
      rewrite get_set_other by congruence. exact IH.
Qed.

Lemma countDomains_entry (sources : Sources) domain count :
  In (domain, count) (countDomains extractDomain sources) <->
  domain <> EmptyString
  /\ (0 < occurrences extractDomain sources domain)%nat
  /\ count = Z.of_nat (occurrences extractDomain sources domain).
Proof.
  rewrite (In_get _ _ _ (countDomains_NoDup sources)), countDomains_get.
  destruct domain as [|c domain].
  - split; [discriminate|]. intros [H _]. congruence.
  - destruct (occurrences extractDomain sources (String c domain)) as [|n].
    + split; [discriminate|]. intros (_ & H & _). lia.
    + split.
      * intros H. injection H as <-. repeat split; [discriminate|lia].
      * intros (_ & _ & ->). reflexivity.
Qed.

Lemma NoDup_firstn {B : Type} n (l : list B) : NoDup l -> NoDup (firstn n l).
Proof.
  intros H. rewrite <- (firstn_skipn n l) in H.
  exact (NoDup_app_remove_r _ _ H).
Qed.

Lemma NoDup_keys_split n (m : DomainCounts) :
  NoDup (map fst m) ->
  forall k v v', In (k, v) (firstn n m) -> In (k, v') (skipn n m) -> False.
Proof.
  intros Hnd k v v' H1 H2. rewrite <- (firstn_skipn n m), map_app in Hnd.
  apply (in_map fst) in H1, H2. cbn [fst] in H1, H2.
  revert H1 H2. generalize (map fst (firstn n m)) (map fst (skipn n m)) Hnd.
  intros l1. induction l1 as [|x l1 IH]; intros l2 Hnd' H1 H2; [destruct H1|].
  cbn [app] in Hnd'. inversion Hnd' as [|? ? Hnotin Hrest]; subst.
  destruct H1 as [->|H1].
  - apply Hnotin. apply in_or_app. right. exact H2.
  - exact (IH l2 Hrest H1 H2).
Qed.

Lemma sorted_firstn {B : Type} (R : B -> B -> Prop) n (l : list B) :
  StronglySorted R l -> StronglySorted R (firstn n l).
Proof.
  intros H. revert n. induction H as [|x l Hsorted IH Hall]; intros n.
  - destruct n; constructor.
  - destruct n as [|n]; cbn [firstn]; constructor; [apply IH|].
    apply Forall_forall. intros y Hy. rewrite Forall_forall in Hall.
    apply Hall. exact (In_firstn_in n l y Hy).
Qed.

Lemma sorted_by_occurrences (sources : Sources) (l : DomainCounts) :
  StronglySorted (fun a b => snd b - snd a <= 0) l ->
  (forall domain count,
     In (domain, count) l ->
     count = Z.of_nat (occurrences extractDomain sources domain)) ->
  StronglySorted
    (fun domain other =>
       (occurrences extractDomain sources other
        <= occurrences extractDomain sources domain)%nat)
    (map fst l).
Proof.
  induction 1 as [|[d c] l Hsorted IH Hall]; intros Hcount; cbn [map fst].
  - constructor.
  - constructor.
    + apply IH. intros domain count Hin. apply Hcount. right. exact Hin.
    + apply Forall_forall. intros other Hin.
      apply in_map_iff in Hin as ([d' c'] & <- & Hin). cbn [fst].
      rewrite Forall_forall in Hall. pose proof (Hall _ Hin) as Hle.
      cbn [snd] in Hle.
      rewrite (Hcount d c) in Hle by (left; reflexivity).
      rewrite (Hcount d' c') in Hle by (right; exact Hin). lia.
Qed.

End Counting.

(** X18. [extractTopDomains] returns the most cited domains: at most
    five, each once, none empty, the most cited first; every one of
    them is the domain of a source, and no domain that is left out is
    the domain of more sources than one that is returned. *)
Theorem top_domains_are_the_most_cited (extractDomain : string -> string)
        (sources : list ResearchSource) :
  let top := extractTopDomains extractDomain sources in
  (length top <= 5)%nat
  /\ NoDup top
  /\ (forall domain, In domain top ->
        domain <> EmptyString
        /\ (1 <= occurrences extractDomain sources domain)%nat)
  /\ (forall domain other,
        In domain top -> ~ In other top -> other <> EmptyString ->
        (occurrences extractDomain sources other
         <= occurrences extractDomain sources domain)%nat)
  /\ StronglySorted
       (fun domain other =>
          (occurrences extractDomain sources other
           <= occurrences extractDomain sources domain)%nat)
       top.
Proof.
  intros top. unfold top, extractTopDomains.
  rewrite slice_from_zero by lia. change (Z.to_nat 5) with 5%nat.
  set (compareFn := fun a b : string * Z => snd b - snd a).
  set (counts := countDomains extractDomain sources).
  pose proof (sort_perm compareFn counts) as Hperm.
  assert (Hsorted : StronglySorted (fun x y => compareFn x y <= 0)
                                   (sort compareFn counts)).
  { apply sort_sorted; unfold compareFn; intros; lia. }
  assert (Hnd : NoDup (map fst (sort compareFn counts))).
  { apply (Permutation_NoDup (Permutation_sym (Permutation_map fst Hperm))).
    apply countDomains_NoDup. }
  assert (Hentry : forall domain count,
             In (domain, count) (sort compareFn counts) <->
             domain <> EmptyString
             /\ (0 < occurrences extractDomain sources domain)%nat
             /\ count = Z.of_nat (occurrences extractDomain sources domain)).
  { intros domain count. rewrite <- countDomains_entry. fold counts.
    split; apply Permutation_in; [exact Hperm|apply Permutation_sym, Hperm]. }
  split; [|split; [|split; [|split]]].
  - rewrite length_map. apply firstn_le_length.
  - rewrite <- firstn_map. apply NoDup_firstn, Hnd.
  - intros domain Hin. apply in_map_iff in Hin as ([d c] & <- & Hin).
    cbn [fst]. apply (In_firstn_in 5), Hentry in Hin. tauto.
  - intros domain other Hin Hout Hother.
    apply in_map_iff in Hin as ([d c] & <- & Hin). cbn [fst].
    destruct (occurrences extractDomain sources other) as [|n] eqn:Eocc; [lia|].
    assert (Hin' : In (other, Z.of_nat (S n)) (sort compareFn counts)).
    { apply Hentry. rewrite Eocc. repeat split; [exact Hother|lia]. }
    rewrite <- (firstn_skipn 5 (sort compareFn counts)) in Hin'.
    apply in_app_or in Hin' as [Hfirst|Hrest].
    + exfalso. apply Hout. apply in_map_iff.
      exists (other, Z.of_nat (S n)). split; [reflexivity|exact Hfirst].
    + pose proof (sorted_firstn_skipn compareFn 5 _ Hsorted _ _ Hin Hrest) as Hle.
      unfold compareFn in Hle. cbn [snd] in Hle.
      apply (In_firstn_in 5), Hentry in Hin. destruct Hin as (_ & _ & ->). lia.
  - apply sorted_by_occurrences.
    + apply sorted_firstn. exact Hsorted.
    + intros domain count Hin.
      apply (In_firstn_in 5), Hentry in Hin. tauto.
Qed.

End TopDomainFacts.

(** ** A ceiling that is negative *)

Module StarvationFacts.
Import RateLimiter RequestQueueMore Samples QueueFacts.

Section Starved.

Context {T : Type}.
Variable options : Options.
Hypothesis no_ceiling : maxRequestsPerMinute options <= 0.

Abbreviation State := (@QueueState T).

Lemma processQueue_starved now (s : State) :
  queue s <> [] ->
  exists waitTime,
    processQueue options now s =
      ({| queue := queue s; processing := true;
          requestTimestamps := purge now (requestTimestamps s) |},
       Deferred waitTime).
Proof.
  intros Hq. unfold processQueue. destruct (queue s) as [|p rest]; [congruence|].
  replace (maxRequestsPerMinute options
             <=? Z.of_nat (length (purge now (requestTimestamps s)))) with true
    by (symmetry; apply Z.leb_le; lia).
  eexists. reflexivity.
Qed.

Lemma processQueue_grants_nothing now (s : State) :
  grantedBy (Some (snd (processQueue options now s))) = [].
Proof.
  destruct (queue s) as [|p rest] eqn:Eq.
  - unfold processQueue. rewrite Eq. reflexivity.
  - destruct (processQueue_starved now s) as [w ->]; [congruence|reflexivity].
Qed.

Lemma step_grants_nothing now ev (s : State) :
  grantedBy (snd (step options now ev s)) = [].
Proof.
  destruct ev as [p|]; cbn [step].
  - unfold enqueue. cbn [processing].
    destruct (processing s); [reflexivity|].
    pose proof (processQueue_grants_nothing now
      {| queue := queue s ++ [p]; processing := false;
         requestTimestamps := requestTimestamps s |}) as H.
    destruct (processQueue options now _) as [s2 a]. exact H.
  - pose proof (processQueue_grants_nothing now s) as H.
    destruct (processQueue options now s) as [s2 a]. exact H.
Qed.

Lemma runEventsRequests_starved (evs : list (Z * @Event T)) :
  forall (s : State) started,
    snd (runEventsRequests options evs s started) = started.
Proof.
  induction evs as [|[now ev] evs IH]; intros s started; [reflexivity|].
  cbn [runEventsRequests]. pose proof (step_grants_nothing now ev s) as H.
  destruct (step options now ev s) as [s' a]. cbn [snd] in H.
  rewrite IH, H, app_nil_r. reflexivity.
Qed.

Lemma eventLoop_starved lag (fuel : nat) :
  forall k now (s : State) waitTime log,
    queue s <> [] ->
    eventLoop options lag fuel k now s (Deferred waitTime) log = None.
Proof.
  induction fuel as [|fuel IH]; intros k now s waitTime log Hq; [reflexivity|].
  cbn [eventLoop].
  destruct (processQueue_starved
              (now + timerDelayOpt (plus100 waitTime) + Z.of_nat (lag k)) s Hq)
    as [w ->].
  apply IH. exact Hq.
Qed.

Lemma burst_starved lag fuel now fn (fns : list (@RequestFn T)) :
  burst options lag fuel now (fn :: fns) = None.
Proof.
  unfold burst. cbn [submissions enqueueAll]. unfold enqueue at 1.
  cbn [processing emptyQueue queue app requestTimestamps].
  destruct (processQueue_starved now
              {| queue := [{| pid := 0; requestFn := fn |}];
                 processing := false; requestTimestamps := [] |})
    as [w ->]; [discriminate|].
  rewrite enqueueAll_processing by reflexivity.
  apply eventLoop_starved. cbn [queue app]. discriminate.
Qed.

End Starved.

(** X19. A negative ceiling is not rejected and starves the queue: on
    a queue built with [maxRequestsPerMinute] below 0 no request is ever
    started, whatever the calls of [enqueue] and the runs of
    [processQueue], and the chain of timers of a burst never ends. *)
Theorem negative_ceiling_starves_the_queue {T : Type}
        (ceiling : Z) (count delay : option Z) :
  ceiling < 0 ->
  let options :=
    RequestQueue_options (mkRateLimitOptions (Some ceiling) count delay) in
  (forall (evs : list (Z * @Event T)) s,
     snd (runEventsRequests options evs s []) = []
     /\ queue (fst (runEventsRequests options evs s []))
        = queue s ++ enqueuedBy evs)
  /\ (forall lag fuel now fn (fns : list (@RequestFn T)),
        burst options lag fuel now (fn :: fns) = None).
Proof.
  intros Hneg options.
  assert (Hc : maxRequestsPerMinute options <= 0).
  { unfold options, RequestQueue_options, orDefault.
    cbn [maxRequestsPerMinute optMaxRequestsPerMinute].
    destruct (ceiling =? 0) eqn:E; [apply Z.eqb_eq in E; lia|lia]. }
  split.
  - intros evs s.
    pose proof (runEventsRequests_starved options Hc evs s []) as Hnone.
    split; [exact Hnone|].
    pose proof (InterleavingFacts.runEventsRequests_conserves options evs s [])
      as Hall.
    rewrite Hnone in Hall. exact Hall.
  - intros lag fuel now fn fns. apply burst_starved, Hc.
Qed.

Lemma negative_ceiling_starves_the_queue_witness :
  snd (runEventsRequests
         (RequestQueue_options (mkRateLimitOptions (Some (-1)) None None))
         sampleEvents emptyQueue []) = []
  /\ burst (RequestQueue_options (mkRateLimitOptions (Some (-1)) None None))
           noLag 1000 0 [sampleRequest; sampleRequest] = None.
Proof.
  destruct (negative_ceiling_starves_the_queue (T := nat) (-1) None None)
    as [Hevents Hburst]; [lia|].
  split; [apply Hevents|apply Hburst].
Defined.

End StarvationFacts.

(** ** Queued requests under the timeout of the batch runner *)

Module QueuedTaskFacts.
Import RateLimiter BatchRunner RequestQueueMore QueuedTasks Samples TimerFacts
       QueueFacts.

Lemma race_client_late {T : Type} timeout message at_ (o : Outcome (option T)) :
  0 < timeout -> timeout <= Z.of_nat at_ ->
  race false timeout message (Settles at_ o) =
    Settles (Z.to_nat (timerDelay timeout)) (Rejected (PlainError message)).
Proof.
  intros Hpos Hlate. unfold race.
  pose proof (timerDelay_le timeout ltac:(lia)) as Hle.
  pose proof (timerDelay_pos timeout) as Hp.
  replace (at_ <? Z.to_nat (timerDelay timeout))%nat with false
    by (symmetry; apply Nat.ltb_ge; lia).
  reflexivity.
Qed.

Lemma race_client_in_time {T : Type} timeout message at_ (o : Outcome (option T)) :
  1 <= timeout <= TIMEOUT_MAX -> Z.of_nat at_ < timeout ->
  race false timeout message (Settles at_ o) = Settles at_ o.
Proof.
  intros Hrange Hin. unfold race. rewrite timerDelay_id by exact Hrange.
  replace (at_ <? Z.to_nat timeout)%nat with true
    by (symmetry; apply Nat.ltb_lt; lia).
  reflexivity.
Qed.

(** X20. The timeout of a task covers its time in the queue: when the
    tasks given to the client's [executeParallel] are requests submitted
    together to a new rate limiter, as [batchResearch] does in its first
    batch, they run one at a time whatever [maxConcurrent] is, and the
    task at position [i] fails with the timeout error as soon as the
    requests up to it take [timeoutMs] or more together; it keeps the
    outcome of its request exactly when that settles before
    [timeoutMs]. *)
Theorem queued_tasks_share_the_timeout {T : Type} (options : Options)
        (lag : nat -> nat) (now timeout : Z)
        (fns : list (@RequestFn (option T))) (fuel : nat) :
  1 <= maxRequestsPerMinute options ->
  (burstFuel options fns <= fuel)%nat ->
  1 <= timeout <= TIMEOUT_MAX ->
  exists s log,
    burst options lag fuel now fns = Some (s, log)
    /\ map request log = submissions 0 fns
    /\ forall i a,
         nth_error log i = Some a ->
         let raced :=
           race false timeout "Task execution timed out" (enqueuePromise now a) in
         (timeout <= elapsedTotal log (S i) ->
          raced = Settles (Z.to_nat timeout)
                    (Rejected (PlainError "Task execution timed out")))
         /\ (settledAt a - now < timeout -> raced = enqueuePromise now a)
         /\ (timeout <= settledAt a - now ->
             raced = Settles (Z.to_nat timeout)
                       (Rejected (PlainError "Task execution timed out"))).
Proof.
  intros HR Hfuel Hrange.
  destruct (burst_drains options lag HR now fns fuel Hfuel)
    as (s & log & Hrun & Hmap & Hseq & _).
  exists s, log. split; [exact Hrun|]. split; [exact Hmap|].
  intros i a Hi raced.
  pose proof (InterleavingFacts.sequential_elapsed now log Hseq i a Hi) as Hsum.
  assert (Hlate : timeout <= settledAt a - now ->
                  raced = Settles (Z.to_nat timeout)
                            (Rejected (PlainError "Task execution timed out"))).
  { intros Hle. unfold raced, enqueuePromise.
    rewrite race_client_late by lia.
    rewrite timerDelay_id by exact Hrange. reflexivity. }
  split; [|split].
  - intros Hle. apply Hlate. lia.
  - intros Hlt. unfold raced, enqueuePromise.
    apply race_client_in_time; [exact Hrange|lia].
  - exact Hlate.
Qed.

Lemma queued_tasks_share_the_timeout_witness :
  exists s log,
    burst (RequestQueue_options (mkRateLimitOptions None None None)) noLag 20 1000
      [ (fun _ => {| latency := 2000; outcome := Resolved (Some 1%nat) |});
        (fun _ => {| latency := 2000; outcome := Resolved (Some 2%nat) |}) ]
      = Some (s, log)
    /\ map request log =
         submissions 0
           [ (fun _ => {| latency := 2000; outcome := Resolved (Some 1%nat) |});
             (fun _ => {| latency := 2000; outcome := Resolved (Some 2%nat) |}) ]
    /\ forall i a,
         nth_error log i = Some a ->
         let raced :=
           race false 3000 "Task execution timed out" (enqueuePromise 1000 a) in
         (3000 <= elapsedTotal log (S i) ->
          raced = Settles (Z.to_nat 3000)
                    (Rejected (PlainError "Task execution timed out")))
         /\ (settledAt a - 1000 < 3000 -> raced = enqueuePromise 1000 a)
         /\ (3000 <= settledAt a - 1000 ->
             raced = Settles (Z.to_nat 3000)
                       (Rejected (PlainError "Task execution timed out"))).
Proof.
  apply (queued_tasks_share_the_timeout (T := nat)).
  - simpl. lia.
  - vm_compute. lia.
  - unfold TIMEOUT_MAX. lia.
Defined.

End QueuedTaskFacts.

(** ** The concurrency cap *)

Module BatchScheduleFacts.
Import BatchRunner BatchRunnerMore BatchSchedule Samples BatchFacts
       BatchRunnerMoreFacts.

Section Cap.

Context {T : Type}.

Abbreviation Tasks := (list (@Task T)).
Abbreviation Calls := (list (nat * @Task T)).
Abbreviation doneBy d :=
  (fun t : @Task T =>
     match t with
     | Settles at_ _ => (at_ <= d)%nat
     | Never => False
     | Throws _ => True
     end).

Lemma allFulfilled_settled (ps : Tasks) vs :
  allFulfilled ps = Some vs ->
  Forall (fun p => exists at_ o,
            p = Settles at_ o /\ (at_ <= lastSettled ps)%nat) ps.
Proof.
  revert vs. induction ps as [|p ps IH]; intros vs H; [constructor|].
  destruct p as [at_ [v|e]| |e]; cbn [allFulfilled] in H; try discriminate.
  destruct (allFulfilled ps) as [vs'|]; [|discriminate].
  cbn [lastSettled]. constructor.
  - exists at_, (Resolved v). split; [reflexivity|lia].
  - eapply Forall_impl; [|exact (IH vs' eq_refl)].
    intros p (a & o & -> & Hle). exists a, o. split; [reflexivity|lia].
Qed.

Lemma promiseAll_fulfilled (ps : Tasks) vs :
  promiseAll ps = Fulfilled vs -> allFulfilled ps = Some vs.
Proof.
  unfold promiseAll. destruct (firstRejection ps) as [[at_ e]|]; [discriminate|].
  destruct (allFulfilled ps); [congruence|discriminate].
Qed.

Lemma guarded_settled abort (batch : Tasks) d :
  Forall (fun p => exists at_ o, p = Settles at_ o /\ (at_ <= d)%nat)
         (map fst (map (guarded abort) batch)) ->
  Forall (doneBy d) batch.
Proof.
  induction batch as [|t batch IH]; cbn [map]; intros H; [constructor|].
  inversion H as [|? ? Ht Hrest]; subst. constructor; [|exact (IH Hrest)].
  destruct Ht as (a & o & Heq & Hle).
  destruct t as [at_ [v|e]| |e]; cbn [guarded] in Heq.
  - cbn [fst] in Heq. injection Heq as <- _. exact Hle.
  - destruct abort; cbn [fst] in Heq; injection Heq as <- _; exact Hle.
  - discriminate.
  - exact I.
Qed.

Lemma guarded_partial_no_rejection (batch : Tasks) :
  firstRejection (map fst (map (guarded false) batch)) = None.
Proof.
  induction batch as [|t batch IH]; [reflexivity|].
  cbn [map firstRejection]. rewrite IH.
  destruct t as [at_ [v|e]| |e]; reflexivity.
Qed.

Lemma calls_tasks (clock : nat) (batch : Tasks) :
  map snd (map (pair clock) batch) = batch.
Proof. rewrite map_map. cbn [snd]. apply map_id. Qed.

Lemma inFlight_at_most t (calls : Calls) :
  (length (filter (inFlight t) calls) <= length calls)%nat.
Proof. apply FilterFacts.filter_length_le. Qed.

Lemma inFlight_not_yet t clock (calls : Calls) :
  Forall (fun c => (clock <= fst c)%nat) calls -> (t < clock)%nat ->
  filter (inFlight t) calls = [].
Proof.
  intros Hall Ht. induction Hall as [|c calls Hc _ IH]; [reflexivity|].
  cbn [filter]. unfold inFlight at 1.
  replace (fst c <=? t)%nat with false by (symmetry; apply Nat.leb_gt; lia).
  exact IH.
Qed.

Lemma inFlight_no_more t clock d (batch : Tasks) :
  Forall (doneBy d) batch ->
  (clock + d <= t)%nat ->
  filter (inFlight t) (map (pair clock) batch) = [].
Proof.
  intros Hall Ht. induction Hall as [|task batch Htask _ IH]; [reflexivity|].
  cbn [map filter]. unfold inFlight at 1. cbn [fst snd].
  destruct task as [a o| |e]; [|destruct Htask|].
  - replace (t <? clock + a)%nat with false by (symmetry; apply Nat.ltb_ge; lia).
    rewrite andb_false_r. exact IH.
  - rewrite andb_false_r. exact IH.
Qed.

Lemma executeParallel_calls_cap (tasks : Tasks) (m : Z) abort (fuel : nat) :
  1 <= m ->
  forall i clock,
    0 <= i ->
    (length (skipn (Z.to_nat i) tasks) < fuel)%nat ->
    exists calls rest,
      executeParallel_calls fuel tasks m abort i clock = Some calls
      /\ skipn (Z.to_nat i) tasks = map snd calls ++ rest
      /\ (abort = false -> Forall settles (skipn (Z.to_nat i) tasks) -> rest = [])
      /\ Forall (fun c => (clock <= fst c)%nat) calls
      /\ forall t, (length (filter (inFlight t) calls) <= Z.to_nat m)%nat.
Proof.
  intros Hm. induction fuel as [|fuel IH]; intros i clock Hi Hfuel; [lia|].
  cbn [executeParallel_calls].
  destruct (skipn (Z.to_nat i) tasks) as [|t0 rest0] eqn:Hskip.
  - pose proof (loop_index_outside tasks i Hi Hskip) as Hout.
    replace (i <? Z.of_nat (length tasks)) with false
      by (symmetry; apply Z.ltb_ge; exact Hout).
    exists [], []. repeat split; auto. intros t. simpl. lia.
  - assert (Hin : 0 <= i < Z.of_nat (length tasks)).
    { apply loop_index_inside; [exact Hi|]. rewrite Hskip. discriminate. }
    replace (i <? Z.of_nat (length tasks)) with true
      by (symmetry; apply Z.ltb_lt; lia).
    rewrite slice_batch by assumption. rewrite Hskip.
    set (batch := firstn (Z.to_nat m) (t0 :: rest0)).
    set (later := skipn (Z.to_nat m) (t0 :: rest0)).
    assert (Hsplit : t0 :: rest0 = batch ++ later)
      by (symmetry; apply firstn_skipn).
    assert (Hlen : (length batch <= Z.to_nat m)%nat)
      by (apply firstn_le_length).
    assert (Hnext : skipn (Z.to_nat (i + m)) tasks = later).
    { rewrite skipn_next by lia. rewrite Hskip. reflexivity. }
    assert (Hshorter : (length later < fuel)%nat).
    { unfold later. rewrite length_skipn. simpl length in *.
      assert (1 <= Z.to_nat m)%nat by lia. lia. }
    assert (Hstop : exists calls rest,
               Some (map (pair clock) batch) = Some calls
               /\ t0 :: rest0 = map snd calls ++ rest
               /\ Forall (fun c => (clock <= fst c)%nat) calls
               /\ forall t, (length (filter (inFlight t) calls) <= Z.to_nat m)%nat).
    { exists (map (pair clock) batch), later. split; [reflexivity|].
      split; [rewrite calls_tasks; exact Hsplit|]. split.
      - apply Forall_forall. intros c Hc.
        apply in_map_iff in Hc as (? & <- & _). cbn [fst]. lia.
      - intros t. pose proof (inFlight_at_most t (map (pair clock) batch)) as H.
        rewrite length_map in H. lia. }
    assert (Hgo : forall d,
               exists calls rest,
                 option_map (app (map (pair clock) batch))
                   (executeParallel_calls fuel tasks m abort (i + m) (clock + d))
                 = Some calls
                 /\ t0 :: rest0 = map snd calls ++ rest
                 /\ (abort = false -> Forall settles (t0 :: rest0) -> rest = [])
                 /\ Forall (fun c => (clock <= fst c)%nat) calls
                 /\ (Forall (doneBy d) batch ->
                     forall t,
                       (length (filter (inFlight t) calls) <= Z.to_nat m)%nat)).
    { intros d.
      destruct (IH (i + m) (clock + d)%nat ltac:(lia))
        as (calls & rest & Hrun & Hrest & Hdone & Hfrom & Hcap);
        [rewrite Hnext; exact Hshorter|].
      rewrite Hnext in Hrest, Hdone. rewrite Hrun. cbn [option_map].
      exists (map (pair clock) batch ++ calls), rest.
      split; [reflexivity|]. split; [|split; [|split]].
      - rewrite map_app, calls_tasks, <- app_assoc, <- Hrest. exact Hsplit.
      - intros Hab Hall. apply Hdone; [exact Hab|].
        rewrite Hsplit in Hall. apply Forall_app in Hall. tauto.
      - apply Forall_app. split.
        + apply Forall_forall. intros c Hc.
          apply in_map_iff in Hc as (? & <- & _). cbn [fst]. lia.
        + eapply Forall_impl; [|exact Hfrom]. cbn beta. intros; lia.
      - intros Hsettled t. rewrite filter_app, length_app.
        destruct (Nat.lt_ge_cases t (clock + d)) as [Hbefore|Hafter].
        + rewrite (inFlight_not_yet t (clock + d) calls Hfrom Hbefore).
          pose proof (inFlight_at_most t (map (pair clock) batch)) as H.
          rewrite length_map in H. simpl length. lia.
        + rewrite (inFlight_no_more t clock d batch Hsettled Hafter).
          simpl length. apply Hcap. }
    destruct (promiseAll (map fst (map (guarded abort) batch))) as [vs|e|] eqn:Hall.
    + assert (Hsettled :
                Forall (doneBy (lastSettled (map fst (map (guarded abort) batch))))
                       batch).
      { apply (guarded_settled abort), (allFulfilled_settled _ vs).
        apply promiseAll_fulfilled, Hall. }
      destruct (Hgo (lastSettled (map fst (map (guarded abort) batch))))
        as (calls & rest & Hrun & Hrest & Hdone & Hfrom & Hcap).
      exists calls, rest. repeat split; auto.
    + destruct abort.
      * destruct Hstop as (calls & rest & Hrun & Hrest & Hfrom & Hcap).
        exists calls, rest. repeat split; auto. discriminate.
      * exfalso. unfold promiseAll in Hall.
        rewrite guarded_partial_no_rejection in Hall.
        destruct (allFulfilled _); discriminate.
    + destruct Hstop as (calls & rest & Hrun & Hrest & Hfrom & Hcap).
      exists calls, rest. repeat split; auto.
      intros -> Hsettle. exfalso.
      rewrite Hsplit in Hsettle. apply Forall_app in Hsettle as [Hb _].
      destruct (guarded_partial_promises batch Hb) as [Hnone Hsome].
      unfold promiseAll in Hall. rewrite Hnone, Hsome in Hall. discriminate.
Qed.

End Cap.

(** X21. The concurrency cap holds: with [maxConcurrent] of at least 1,
    [executeParallel] calls the tasks in their order, each at most once,
    and at no time are more than [maxConcurrent] of the tasks it has
    called still running; in partial mode, when every task settles,
    every task is called. *)
Theorem never_more_than_maxConcurrent_in_flight {T : Type}
        (tasks : list (@Task T)) (m : Z) (abort : bool) (fuel : nat) :
  1 <= m ->
  (length tasks < fuel)%nat ->
  exists calls rest,
    executeParallel_calls fuel tasks m abort 0 0 = Some calls
    /\ tasks = map snd calls ++ rest
    /\ (abort = false -> Forall settles tasks -> rest = [])
    /\ forall t, (length (filter (inFlight t) calls) <= Z.to_nat m)%nat.
Proof.
  intros Hm Hfuel.
  destruct (executeParallel_calls_cap tasks m abort fuel Hm 0 0%nat (Z.le_refl 0))
    as (calls & rest & Hrun & Hrest & Hdone & _ & Hcap); [exact Hfuel|].
  exists calls, rest. repeat split; auto.
Qed.

Lemma never_more_than_maxConcurrent_in_flight_witness :
  exists calls rest,
    executeParallel_calls 10 settlingTasks 2 false 0 0 = Some calls
    /\ settlingTasks = map snd calls ++ rest
    /\ (false = false -> Forall settles settlingTasks -> rest = [])
    /\ forall t, (length (filter (inFlight t) calls) <= Z.to_nat 2)%nat.
Proof.
  apply never_more_than_maxConcurrent_in_flight.
  - lia.
  - simpl. lia.
Defined.

End BatchScheduleFacts.

(** ** A task that never settles *)

Module HangFacts.
Import BatchRunner BatchRunnerMore Samples BatchFacts.

Section Hanging.

Context {T : Type}.

Abbreviation Tasks := (list (@Task T)).

Lemma settle_or_never (l : Tasks) :
  Forall settles l \/ Exists (fun t => t = Never) l.
Proof.
  induction l as [|t l [IH|IH]].
  - left. constructor.
  - destruct t as [at_ o| |e].
    + left. constructor; [exact I|exact IH].
    + right. apply Exists_cons_hd. reflexivity.
    + left. constructor; [exact I|exact IH].
  - right. apply Exists_cons_tl, IH.
Qed.

Lemma never_does_not_settle (l : Tasks) :
  Forall settles l -> Exists (fun t => t = Never) l -> False.
Proof.
  intros Hall Hex. apply Exists_exists in Hex as (t & Hin & ->).
  rewrite Forall_forall in Hall. exact (Hall _ Hin).
Qed.

Lemma executeParallel_loop_hangs (tasks : Tasks) (m : Z) (fuel : nat) :
  1 <= m ->
  forall i results errors,
    0 <= i ->
    Exists (fun t => t = Never) (skipn (Z.to_nat i) tasks) ->
    (length (skipn (Z.to_nat i) tasks) < fuel)%nat ->
    executeParallel_loop fuel tasks m false i results errors = Some Hung.
Proof.
  intros Hm. induction fuel as [|fuel IH];
    intros i results errors Hi Hex Hfuel; [lia|].
  cbn [executeParallel_loop].
  destruct (skipn (Z.to_nat i) tasks) as [|t rest] eqn:Erest; [inversion Hex|].
  assert (Hin : 0 <= i < Z.of_nat (length tasks)).
  { apply loop_index_inside; [exact Hi|]. rewrite Erest. discriminate. }
  replace (i <? Z.of_nat (length tasks)) with true
    by (symmetry; apply Z.ltb_lt; lia).
  rewrite slice_batch by assumption. rewrite Erest.
  destruct (settle_or_never (firstn (Z.to_nat m) (t :: rest))) as [Hb|Hb].
  - destruct (runBatch_partial _ Hb) as (pushed & -> & _).
    apply IH; [lia| |].
    + rewrite skipn_next by lia. rewrite Erest.
      rewrite <- (firstn_skipn (Z.to_nat m) (t :: rest)) in Hex.
      apply Exists_app in Hex as [Hex|Hex]; [|exact Hex].
      exfalso. exact (never_does_not_settle _ Hb Hex).
    + rewrite skipn_next by lia. rewrite Erest, length_skipn.
      simpl length in *. lia.
  - pose proof (runBatch_hangs _ Hb) as Hwait.
    destruct (runBatch false (firstn (Z.to_nat m) (t :: rest))) as [awaited pushed].
    cbn [fst] in Hwait. subst awaited. reflexivity.
Qed.

End Hanging.

(** X22. [executeParallel] has no timeout of its own: in partial mode
    (and a concurrency of at least 1) a single task that never settles
    keeps the call from ever returning, whatever the other tasks do. *)
Theorem unsettled_task_hangs_executeParallel {T : Type}
        (tasks : list (@Task T)) (m : Z) (fuel : nat) :
  1 <= m ->
  (length tasks < fuel)%nat ->
  In Never tasks ->
  executeParallel fuel tasks (Some m) (Some false) = Some Hung.
Proof.
  intros Hm Hfuel Hin. unfold executeParallel.
  apply executeParallel_loop_hangs; [exact Hm|lia| |exact Hfuel].
  apply Exists_exists. exists Never. split; [exact Hin|reflexivity].
Qed.

Lemma unsettled_task_hangs_executeParallel_witness :
  executeParallel 10 [fastSuccess; failing; slowSuccess; hanging; nullSuccess]
    (Some 2) (Some false) = Some Hung.
Proof.
  apply unsettled_task_hangs_executeParallel.
  - lia.
  - simpl. lia.
  - simpl. tauto.
Defined.

End HangFacts.
